(** * GAHelloWorld: a shallow embedding of [gahelloworld.py]

    The script evolves a population of strings towards the fixed target
    ["Hello, world!"].  The embedding follows the Python source method by
    method:

    - Python [int]s are [Z]; a [str] is a [list ascii] (Python 2 byte
      strings: every character has a code in [0, 255]);
    - a finite [float] is the rational [Q] it denotes, and a float
      operation rounds its exact result to the nearest float of IEEE 754
      binary64, or overflows to an infinity; the rates of a population are
      finite floats (an infinite or NaN rate is outside the embedding);
      [random()] returns a 53-bit dyadic rational of [[0, 1)];
    - the module-level random source is an entropy tape read through a
      cursor; [randint(a, b)] raises [ValueError] on an empty range;
    - list objects live in a store indexed by references, so that the
      difference between a list and a copy of it is visible;
    - Python exceptions are an outcome of their own, and the [while] loop of
      [evolve] runs on fuel with a distinguished [OutOfFuel] outcome. *)

From Stdlib Require Import ZArith QArith Qround Qpower Lqa Ascii String.
From stdpp Require Import base tactics option numbers list sorting gmap.
From stdpp Require Import strings pretty.

Close Scope Q_scope.
Local Open Scope Z_scope.

(** ** Python values and built-ins *)

(** [len(l)] *)
Definition len {A} (l : list A) : Z := Z.of_nat (length l).

(** [ord(c)] of a one-character byte string. *)
Definition ord (c : ascii) : Z := Z.of_N (N_of_ascii c).

(** A Python list index or slice bound may be negative, counting from the
    end.  [slice_bound len i] is the position a slice bound [i] denotes in
    a sequence of length [len]. *)
Definition slice_bound (len i : Z) : Z :=
  if i <? 0 then Z.max 0 (len + i) else Z.min i len.

(** [l[lo:hi]] *)
Definition slice {A} (l : list A) (lo hi : Z) : list A :=
  let lo' := slice_bound (len l) lo in
  let hi' := slice_bound (len l) hi in
  take (Z.to_nat (hi' - lo')) (drop (Z.to_nat lo') l).

(** [l[lo:]] *)
Definition slice_from {A} (l : list A) (lo : Z) : list A :=
  drop (Z.to_nat (slice_bound (len l) lo)) l.

(** [int(round(x))] on a finite float [x] in Python 2: [round] returns the
    nearest integral float, halves away from zero, and [int] its value. *)
Definition int_round (x : Q) : Z :=
  if Qle_bool 0 x then Qfloor (x + (1 # 2))%Q else - Qfloor (- x + (1 # 2))%Q.

(** ** Floats

    A Python [float] is a binary64 number of IEEE 754: 53 significant
    bits, the last place of the smallest floats at [2^-1074], the largest
    float just below [2^1024].  A finite float is given by its exact
    value.  The result of an operation on finite floats is the exact result
    rounded to the nearest float, a half to the float of even significand;
    it is an infinity, [None] here, when the rounded result is [2^1024] or
    more. *)

(** The integer [l] with [2^l <= q < 2^(l+1)], for [0 < q]. *)
Definition floor_log2 (q : Q) : Z :=
  let l := Z.log2 (Qnum q) - Z.log2 (Z.pos (Qden q)) in
  if Qle_bool (2 ^ l) q then l else l - 1.

(** The integer nearest to [x], a half to the even one. *)
Definition round_half_even (x : Q) : Z :=
  let f := Qfloor x in
  match (x - inject_Z f ?= 1 # 2)%Q with
  | Lt => f
  | Gt => f + 1
  | Eq => if Z.even f then f else f + 1
  end.

(** The exponent of the last place of the floats of the size of [q]. *)
Definition ulp_exp (q : Q) : Z := Z.max (-1074) (floor_log2 q - 52).

(** The multiple of [2 ^ ulp_exp q] nearest to [q], for [0 < q]. *)
Definition nearest (q : Q) : Q :=
  (inject_Z (round_half_even (q / 2 ^ ulp_exp q)) * 2 ^ ulp_exp q)%Q.

Definition float_round_pos (q : Q) : option Q :=
  let r := nearest q in
  if Qle_bool (2 ^ 1024) r then None else Some (Qred r).

(** The float an exact result [q] is rounded to. *)
Definition float_round (q : Q) : option Q :=
  let q := Qred q in
  match Qnum q with
  | 0 => Some 0%Q
  | Z.pos _ => float_round_pos q
  | Z.neg _ => Qopp <$> float_round_pos (- q)
  end.

(** [float(n)], the conversion of the [int] operand of a float
    operation. *)
Definition float_of_int (n : Z) : option Q := float_round (inject_Z n).

(** [x * y] on finite floats. *)
Definition float_mul (x y : Q) : option Q := float_round (x * y).

(** [sorted(l, key=...)]: Python's sort is stable, and the result of a
    stable sort is determined by its input, so a stable insertion sort
    computes the same list. *)
Section Sorted.
Context {A : Type} (key : A → Z).

Fixpoint insert_by_key (x : A) (l : list A) : list A :=
  match l with
  | [] => [x]
  | y :: l' => if key x <=? key y then x :: y :: l' else y :: insert_by_key x l'
  end.

Fixpoint sorted (l : list A) : list A :=
  match l with
  | [] => []
  | x :: l' => insert_by_key x (sorted l')
  end.

End Sorted.

(** ** Chromosome *)

Record Chromosome := mkChromosome {
  _gene : list ascii;
  _fitness : Z
}.

Definition __target_gene : list ascii :=
  Eval cbv in list_ascii_of_string "Hello, world!".

(** The body of the loop of [_updateFitness]:
    [fitness += abs(ord(a) - ord(b))]. *)
Definition fitness_step (fitness : Z) (ab : ascii * ascii) : Z :=
  fitness + Z.abs (ord (fst ab) - ord (snd ab)).

Definition _updateFitness (gene : list ascii) : Z :=
  foldl fitness_step 0 (zip gene __target_gene).

(** [Chromosome(gene)], that is [Chromosome.__init__]. *)
Definition Chromosome_init (gene : list ascii) : Chromosome :=
  {| _gene := gene; _fitness := _updateFitness gene |}.

(** ** The world: random source and list store *)

Record Rng := mkRng {
  tape : nat → N;
  pos : nat
}.

(** References to list objects. *)
Abbreviation loc := positive (only parsing).

Record World := mkWorld {
  rng : Rng;
  heap : gmap positive (list Chromosome)
}.

(** [DanglingRef] has no Python counterpart: a Python reference always
    denotes a live object.  It is the outcome of reading a reference the
    store does not hold, and is excluded wherever it matters. *)
Inductive exn := ValueError | IndexError | OverflowError | DanglingRef.

Inductive outcome (A : Type) :=
  | Done (a : A) (w : World)
  | Raise (e : exn)
  | OutOfFuel.
Arguments Done {A} a w.
Arguments Raise {A} e.
Arguments OutOfFuel {A}.

Definition M (A : Type) : Type := World → outcome A.

#[export] Instance M_ret : MRet M := λ A a w, Done a w.
#[export] Instance M_bind : MBind M := λ A B f m w,
  match m w with
  | Done a w' => f a w'
  | Raise e => Raise e
  | OutOfFuel => OutOfFuel
  end.

Definition raise {A} (e : exn) : M A := λ _, Raise e.
Definition out_of_fuel {A} : M A := λ _, OutOfFuel.

(** [for x in range(n): s = body(s)]; none of the loops of the script reads
    its counter. *)
Fixpoint for_range {S} (n : nat) (body : S → M S) (s : S) : M S :=
  match n with
  | O => mret s
  | S n' => s' ← body s; for_range n' body s'
  end.

(** [for x in xs: s = body(x, s)] *)
Fixpoint for_each {X S} (xs : list X) (body : X → S → M S) (s : S) : M S :=
  match xs with
  | [] => mret s
  | x :: xs' => s' ← body x s; for_each xs' body s'
  end.

(** [while cond(s): s = body(s)], cut off after [fuel] iterations. *)
Fixpoint while {S} (fuel : nat) (cond : S → bool) (body : S → M S) (s : S)
  : M S :=
  if cond s then
    match fuel with
    | O => out_of_fuel
    | S fuel' => s' ← body s; while fuel' cond body s'
    end
  else mret s.

(** [chr(n)] *)
Definition chr (n : Z) : M ascii :=
  if (0 <=? n) && (n <? 256) then mret (ascii_of_N (Z.to_N n))
  else raise ValueError.

(** [l[i]] *)
Definition getitem {A} (l : list A) (i : Z) : M A :=
  let i' := if i <? 0 then len l + i else i in
  if i' <? 0 then raise IndexError
  else match l !! Z.to_nat i' with
       | Some x => mret x
       | None => raise IndexError
       end.

(** [l[i] = x] on a local list. *)
Definition setitem {A} (l : list A) (i : Z) (x : A) : M (list A) :=
  let i' := if i <? 0 then len l + i else i in
  if (0 <=? i') && (i' <? len l)
  then mret (<[Z.to_nat i' := x]> l)
  else raise IndexError.

(** The next raw draw of the random source. *)
Definition draw : M N := λ w,
  let r := rng w in
  Done (tape r (pos r)) {| rng := {| tape := tape r; pos := S (pos r) |};
                           heap := heap w |}.

Definition two53 : positive := Eval cbv in (2 ^ 53)%positive.

(** The float [k / 2^53], [0 <= k < 2^53], a raw draw stands for. *)
Definition random_of (raw : N) : Q :=
  Qmake (Z.of_N raw mod Z.pos two53) two53.

(** [random()] *)
Definition random : M Q :=
  raw ← draw; mret (random_of raw).

(** The integer of [[lo, hi]] a raw draw stands for. *)
Definition randint_of (lo hi : Z) (raw : N) : Z :=
  lo + Z.of_N raw mod (hi - lo + 1).

(** [randint(lo, hi)]: an integer of [[lo, hi]], both ends included;
    [ValueError] when the range is empty. *)
Definition randint (lo hi : Z) : M Z :=
  if hi <? lo then raise ValueError
  else raw ← draw; mret (randint_of lo hi raw).

(** Store operations. *)
Definition alloc (l : list Chromosome) : M loc := λ w,
  let r := fresh (dom (heap w)) in
  Done r {| rng := rng w; heap := <[r := l]> (heap w) |}.

Definition load (r : loc) : M (list Chromosome) := λ w,
  match heap w !! r with
  | Some l => Done l w
  | None => Raise DanglingRef
  end.

(** ** Chromosome methods *)

Definition mate (self mate : Chromosome) : M (Chromosome * Chromosome) :=
  pivot ← randint 0 (len (_gene self) - 1);
  let gene1 := slice (_gene self) 0 pivot ++ slice_from (_gene mate) pivot in
  let gene2 := slice (_gene mate) 0 pivot ++ slice_from (_gene self) pivot in
  mret (Chromosome_init gene1, Chromosome_init gene2).

Definition mutate (self : Chromosome) : M Chromosome :=
  let gene := _gene self in
  r ← randint 0 89;
  let delta := r + 32 in
  idx ← randint 0 (len gene - 1);
  old ← getitem gene idx;
  c ← chr ((ord old + delta) mod 122);
  gene ← setitem gene idx c;
  mret (Chromosome_init gene).

Definition genRandom : M Chromosome :=
  gene ← for_range (length __target_gene)
         (λ gene, r ← randint 0 89; c ← chr (r + 32); mret (gene ++ [c])) [];
  mret (Chromosome_init gene).

(** ** Population *)

Record Population := mkPopulation {
  _elitism : Q;
  _mutation : Q;
  _crossover : Q;
  _population : loc
}.

Definition __tournamentSize : nat := 3.

(** [Population(size, crossover, elitism, mutation)], that is
    [Population.__init__]; [range(size)] is empty for a negative [size]. *)
Definition Population_init (size : Z) (crossover elitism mutation : Q)
  : M Population :=
  buf ← for_range (Z.to_nat size)
        (λ buf, c ← genRandom; mret (buf ++ [c])) [];
  r ← alloc (sorted _fitness buf);
  mret {| _elitism := elitism; _mutation := mutation;
          _crossover := crossover; _population := r |}.

(** The [population] property: [self._population[:]], a new list object
    with the same items. *)
Definition population (self : Population) : M loc :=
  l ← load (_population self);
  alloc (slice_from l 0).

Definition elitism (self : Population) : Q := _elitism self.
Definition mutation (self : Population) : Q := _mutation self.
Definition crossover (self : Population) : Q := _crossover self.

(** One round of the tournament, the body of the [for] loop of
    [__tournamentSelection]. *)
Definition tournament_round (self : Population) (best : Chromosome)
  : M Chromosome :=
  own ← load (_population self);
  i ← randint 0 (len own - 1);
  cont ← getitem own i;
  mret (if _fitness cont <? _fitness best then cont else best).

(** [__tournamentSelection]: the first candidate is read from a copy of the
    list (through the property), the contenders from the list itself. *)
Definition __tournamentSelection (self : Population) : M Chromosome :=
  copy ← population self;
  members ← load copy;
  own ← load (_population self);
  i ← randint 0 (len own - 1);
  best ← getitem members i;
  for_range __tournamentSize (tournament_round self) best.

Definition __selectParents (self : Population) : M (Chromosome * Chromosome) :=
  p1 ← __tournamentSelection self;
  p2 ← __tournamentSelection self;
  mret (p1, p2).

(** The body of [for c in children] in [evolve]: the child is appended,
    mutated when the draw is at most the mutation rate. *)
Definition append_child (self : Population) (c : Chromosome)
  (buf : list Chromosome) : M (list Chromosome) :=
  r ← random;
  if Qle_bool r (_mutation self)
  then m ← mutate c; mret (buf ++ [m])
  else mret (buf ++ [c]).

(** One iteration of the [while] loop of [evolve] on the loop state
    [(idx, buf)].  The last statement of the [else] branch, [++idx], is the
    expression [+(+idx)]: it is evaluated and dropped, and [idx] keeps its
    value. *)
Definition evolve_body (self : Population) (st : Z * list Chromosome)
  : M (Z * list Chromosome) :=
  let '(idx, buf) := st in
  r ← random;
  if Qle_bool r (_crossover self) then
    '(p1, p2) ← __selectParents self;
    '(c1, c2) ← mate p1 p2;
    buf ← for_each [c1; c2] (append_child self) buf;
    mret (idx + 2, buf)
  else
    r ← random;
    if Qle_bool r (_mutation self) then
      own ← load (_population self);
      c ← getitem own idx;
      m ← mutate c;
      mret (idx, buf ++ [m])
    else
      own ← load (_population self);
      c ← getitem own idx;
      mret (idx, buf ++ [c]).

(** The elite count [int(round(size * self._elitism))]: the product is
    the float one, [size] converted to a float first, and there is no
    count, [None], when the product is an infinity, on which [int] raises
    [OverflowError]. *)
Definition elite_count (size : Z) (elitism : Q) : option Z :=
  x ← float_of_int size;
  p ← float_mul x elitism;
  Some (int_round p).

Definition evolve (fuel : nat) (self : Population) : M Population :=
  own ← load (_population self);
  let size := len own in
  idx ← match elite_count size (_elitism self) with
        | Some idx => mret idx
        | None => raise OverflowError
        end;
  let buf := slice own 0 idx in
  st ← while fuel (λ st, fst st <? size) (evolve_body self) (idx, buf);
  r ← alloc (sorted _fitness (slice (snd st) 0 size));
  mret {| _elitism := _elitism self; _mutation := _mutation self;
          _crossover := _crossover self; _population := r |}.

(** ** The script

    The statements under [if __name__ == "__main__"].  What [print] writes
    is the list of lines the script returns. *)

(** The float literals [0.8], [0.1] and [0.3], as the rationals they
    denote. *)
Definition float_0_8 : Q := 3602879701896397 # 4503599627370496.
Definition float_0_1 : Q := 3602879701896397 # 36028797018963968.
Definition float_0_3 : Q := 5404319552844595 # 18014398509481984.

Definition maxGenerations : Z := 16384.

(** [pop.population[0]] *)
Definition best_member (pop : Population) : M Chromosome :=
  r ← population pop;
  l ← load r;
  getitem l 0.

(** ["Generation %d: %s" % (i, gene)] *)
Definition generation_line (i : Z) (gene : list ascii) : string :=
  "Generation " +:+ pretty i +:+ ": " +:+ string_of_list_ascii gene.

Definition failure_line : string :=
  "Maximum generations reached without success.".

(** The [for ... else] loop over the generation numbers [gens]; [break]
    skips the [else] clause. *)
Fixpoint main_loop (fuel : nat) (gens : list Z) (pop : Population)
  (out : list string) : M (Population * list string) :=
  match gens with
  | [] => mret (pop, out ++ [failure_line])
  | i :: gens' =>
      c ← best_member pop;
      let out := out ++ [generation_line i (_gene c)] in
      c ← best_member pop;
      if _fitness c =? 0 then mret (pop, out)
      else pop ← evolve fuel pop; main_loop fuel gens' pop out
  end.

Definition main (fuel : nat) : M (Population * list string) :=
  pop ← Population_init 2048 float_0_8 float_0_1 float_0_3;
  main_loop fuel (seqZ 1 maxGenerations) pop [].

(** ** What a caller can do to a list it holds

    The in-place operations of Python lists, for the callers of the
    [population] property. *)

Inductive list_op :=
  | Append (c : Chromosome)              (* l.append(c) *)
  | SetItem (i : Z) (c : Chromosome)     (* l[i] = c *)
  | DelItem (i : Z)                      (* del l[i] *)
  | Pop                                  (* l.pop() *)
  | Reverse                              (* l.reverse() *)
  | Sort                                 (* l.sort(key=lambda x: x.fitness) *)
  | Clear.                               (* del l[:] *)

Definition apply_op (op : list_op) (l : list Chromosome)
  : M (list Chromosome) :=
  match op with
  | Append c => mret (l ++ [c])
  | SetItem i c => setitem l i c
  | DelItem i =>
      let i' := if i <? 0 then len l + i else i in
      if (0 <=? i') && (i' <? len l) then mret (delete (Z.to_nat i') l)
      else raise IndexError
  | Pop => match l with [] => raise IndexError | _ => mret (removelast l) end
  | Reverse => mret (reverse l)
  | Sort => mret (sorted _fitness l)
  | Clear => mret []
  end.

Definition store (r : loc) (l : list Chromosome) : M unit := λ w,
  match heap w !! r with
  | Some _ => Done () {| rng := rng w; heap := <[r := l]> (heap w) |}
  | None => Raise DanglingRef
  end.

(** The operation [op] on the list object [r], in place. *)
Definition list_mutate (r : loc) (op : list_op) : M unit :=
  l ← load r; l' ← apply_op op l; store r l'.

Definition list_mutates (r : loc) (ops : list list_op) : M unit :=
  for_each ops (λ op _, list_mutate r op) ().

(** * Specification vocabulary *)

(** [wp m w Q]: run from [w], [m] returns normally and [Q] holds of its
    result.  [wlp m w Q]: if [m] returns normally from [w], [Q] holds. *)
Definition wp {A} (m : M A) (w : World) (Q : A → World → Prop) : Prop :=
  match m w with
  | Done a w' => Q a w'
  | _ => False
  end.

Definition wlp {A} (m : M A) (w : World) (Q : A → World → Prop) : Prop :=
  match m w with
  | Done a w' => Q a w'
  | _ => True
  end.

(** [after w w']: [w'] is a later world than [w]: the same entropy tape,
    and every list object of [w] is in [w'] with the same items. *)
Definition after (w w' : World) : Prop :=
  tape (rng w') = tape (rng w) ∧ heap w ⊆ heap w'.

(** The world after [n] more draws. *)
Definition advance (n : nat) (w : World) : World :=
  {| rng := {| tape := tape (rng w); pos := (n + pos (rng w))%nat |};
     heap := heap w |}.

(** The raw value of the [k]-th next draw. *)
Definition peek (k : nat) (w : World) : N :=
  tape (rng w) (k + pos (rng w))%nat.

(** The order of the keys. *)
Definition key_le {A} (key : A → Z) (x y : A) : Prop := key x ≤ key y.

(** The list is non-decreasing in fitness. *)
Definition nondecreasing (ms : list Chromosome) : Prop :=
  ∀ i j a b, (i ≤ j)%nat → ms !! i = Some a → ms !! j = Some b →
             _fitness a ≤ _fitness b.

(** The fitness as the specification words it: the sum, over the positions
    both strings have, of the absolute difference of the character codes. *)
Definition code_at (s : list ascii) (i : nat) : Z :=
  ord (default zero (s !! i)).

Definition absdiff_sum (gene target : list ascii) : Z :=
  foldr Z.add 0
    ((λ i, Z.abs (code_at gene i - code_at target i))
       <$> seq 0 (length gene `min` length target)).

(** Candidates as the constructor builds them, of the length of the
    target. *)
Definition fitness_ok (c : Chromosome) : Prop :=
  _fitness c = _updateFitness (_gene c).

Definition wf_chromosome (c : Chromosome) : Prop :=
  length (_gene c) = length __target_gene ∧ fitness_ok c.

(** The children of a crossover at [pivot]. *)
Definition crossover_at (pivot : nat) (g1 g2 : list ascii) : list ascii :=
  take pivot g1 ++ drop pivot g2.

(** The number of positions at which two strings differ. *)
Definition diff_count (g1 g2 : list ascii) : nat :=
  length (filter (λ ab, fst ab ≠ snd ab) (zip g1 g2)).

Definition wf_members (ms : list Chromosome) : Prop :=
  Forall wf_chromosome ms.

(** The member list of a population in a world. *)
Definition members (self : Population) (w : World)
  : option (list Chromosome) :=
  heap w !! _population self.

(** The winner of a duel: the contender only when strictly fitter. *)
Definition pick (best cont : Chromosome) : Chromosome :=
  if _fitness cont <? _fitness best then cont else best.

(** The index into [ms] the [k]-th next draw stands for. *)
Definition draw_index (ms : list Chromosome) (k : nat) (w : World) : nat :=
  Z.to_nat (randint_of 0 (len ms - 1) (peek k w)).

(** The world a tournament leaves behind: four draws consumed, and the
    copy made by the accessor added to the store. *)
Definition tournament_world (ms : list Chromosome) (w : World) : World :=
  {| rng := rng (advance 4 w);
     heap := <[fresh (dom (heap w)) := ms]> (heap w) |}.

(** The invariant of the [while] loop of [evolve], started in world [w0]
    on the member list [ms] with the fill index at [idx0]: the population
    still holds [ms], the elite slice is a prefix of the buffer, the buffer
    grew at least as much as the index, and the buffer holds well-formed
    candidates if [ms] does. *)
Definition evolve_inv (self : Population) (w0 : World)
  (ms : list Chromosome) (idx0 : Z) (st : Z * list Chromosome) (w : World)
  : Prop :=
  after w0 w ∧ members self w = Some ms ∧
  slice ms 0 idx0 `prefix_of` st.2 ∧
  st.1 - idx0 ≤ len st.2 - len (slice ms 0 idx0) ∧
  (wf_members ms → wf_members st.2).

(** The crossover test of [evolve] succeeds on every draw the random
    source of [w] can produce. *)
Definition crossover_always (self : Population) (w : World) : Prop :=
  ∀ i, (random_of (tape (rng w) i) <= _crossover self)%Q.

(** The crossover test of [evolve] fails on every draw the random source
    of [w] can produce. *)
Definition crossover_never (self : Population) (w : World) : Prop :=
  ∀ i, (_crossover self < random_of (tape (rng w) i))%Q.

(** The call did not raise: it returned or is still running. *)
Definition no_raise {A} (o : outcome A) : Prop :=
  match o with
  | Raise _ => False
  | _ => True
  end.

(** A property of candidates that crossover and mutation keep. *)
Definition kept_by_variation (P : Chromosome → Prop) : Prop :=
  (∀ a b w c1 c2 w',
     P a → P b → mate a b w = Done (c1, c2) w' → P c1 ∧ P c2) ∧
  (∀ a w c w', P a → mutate a w = Done c w' → P c).

(** The sum [_updateFitness] computes, against any string. *)
Definition distance (g t : list ascii) : Z :=
  foldl fitness_step 0 (zip g t).

(** The character [genRandom] makes of a raw draw. *)
Definition random_char (raw : N) : ascii :=
  ascii_of_N (Z.to_N (randint_of 0 89 raw + 32)).

(** The candidates of the script: a gene as long as the target, of
    characters of codes up to 121, with the fitness of the gene stored. *)
Definition candidate_ok (c : Chromosome) : Prop :=
  wf_chromosome c ∧ Forall (λ a, ord a ≤ 121) (_gene c).

(** The populations a program can hold: built by the constructor, then
    evolved, while the rest of the program draws numbers, allocates lists
    and changes lists other than the population's own. *)
Inductive reachable : Population → World → Prop :=
  | reachable_init size c e m w self w' :
      Population_init size c e m w = Done self w' → reachable self w'
  | reachable_evolve fuel self w self' w' :
      reachable self w → evolve fuel self w = Done self' w' →
      reachable self' w'
  | reachable_frame self w w' :
      reachable self w → members self w' = members self w →
      reachable self w'.

(** The generations of the script's loop: [generations fuel pop w genes
    pop' w'] when one call of [evolve] per gene of [genes] leads from [pop]
    in [w] to [pop'] in [w'], each call made on a population whose best
    member, the first of its list, has that gene, in a world that differs
    from the one the generation started in by list objects added to the
    store. *)
Inductive generations (fuel : nat)
  : Population → World → list (list ascii) → Population → World → Prop :=
  | generations_nil pop w : generations fuel pop w [] pop w
  | generations_cons pop w w1 best ms pop1 w2 genes pop' w' :
      members pop w = Some (best :: ms) →
      after w w1 → rng w1 = rng w →
      evolve fuel pop w1 = Done pop1 w2 →
      generations fuel pop1 w2 genes pop' w' →
      generations fuel pop w (_gene best :: genes) pop' w'.

(** The next [2 * n] draws send [n] iterations of the fill loop down the
    non-crossover path without mutation: the draws of even rank are above
    the crossover rate, those of odd rank above the mutation rate. *)
Definition copies_only (self : Population) (w : World) (n : nat) : Prop :=
  ∀ i, (i < n)%nat →
    (_crossover self < random_of (peek (2 * i) w))%Q ∧
    (_mutation self < random_of (peek (2 * i + 1) w))%Q.

(** ** Sample worlds *)

(** The source that produces the raw draws [ds], then zeros. *)
Definition tape_of (ds : list N) : nat → N := λ i, default 0%N (ds !! i).

Definition draws_world (ds : list N) : World :=
  {| rng := {| tape := tape_of ds; pos := 0 |}; heap := ∅ |}.

Definition gene_of (s : string) : list ascii := list_ascii_of_string s.

Definition sample_members : list Chromosome :=
  [Chromosome_init (gene_of "Hello, world!");
   Chromosome_init (gene_of "Hello, worle!");
   Chromosome_init (gene_of "Jello, world!");
   Chromosome_init (gene_of "Hello, wprld#")].

Definition sample_world (t : nat → N) : World :=
  {| rng := {| tape := t; pos := 0 |};
     heap := {[ 1%positive := sample_members ]} |}.

(** A source whose draws are all the smallest, and one whose draws are
    all the largest. *)
Definition low_tape : nat → N := λ _, 0%N.
Definition high_tape : nat → N := λ _, (2 ^ 53 - 1)%N.

Definition sample_population : Population :=
  {| _elitism := 1 # 2; _mutation := 1 # 4; _crossover := 3 # 4;
     _population := 1%positive |}.

(** A population of one member with rates below zero. *)
Definition negative_population : Population :=
  {| _elitism := - 2 # 1; _mutation := 1 # 4; _crossover := - 1 # 1;
     _population := 1%positive |}.

Definition negative_world : World :=
  {| rng := {| tape := low_tape; pos := 0 |};
     heap := {[ 1%positive := [Chromosome_init __target_gene] ]} |}.

(** The floats [0.8999999999999999], the float before [0.9], and
    [1e308]. *)
Definition float_0_9_pred : Q := 2026619832316723 # 2251799813685248.
Definition float_1e308 : Q := inject_Z (5010420900022432 * 2 ^ 971).

(** A population of five members, for elitism rates at which the float
    product and the exact one round to different counts. *)
Definition five_members : list Chromosome :=
  sample_members ++ [Chromosome_init (gene_of "Hfllo, wprld#")].

Definition five_world (t : nat → N) : World :=
  {| rng := {| tape := t; pos := 0 |};
     heap := {[ 1%positive := five_members ]} |}.

Definition five_population (elitism crossover : Q) : Population :=
  {| _elitism := elitism; _mutation := 1 # 4; _crossover := crossover;
     _population := 1%positive |}.

(** * Reasoning principles *)

(** ** Outcomes of monadic code *)

Lemma wp_Done {A} (m : M A) w Q :
  wp m w Q ↔ ∃ a w', m w = Done a w' ∧ Q a w'.
Proof.
  unfold wp. destruct (m w) as [a w'| |]; split; try done.
  - eauto.
  - by intros (? & ? & [= -> ->] & ?).
  - by intros (? & ? & ? & ?).
  - by intros (? & ? & ? & ?).
Qed.

Lemma wlp_Done {A} (m : M A) w Q :
  wlp m w Q ↔ ∀ a w', m w = Done a w' → Q a w'.
Proof.
  unfold wlp. destruct (m w) as [a w'| |]; split; try done.
  - by intros ? ? ? [= -> ->].
  - eauto.
Qed.

Lemma wp_eq {A} (m : M A) w a w' (Q : A → World → Prop) :
  m w = Done a w' → Q a w' → wp m w Q.
Proof. unfold wp. by intros ->. Qed.

Lemma wp_wlp {A} (m : M A) w Q : wp m w Q → wlp m w Q.
Proof. unfold wp, wlp. by destruct (m w). Qed.

Lemma wp_ret {A} (a : A) w (Q : A → World → Prop) : Q a w → wp (mret a) w Q.
Proof. done. Qed.

Lemma wlp_ret {A} (a : A) w (Q : A → World → Prop) : Q a w → wlp (mret a) w Q.
Proof. done. Qed.

Lemma wp_bind {A B} (m : M A) (f : A → M B) w Q :
  wp m w (λ a w', wp (f a) w' Q) → wp (m ≫= f) w Q.
Proof. unfold wp, mbind, M_bind. by destruct (m w). Qed.

Lemma wlp_bind {A B} (m : M A) (f : A → M B) w Q :
  wlp m w (λ a w', wlp (f a) w' Q) → wlp (m ≫= f) w Q.
Proof. unfold wlp, mbind, M_bind. by destruct (m w). Qed.

Lemma wp_mono {A} (m : M A) w (Q Q' : A → World → Prop) :
  wp m w Q → (∀ a w', Q a w' → Q' a w') → wp m w Q'.
Proof. unfold wp. destruct (m w); eauto. Qed.

Lemma wlp_mono {A} (m : M A) w (Q Q' : A → World → Prop) :
  wlp m w Q → (∀ a w', Q a w' → Q' a w') → wlp m w Q'.
Proof. unfold wlp. destruct (m w); eauto. Qed.

Lemma wlp_raise {A} e w (Q : A → World → Prop) : wlp (raise e) w Q.
Proof. done. Qed.

Lemma bind_Done {A B} (m : M A) (f : A → M B) w a w' :
  m w = Done a w' → (m ≫= f) w = f a w'.
Proof. unfold mbind, M_bind. by intros ->. Qed.

Lemma bind_Raise {A B} (m : M A) (f : A → M B) w e :
  m w = Raise e → (m ≫= f) w = Raise e.
Proof. unfold mbind, M_bind. by intros ->. Qed.

Lemma bind_OutOfFuel {A B} (m : M A) (f : A → M B) w :
  m w = OutOfFuel → (m ≫= f) w = OutOfFuel.
Proof. unfold mbind, M_bind. by intros ->. Qed.

(** ** Loops *)

Lemma wlp_for_range {S} (I : S → World → Prop) n (body : S → M S) s w :
  I s w →
  (∀ s w, I s w → wlp (body s) w I) →
  wlp (for_range n body s) w I.
Proof.
  intros Hs Hbody. revert s w Hs.
  induction n as [|n IH]; intros s w Hs; simpl; [done|].
  apply wlp_bind. eapply wlp_mono; [by apply Hbody|]. eauto.
Qed.

Lemma wp_for_range {S} (I : S → World → Prop) n (body : S → M S) s w :
  I s w →
  (∀ s w, I s w → wp (body s) w I) →
  wp (for_range n body s) w I.
Proof.
  intros Hs Hbody. revert s w Hs.
  induction n as [|n IH]; intros s w Hs; simpl; [done|].
  apply wp_bind. eapply wp_mono; [by apply Hbody|]. eauto.
Qed.

Lemma wlp_while {S} (I : S → World → Prop) fuel cond (body : S → M S) s w :
  I s w →
  (∀ s w, I s w → cond s = true → wlp (body s) w I) →
  wlp (while fuel cond body s) w (λ s' w', I s' w' ∧ cond s' = false).
Proof.
  intros Hs Hbody. revert s w Hs.
  induction fuel as [|fuel IH]; intros s w Hs; simpl;
    destruct (cond s) eqn:Hc; try done.
  apply wlp_bind. eapply wlp_mono; [by apply Hbody|]. eauto.
Qed.

(** A loop whose body returns normally and decreases a variant returns
    normally, given as much fuel as the variant. *)
Lemma wp_while_variant {S} (I : S → World → Prop) (V : S → nat)
  cond (body : S → M S) :
  (∀ s w, I s w → cond s = true →
          wp (body s) w (λ s' w', I s' w' ∧ (V s' < V s)%nat)) →
  ∀ fuel s w, I s w → (V s ≤ fuel)%nat →
    wp (while fuel cond body s) w (λ s' w', I s' w' ∧ cond s' = false).
Proof.
  intros Hbody fuel. induction fuel as [|fuel IH]; intros s w Hs HV; simpl;
    destruct (cond s) eqn:Hc; try by apply wp_ret.
  - specialize (Hbody s w Hs Hc). apply wp_Done in Hbody
      as (s' & w' & _ & _ & Hlt). lia.
  - apply wp_bind. eapply wp_mono; [by apply Hbody|].
    intros s' w' [Hs' Hlt]. apply IH; [done|lia].
Qed.

(** A loop whose body always returns normally into a state where the guard
    holds again never exits: every amount of fuel is used up. *)
Lemma while_diverges {S} (I : S → World → Prop) cond (body : S → M S) :
  (∀ s w, I s w → cond s = true ∧ wp (body s) w I) →
  ∀ fuel s w, I s w → while fuel cond body s w = OutOfFuel.
Proof.
  intros Hbody fuel. induction fuel as [|fuel IH]; intros s w Hs;
    destruct (Hbody s w Hs) as [Hc Hwp]; simpl; rewrite Hc; [done|].
  apply wp_Done in Hwp as (s' & w' & Heq & Hs').
  rewrite (bind_Done _ _ _ _ _ Heq). by apply IH.
Qed.

(** ** Worlds *)

#[export] Instance after_preorder : PreOrder after.
Proof.
  split.
  - by intros w.
  - intros w1 w2 w3 [? ?] [? ?]. split; [congruence|]. by etrans.
Qed.

Lemma after_lookup w w' r l :
  after w w' → heap w !! r = Some l → heap w' !! r = Some l.
Proof. intros [_ Hsub] Hl. by eapply lookup_weaken. Qed.

Lemma after_advance n w : after w (advance n w).
Proof. done. Qed.

Lemma advance_0 w : advance 0 w = w.
Proof. by destruct w as [[]]. Qed.

Lemma advance_advance n m w : advance n (advance m w) = advance (n + m) w.
Proof. unfold advance. simpl. do 2 f_equal. lia. Qed.


(** * Python built-ins *)

Lemma slice_bound_nonneg n i : 0 ≤ i → slice_bound n i = Z.min i n.
Proof. unfold slice_bound. intros. destruct (i <? 0) eqn:E; lia. Qed.

Lemma slice_bound_neg n i : i < 0 → slice_bound n i = Z.max 0 (n + i).
Proof. unfold slice_bound. intros. destruct (i <? 0) eqn:E; lia. Qed.

Lemma slice_take {A} (l : list A) n :
  0 ≤ n → slice l 0 n = take (Z.to_nat n) l.
Proof.
  intros Hn. unfold slice, len. rewrite !slice_bound_nonneg by lia.
  rewrite (Z.min_l 0) by lia. rewrite Z.sub_0_r.
  change (drop (Z.to_nat 0) l) with l.
  destruct (decide (n ≤ Z.of_nat (length l))).
  - by rewrite Z.min_l by lia.
  - rewrite Z.min_r by lia. rewrite Nat2Z.id.
    rewrite !take_ge; [done|lia..].
Qed.

Lemma slice_take_neg {A} (l : list A) n :
  n < 0 → slice l 0 n = take (Z.to_nat (len l + n)) l.
Proof.
  intros Hn. unfold slice.
  rewrite (slice_bound_nonneg _ 0), (slice_bound_neg _ n) by lia.
  unfold len. rewrite (Z.min_l 0) by lia. rewrite Z.sub_0_r.
  change (drop (Z.to_nat 0) l) with l. f_equal. lia.
Qed.

Lemma slice_from_drop {A} (l : list A) n :
  0 ≤ n → slice_from l n = drop (Z.to_nat n) l.
Proof.
  intros Hn. unfold slice_from, len. rewrite slice_bound_nonneg by lia.
  destruct (decide (n ≤ Z.of_nat (length l))).
  - by rewrite Z.min_l by lia.
  - rewrite Z.min_r by lia. rewrite Nat2Z.id.
    rewrite !drop_ge; [done|lia..].
Qed.

Lemma slice_from_0 {A} (l : list A) : slice_from l 0 = l.
Proof. by rewrite slice_from_drop. Qed.

Lemma slice_prefix {A} (l : list A) n : slice l 0 n `prefix_of` l.
Proof.
  destruct (decide (0 ≤ n)).
  - rewrite slice_take by done. apply prefix_take.
  - rewrite slice_take_neg by lia. apply prefix_take.
Qed.

Lemma ord_range c : 0 ≤ ord c < 256.
Proof.
  unfold ord. pose proof (N_ascii_bounded c). lia.
Qed.

Lemma ord_inj c1 c2 : ord c1 = ord c2 → c1 = c2.
Proof.
  unfold ord. intros Heq. apply N2Z.inj in Heq.
  by rewrite <-(ascii_N_embedding c1), <-(ascii_N_embedding c2), Heq.
Qed.

Lemma ord_ascii_of n : 0 ≤ n < 256 → ord (ascii_of_N (Z.to_N n)) = n.
Proof.
  intros Hn. unfold ord. rewrite N_ascii_embedding by lia. lia.
Qed.

(** * The random source *)

Lemma draw_eq w : draw w = Done (peek 0 w) (advance 1 w).
Proof. done. Qed.

Lemma random_eq w : random w = Done (random_of (peek 0 w)) (advance 1 w).
Proof. done. Qed.

Lemma random_of_range raw : (0 <= random_of raw)%Q ∧ (random_of raw < 1)%Q.
Proof.
  unfold random_of, Qle, Qlt. simpl.
  pose proof (Z.mod_pos_bound (Z.of_N raw) (Z.pos two53)). lia.
Qed.

Lemma randint_of_range lo hi raw :
  lo ≤ hi → lo ≤ randint_of lo hi raw ≤ hi.
Proof.
  intros. unfold randint_of.
  pose proof (Z.mod_pos_bound (Z.of_N raw) (hi - lo + 1)). lia.
Qed.

(** Every integer of the range is drawn from some raw value. *)
Lemma randint_of_onto lo hi v :
  lo ≤ v ≤ hi → randint_of lo hi (Z.to_N (v - lo)) = v.
Proof.
  intros. unfold randint_of. rewrite Z2N.id by lia.
  rewrite Z.mod_small; lia.
Qed.

Lemma randint_eq lo hi w :
  lo ≤ hi →
  randint lo hi w = Done (randint_of lo hi (peek 0 w)) (advance 1 w).
Proof.
  intros. unfold randint. destruct (hi <? lo) eqn:E; [lia|done].
Qed.

Lemma randint_empty lo hi w : hi < lo → randint lo hi w = Raise ValueError.
Proof.
  intros. unfold randint. destruct (hi <? lo) eqn:E; [done|lia].
Qed.

Lemma wp_randint lo hi w :
  lo ≤ hi →
  wp (randint lo hi) w (λ v w',
    v = randint_of lo hi (peek 0 w) ∧ lo ≤ v ≤ hi ∧ w' = advance 1 w).
Proof.
  intros. unfold wp. rewrite randint_eq by done.
  split_and!; [done|by apply randint_of_range..|done].
Qed.

Lemma wlp_randint lo hi w :
  wlp (randint lo hi) w (λ v w', lo ≤ v ≤ hi ∧ w' = advance 1 w).
Proof.
  destruct (decide (lo ≤ hi)).
  - apply wp_wlp. eapply wp_mono; [by apply wp_randint|].
    by intros v w' (_ & ? & ?).
  - unfold wlp. by rewrite randint_empty by lia.
Qed.

Lemma wp_random w :
  wp random w (λ r w', r = random_of (peek 0 w) ∧ w' = advance 1 w).
Proof. done. Qed.

(** * Lists and characters *)

Lemma getitem_nonneg {A} (l : list A) i x w :
  0 ≤ i → l !! Z.to_nat i = Some x → getitem l i w = Done x w.
Proof.
  intros Hi Hx. unfold getitem.
  destruct (i <? 0) eqn:E; [lia|]. rewrite E. by rewrite Hx.
Qed.

Lemma getitem_neg {A} (l : list A) i x w :
  - len l ≤ i < 0 → l !! Z.to_nat (len l + i) = Some x →
  getitem l i w = Done x w.
Proof.
  intros Hi Hx. unfold getitem.
  destruct (i <? 0) eqn:E; [|lia].
  destruct (len l + i <? 0) eqn:E'; [lia|]. by rewrite Hx.
Qed.

Lemma getitem_low {A} (l : list A) i w :
  i < - len l → getitem l i w = Raise IndexError.
Proof.
  intros Hi. unfold getitem. unfold len in *.
  destruct (i <? 0) eqn:E; [|lia].
  by destruct (Z.of_nat (length l) + i <? 0) eqn:E'; [|lia].
Qed.

Lemma wlp_getitem {A} (l : list A) i w :
  wlp (getitem l i) w (λ x w', x ∈ l ∧ w' = w).
Proof.
  unfold wlp, getitem.
  destruct (_ <? 0); [done|].
  destruct (l !! _) eqn:E; [|done]. split; [|done].
  by eapply list_elem_of_lookup_2.
Qed.

(** Inside its range, [getitem] returns normally. *)
Lemma wp_getitem {A} (l : list A) i w :
  - len l ≤ i < len l →
  wp (getitem l i) w (λ x w', x ∈ l ∧ w' = w).
Proof.
  intros Hi. unfold len in *.
  destruct (decide (0 ≤ i)).
  - destruct (lookup_lt_is_Some_2 l (Z.to_nat i)) as [x Hx]; [lia|].
    unfold wp. rewrite (getitem_nonneg _ _ x) by done.
    split; [by eapply list_elem_of_lookup_2|done].
  - destruct (lookup_lt_is_Some_2 l (Z.to_nat (len l + i))) as [x Hx];
      [unfold len; lia|].
    unfold wp. rewrite (getitem_neg _ _ x) by (unfold len; done || lia).
    split; [by eapply list_elem_of_lookup_2|done].
Qed.

Lemma chr_eq n w :
  0 ≤ n < 256 → chr n w = Done (ascii_of_N (Z.to_N n)) w.
Proof.
  intros. unfold chr.
  destruct (0 <=? n) eqn:E1; [|lia]. by destruct (n <? 256) eqn:E2; [|lia].
Qed.

Lemma wlp_chr n w :
  wlp (chr n) w (λ c w', ord c = n ∧ w' = w).
Proof.
  unfold wlp, chr.
  destruct (0 <=? n) eqn:E1; [|done]. destruct (n <? 256) eqn:E2; [|done].
  simpl. split; [|done]. apply ord_ascii_of. lia.
Qed.

Lemma setitem_eq {A} (l : list A) i x w :
  0 ≤ i < len l → setitem l i x w = Done (<[Z.to_nat i := x]> l) w.
Proof.
  intros. unfold setitem.
  destruct (i <? 0) eqn:E; [lia|].
  destruct (0 <=? i) eqn:E1; [|lia]. by destruct (i <? len l) eqn:E2; [|lia].
Qed.

Lemma wlp_setitem {A} (l : list A) i x w :
  wlp (setitem l i x) w (λ l' w', length l' = length l ∧ w' = w).
Proof.
  unfold wlp, setitem. destruct (_ && _); [|done].
  simpl. by rewrite length_insert.
Qed.

(** * The list store *)

Lemma alloc_eq l w :
  alloc l w = Done (fresh (dom (heap w)))
                {| rng := rng w;
                   heap := <[fresh (dom (heap w)) := l]> (heap w) |}.
Proof. done. Qed.

Lemma fresh_heap (h : gmap positive (list Chromosome)) :
  h !! fresh (dom h) = None.
Proof. apply not_elem_of_dom, is_fresh. Qed.

Lemma wp_alloc l w :
  wp (alloc l) w (λ r w',
    heap w !! r = None ∧ heap w' = <[r := l]> (heap w) ∧ rng w' = rng w).
Proof. unfold wp. rewrite alloc_eq. simpl. split; [apply fresh_heap|done]. Qed.

Lemma alloc_after l w r w' :
  heap w !! r = None → heap w' = <[r := l]> (heap w) → rng w' = rng w →
  after w w' ∧ heap w' !! r = Some l.
Proof.
  intros Hr Hh Hrng. split_and!.
  - split; [by rewrite Hrng|]. rewrite Hh. by apply insert_subseteq.
  - rewrite Hh. apply lookup_insert_eq.
Qed.

Lemma load_eq r l w : heap w !! r = Some l → load r w = Done l w.
Proof. unfold load. by intros ->. Qed.

Lemma wlp_load r w :
  wlp (load r) w (λ l w', heap w !! r = Some l ∧ w' = w).
Proof. unfold wlp, load. by destruct (heap w !! r). Qed.

(** * Sorting *)

Section SortedFacts.
Context {A : Type} (key : A → Z).


Lemma insert_by_key_Permutation x l : insert_by_key key x l ≡ₚ x :: l.
Proof.
  induction l as [|y l IH]; simpl; [done|].
  destruct (key x <=? key y); [done|]. rewrite IH. apply Permutation_swap.
Qed.

Lemma sorted_Permutation l : sorted key l ≡ₚ l.
Proof.
  induction l as [|x l IH]; simpl; [done|].
  by rewrite insert_by_key_Permutation, IH.
Qed.

Lemma length_sorted l : length (sorted key l) = length l.
Proof. by rewrite sorted_Permutation. Qed.

Lemma insert_by_key_StronglySorted x l :
  StronglySorted (key_le key) l → StronglySorted (key_le key) (insert_by_key key x l).
Proof.
  induction 1 as [|y l Hl IH Hy]; simpl.
  - repeat constructor.
  - destruct (key x <=? key y) eqn:E.
    + constructor; [by constructor|].
      apply Z.leb_le in E. constructor; [done|].
      eapply Forall_impl; [done|]. unfold key_le. simpl. lia.
    + apply Z.leb_gt in E. constructor; [done|].
      rewrite insert_by_key_Permutation. constructor; [|done].
      unfold key_le. lia.
Qed.

Lemma sorted_StronglySorted l : StronglySorted (key_le key) (sorted key l).
Proof.
  induction l; simpl; [constructor|by apply insert_by_key_StronglySorted].
Qed.

Lemma StronglySorted_lookup l i j a b :
  StronglySorted (key_le key) l → (i ≤ j)%nat →
  l !! i = Some a → l !! j = Some b → key a ≤ key b.
Proof.
  intros Hl. revert i j. induction Hl as [|x l Hl IH Hx]; intros i j Hij Ha Hb.
  - done.
  - destruct i as [|i], j as [|j]; simplify_eq/=; try lia.
    + eapply Forall_forall in Hx; [apply Hx|]. by eapply list_elem_of_lookup_2.
    + eapply IH; [|done..]. lia.
Qed.

(** Stability: items of equal key keep their order. *)
Lemma insert_by_key_stable k x l :
  StronglySorted (key_le key) l →
  filter (λ y, key y = k) (insert_by_key key x l)
  = filter (λ y, key y = k) (x :: l).
Proof.
  induction 1 as [|y l Hl IH Hy]; simpl; [done|].
  destruct (key x <=? key y) eqn:E; [done|]. apply Z.leb_gt in E.
  rewrite !filter_cons. rewrite IH. rewrite filter_cons.
  destruct (decide (key y = k)), (decide (key x = k)); try done. lia.
Qed.

Lemma sorted_stable k l :
  filter (λ y, key y = k) (sorted key l) = filter (λ y, key y = k) l.
Proof.
  induction l as [|x l IH]; simpl; [done|].
  rewrite insert_by_key_stable by apply sorted_StronglySorted.
  by rewrite !filter_cons, IH.
Qed.

End SortedFacts.

Lemma sorted_nondecreasing buf : nondecreasing (sorted _fitness buf).
Proof.
  intros i j a b Hij Ha Hb.
  by eapply (StronglySorted_lookup _fitness), Hb; [apply sorted_StronglySorted|..].
Qed.

(** The first member of a non-decreasing list is a best one. *)
Lemma nondecreasing_head ms best c :
  nondecreasing ms → ms !! 0%nat = Some best → c ∈ ms →
  _fitness best ≤ _fitness c.
Proof.
  intros Hms Hbest [j Hj]%list_elem_of_lookup_1.
  eapply (Hms 0%nat j); [lia|done..].
Qed.

(** * Fitness *)

Section Fitness.

Lemma foldl_step_acc acc zs : foldl fitness_step acc zs = acc + foldl fitness_step 0 zs.
Proof.
  revert acc. induction zs as [|z zs IH]; intros acc; simpl; [lia|].
  rewrite (IH (fitness_step acc z)), (IH (fitness_step 0 z)). unfold fitness_step. lia.
Qed.

Lemma foldl_step_nonneg zs : 0 ≤ foldl fitness_step 0 zs.
Proof.
  induction zs as [|z zs IH]; simpl; [done|].
  rewrite foldl_step_acc. unfold fitness_step at 1. lia.
Qed.

Lemma foldl_step_absdiff_sum g t : foldl fitness_step 0 (zip g t) = absdiff_sum g t.
Proof.
  revert t. induction g as [|a g IH]; intros [|b t]; try done.
  simpl. rewrite foldl_step_acc, IH. unfold absdiff_sum. simpl.
  rewrite <-fmap_S_seq, <-list_fmap_compose. unfold fitness_step at 1. simpl.
  done.
Qed.

Lemma foldl_step_zero g t :
  length g = length t → foldl fitness_step 0 (zip g t) = 0 ↔ g = t.
Proof.
  revert t. induction g as [|a g IH]; intros [|b t] Hlen; try done.
  simpl in *. rewrite foldl_step_acc. unfold fitness_step at 1. simpl.
  pose proof (foldl_step_nonneg (zip g t)).
  specialize (IH t ltac:(lia)). split.
  - intros Hsum. assert (ord a = ord b) as ->%ord_inj by lia.
    f_equal. apply IH. lia.
  - intros [= -> ->]. destruct IH as [_ ->]; [lia|done].
Qed.

Lemma _updateFitness_absdiff_sum gene :
  _updateFitness gene = absdiff_sum gene __target_gene.
Proof. apply foldl_step_absdiff_sum. Qed.

Lemma _updateFitness_zero gene :
  length gene = length __target_gene →
  _updateFitness gene = 0 ↔ gene = __target_gene.
Proof. apply foldl_step_zero. Qed.

Lemma _updateFitness_nonneg gene : 0 ≤ _updateFitness gene.
Proof. apply foldl_step_nonneg. Qed.

End Fitness.

Lemma Chromosome_init_fitness_ok gene : fitness_ok (Chromosome_init gene).
Proof. done. Qed.

(** * Chromosome methods *)

Lemma peek_advance k n w : peek k (advance n w) = peek (k + n) w.
Proof. unfold peek, advance. simpl. f_equal. lia. Qed.

Lemma length_gene_len (c : Chromosome) :
  _gene c ≠ [] → 0 ≤ len (_gene c) - 1.
Proof. unfold len. destruct (_gene c); [done|]. simpl. lia. Qed.

(** [mate] at a non-empty gene: the pivot is the next draw, an index of
    [self.gene], the last one included. *)
Lemma mate_eq self other w :
  _gene self ≠ [] →
  let pivot := Z.to_nat (randint_of 0 (len (_gene self) - 1) (peek 0 w)) in
  mate self other w
  = Done (Chromosome_init (crossover_at pivot (_gene self) (_gene other)),
          Chromosome_init (crossover_at pivot (_gene other) (_gene self)))
         (advance 1 w).
Proof.
  intros Hne pivot. apply length_gene_len in Hne.
  pose proof (randint_of_range 0 _ (peek 0 w) Hne) as Hp.
  unfold mate. rewrite (bind_Done _ _ _ _ _ (randint_eq _ _ _ Hne)).
  rewrite !slice_take, !slice_from_drop by lia. done.
Qed.

Lemma mate_empty self other w :
  _gene self = [] → mate self other w = Raise ValueError.
Proof.
  intros Hg. unfold mate. apply bind_Raise, randint_empty.
  rewrite Hg. done.
Qed.

Lemma length_crossover_at pivot g1 g2 :
  length g1 = length g2 → length (crossover_at pivot g1 g2) = length g1.
Proof.
  intros Hlen. unfold crossover_at.
  rewrite length_app, length_take, length_drop. lia.
Qed.

Lemma wlp_mate self other w :
  wlp (mate self other) w (λ cs w',
    w' = advance 1 w ∧
    fitness_ok cs.1 ∧ fitness_ok cs.2 ∧
    (length (_gene self) = length (_gene other) →
     length (_gene cs.1) = length (_gene self) ∧
     length (_gene cs.2) = length (_gene self))).
Proof.
  unfold wlp. destruct (decide (_gene self = [])) as [Hg|Hg].
  - by rewrite mate_empty.
  - rewrite mate_eq by done. simpl. split_and!; try done.
    intros Hlen. by rewrite !length_crossover_at.
Qed.

(** [mutate] at a non-empty gene: [delta] is the next draw, the index the
    one after it. *)
Lemma mutate_eq self w :
  _gene self ≠ [] →
  let delta := randint_of 0 89 (peek 0 w) + 32 in
  let idx := Z.to_nat (randint_of 0 (len (_gene self) - 1) (peek 1 w)) in
  ∃ old, _gene self !! idx = Some old ∧
    mutate self w
    = Done (Chromosome_init
              (<[idx := ascii_of_N (Z.to_N ((ord old + delta) mod 122))]>
                 (_gene self)))
           (advance 2 w).
Proof.
  intros Hne delta idx. apply length_gene_len in Hne.
  pose proof (randint_of_range 0 _ (peek 1 w) Hne) as Hidx.
  destruct (lookup_lt_is_Some_2 (_gene self) idx) as [old Hold].
  { unfold len in *. subst idx. lia. }
  exists old. split; [done|].
  unfold mutate.
  rewrite (bind_Done _ _ _ _ _ (randint_eq 0 89 w ltac:(lia))).
  rewrite (bind_Done _ _ _ _ _ (randint_eq _ _ _ Hne)).
  change (peek 0 (advance 1 w)) with (peek 1 w).
  erewrite bind_Done by (apply getitem_nonneg; [lia|exact Hold]).
  pose proof (Z.mod_pos_bound (ord old + delta) 122 ltac:(lia)).
  erewrite bind_Done by (apply chr_eq; subst delta; lia).
  erewrite bind_Done by (apply setitem_eq; lia).
  by rewrite advance_advance.
Qed.

Lemma mutate_empty self w :
  _gene self = [] → mutate self w = Raise ValueError.
Proof.
  intros Hg. unfold mutate.
  rewrite (bind_Done _ _ _ _ _ (randint_eq 0 89 w ltac:(lia))).
  apply bind_Raise, randint_empty. rewrite Hg. done.
Qed.

Lemma wlp_mutate self w :
  wlp (mutate self) w (λ c w',
    w' = advance 2 w ∧ fitness_ok c ∧
    length (_gene c) = length (_gene self)).
Proof.
  unfold wlp. destruct (decide (_gene self = [])) as [Hg|Hg].
  - by rewrite mutate_empty.
  - destruct (mutate_eq self w Hg) as (old & _ & ->). simpl.
    by rewrite length_insert.
Qed.

Lemma wp_mutate self w :
  _gene self ≠ [] →
  wp (mutate self) w (λ c w',
    w' = advance 2 w ∧ fitness_ok c ∧
    length (_gene c) = length (_gene self)).
Proof.
  intros Hg. unfold wp.
  destruct (mutate_eq self w Hg) as (old & _ & ->). simpl.
  by rewrite length_insert.
Qed.

(** [genRandom] always returns, with a gene as long as the target and
    made of the characters of codes 32 to 121. *)
Lemma wp_genRandom w :
  wp genRandom w (λ c w',
    wf_chromosome c ∧ Forall (λ a, 32 ≤ ord a ≤ 121) (_gene c) ∧
    w' = advance (length __target_gene) w).
Proof.
  unfold genRandom. apply wp_bind.
  cut (∀ n gene w0,
    wp (for_range n
          (λ gene, r ← randint 0 89; c ← chr (r + 32); mret (gene ++ [c]))
          gene) w0
       (λ gene' w', ∃ new, gene' = gene ++ new ∧ length new = n ∧
          Forall (λ a, 32 ≤ ord a ≤ 121) new ∧ w' = advance n w0)).
  { intros Hloop. eapply wp_mono; [apply Hloop|].
    intros gene w' (new & -> & Hlen & Hall & ->). apply wp_ret.
    split_and!; done. }
  induction n as [|n IH]; intros gene w0; simpl.
  - apply wp_ret. exists []. by rewrite app_nil_r, advance_0.
  - do 2 apply wp_bind. eapply wp_mono; [by apply wp_randint|].
    intros r w1 (_ & Hr & ->). apply wp_bind.
    eapply wp_eq; [apply chr_eq; lia|]. apply wp_ret.
    eapply wp_mono; [apply IH|].
    intros gene' w' (new & -> & Hlen & Hall & ->).
    exists (ascii_of_N (Z.to_N (r + 32)) :: new).
    rewrite <-app_assoc. split_and!; simpl; try done.
    + by rewrite Hlen.
    + constructor; [|done]. rewrite ord_ascii_of; lia.
    + rewrite advance_advance. f_equal. lia.
Qed.

(** * Population: construction and accessor *)

Lemma wp_Population_init size c e m w :
  wp (Population_init size c e m) w (λ self w',
    after w w' ∧
    _crossover self = c ∧ _elitism self = e ∧ _mutation self = m ∧
    ∃ ms, members self w' = Some ms ∧ nondecreasing ms ∧
          length ms = Z.to_nat size ∧ wf_members ms).
Proof.
  unfold Population_init. apply wp_bind.
  cut (∀ n buf w0,
    wp (for_range n (λ buf, c ← genRandom; mret (buf ++ [c])) buf) w0
       (λ buf' w', ∃ new, buf' = buf ++ new ∧ length new = n ∧
          wf_members new ∧ after w0 w')).
  { intros Hloop. eapply wp_mono; [apply Hloop|].
    intros buf w1 (new & -> & Hlen & Hwf & Hafter). simpl.
    apply wp_bind. eapply wp_mono; [apply wp_alloc|].
    intros r w2 (Hr & Hh & Hrng). apply wp_ret.
    destruct (alloc_after _ _ _ _ Hr Hh Hrng) as [Hafter' Hl].
    split_and!; try done; [by etrans|].
    eexists. split; [exact Hl|]. split_and!.
    - apply sorted_nondecreasing.
    - by rewrite length_sorted.
    - unfold wf_members. by rewrite sorted_Permutation. }
  induction n as [|n IH]; intros buf w0; simpl.
  - apply wp_ret. exists []. rewrite app_nil_r.
    split_and!; [done|done|constructor|reflexivity].
  - do 2 apply wp_bind. eapply wp_mono; [apply wp_genRandom|].
    intros c0 w1 (Hc & _ & ->). apply wp_ret.
    eapply wp_mono; [apply IH|].
    intros buf' w' (new & -> & Hlen & Hwf & Hafter).
    exists (c0 :: new). rewrite <-app_assoc.
    split_and!; [done|by simpl; rewrite Hlen|by constructor|].
    etrans; [apply after_advance|done].
Qed.

Lemma fresh_ne (h : gmap positive (list Chromosome)) r l :
  h !! r = Some l → fresh (dom h) ≠ r.
Proof. intros Hr Heq. rewrite <-Heq, fresh_heap in Hr. done. Qed.

(** The accessor allocates a new list object with the items of the
    population's own. *)
Lemma population_eq self ms w :
  members self w = Some ms →
  population self w
  = Done (fresh (dom (heap w)))
         {| rng := rng w; heap := <[fresh (dom (heap w)) := ms]> (heap w) |}.
Proof.
  intros Hms. unfold population.
  rewrite (bind_Done _ _ _ _ _ (load_eq _ _ _ Hms)).
  by rewrite slice_from_0.
Qed.

Lemma wlp_population self w :
  wlp (population self) w (λ r w',
    after w w' ∧ rng w' = rng w ∧ r ≠ _population self ∧
    heap w' !! r = members self w ∧ members self w' = members self w).
Proof.
  unfold wlp. destruct (members self w) as [ms|] eqn:Hms.
  - rewrite (population_eq _ ms) by done.
    pose proof (fresh_ne _ _ _ Hms) as Hne. split_and!; try done.
    + split; [done|]. simpl. apply insert_subseteq, fresh_heap.
    + simpl. by rewrite lookup_insert_eq.
    + unfold members. simpl. by rewrite lookup_insert_ne.
  - unfold population. by rewrite (bind_Raise _ _ _ DanglingRef);
      [|unfold load; unfold members in Hms; rewrite Hms].
Qed.

(** * Tournament selection *)

Lemma draw_index_lt ms k w : ms ≠ [] → (draw_index ms k w < length ms)%nat.
Proof.
  intros Hne. unfold draw_index.
  assert (0 ≤ len ms - 1) as Hlen by (unfold len; destruct ms; [done|simpl; lia]).
  pose proof (randint_of_range 0 _ (peek k w) Hlen). unfold len in *. lia.
Qed.

Lemma tournament_round_eq self ms best w :
  members self w = Some ms → ms ≠ [] →
  ∃ cont, ms !! draw_index ms 0 w = Some cont ∧
    tournament_round self best w = Done (pick best cont) (advance 1 w).
Proof.
  intros Hms Hne.
  destruct (lookup_lt_is_Some_2 ms (draw_index ms 0 w)) as [cont Hcont];
    [by apply draw_index_lt|].
  exists cont. split; [done|].
  assert (0 ≤ len ms - 1) as Hlen by (unfold len; destruct ms; [done|simpl; lia]).
  pose proof (randint_of_range 0 _ (peek 0 w) Hlen).
  unfold tournament_round.
  rewrite (bind_Done _ _ _ _ _ (load_eq _ _ _ Hms)).
  rewrite (bind_Done _ _ _ _ _ (randint_eq _ _ _ Hlen)).
  erewrite bind_Done by (apply getitem_nonneg; [lia|exact Hcont]).
  done.
Qed.

Lemma members_tournament_world self ms w :
  members self w = Some ms → members self (tournament_world ms w) = Some ms.
Proof.
  intros Hms. unfold members, tournament_world. simpl.
  rewrite lookup_insert_ne; [done|]. by eapply fresh_ne.
Qed.

Lemma after_tournament_world ms w : after w (tournament_world ms w).
Proof. split; [done|]. simpl. apply insert_subseteq, fresh_heap. Qed.

(** The four candidates of a tournament sit at the indices the next four
    draws stand for; the survivor is the running best after three duels. *)
Lemma tournament_eq self ms w :
  members self w = Some ms → ms ≠ [] →
  ∃ c0 c1 c2 c3,
    ms !! draw_index ms 0 w = Some c0 ∧ ms !! draw_index ms 1 w = Some c1 ∧
    ms !! draw_index ms 2 w = Some c2 ∧ ms !! draw_index ms 3 w = Some c3 ∧
    __tournamentSelection self w
    = Done (pick (pick (pick c0 c1) c2) c3) (tournament_world ms w).
Proof.
  intros Hms Hne.
  set (w1 := {| rng := rng w;
                heap := <[fresh (dom (heap w)) := ms]> (heap w) |}).
  assert (members self w1 = Some ms) as Hms1.
  { unfold members. simpl. rewrite lookup_insert_ne; [done|]. by eapply fresh_ne. }
  destruct (lookup_lt_is_Some_2 ms (draw_index ms 0 w)) as [c0 Hc0];
    [by apply draw_index_lt|].
  assert (0 ≤ len ms - 1) as Hlen by (unfold len; destruct ms; [done|simpl; lia]).
  pose proof (randint_of_range 0 _ (peek 0 w) Hlen).
  destruct (tournament_round_eq self ms c0 (advance 1 w1) Hms1 Hne)
    as (c1 & Hc1 & Hr1).
  destruct (tournament_round_eq self ms (pick c0 c1) (advance 2 w1) Hms1 Hne)
    as (c2 & Hc2 & Hr2).
  destruct (tournament_round_eq self ms (pick (pick c0 c1) c2)
              (advance 3 w1) Hms1 Hne) as (c3 & Hc3 & Hr3).
  exists c0, c1, c2, c3. split_and!; try done.
  unfold __tournamentSelection.
  rewrite (bind_Done _ _ _ _ _ (population_eq _ _ _ Hms)). fold w1.
  erewrite bind_Done by (apply load_eq; simpl; apply lookup_insert_eq).
  rewrite (bind_Done _ _ _ _ _ (load_eq _ _ _ Hms1)).
  rewrite (bind_Done _ _ _ _ _ (randint_eq _ _ _ Hlen)).
  change (peek 0 w1) with (peek 0 w).
  erewrite bind_Done by (apply getitem_nonneg; [lia|exact Hc0]).
  rewrite advance_advance in Hr1, Hr2, Hr3. simpl.
  rewrite (bind_Done _ _ _ _ _ Hr1).
  rewrite (bind_Done _ _ _ _ _ Hr2).
  rewrite (bind_Done _ _ _ _ _ Hr3).
  done.
Qed.

Lemma tournament_dangling self w :
  members self w = None → __tournamentSelection self w = Raise DanglingRef.
Proof.
  intros Hms. unfold __tournamentSelection, population.
  do 2 apply bind_Raise. unfold load. unfold members in Hms. by rewrite Hms.
Qed.

Lemma tournament_empty self w :
  members self w = Some [] → __tournamentSelection self w = Raise ValueError.
Proof.
  intros Hms. unfold __tournamentSelection.
  rewrite (bind_Done _ _ _ _ _ (population_eq _ _ _ Hms)).
  erewrite bind_Done by (apply load_eq; simpl; apply lookup_insert_eq).
  erewrite bind_Done.
  2:{ apply load_eq. simpl. rewrite lookup_insert_ne; [exact Hms|].
      by eapply fresh_ne. }
  by apply bind_Raise, randint_empty.
Qed.

Lemma pick_cases best cont : pick best cont = best ∨ pick best cont = cont.
Proof. unfold pick. destruct (_ <? _); auto. Qed.

Lemma pick_fitness best cont :
  _fitness (pick best cont) = _fitness best `min` _fitness cont.
Proof.
  unfold pick. destruct (_fitness cont <? _fitness best) eqn:E; lia.
Qed.

Lemma wlp_tournament self w :
  wlp (__tournamentSelection self) w (λ c w',
    after w w' ∧ members self w' = members self w ∧
    ∀ ms, members self w = Some ms → c ∈ ms).
Proof.
  unfold wlp. destruct (members self w) as [ms|] eqn:Hms.
  - destruct (decide (ms = [])) as [->|Hne]; [by rewrite tournament_empty|].
    destruct (tournament_eq self ms w Hms Hne)
      as (c0 & c1 & c2 & c3 & H0 & H1 & H2 & H3 & ->).
    split_and!.
    + apply after_tournament_world.
    + by apply members_tournament_world.
    + intros ? [= <-].
      apply list_elem_of_lookup_2 in H0, H1, H2, H3.
      destruct (pick_cases (pick (pick c0 c1) c2) c3) as [-> | ->]; [|done].
      destruct (pick_cases (pick c0 c1) c2) as [-> | ->]; [|done].
      by destruct (pick_cases c0 c1) as [-> | ->].
  - by rewrite tournament_dangling.
Qed.

Lemma wlp_selectParents self w :
  wlp (__selectParents self) w (λ ps w',
    after w w' ∧ members self w' = members self w ∧
    ∀ ms, members self w = Some ms → ps.1 ∈ ms ∧ ps.2 ∈ ms).
Proof.
  unfold __selectParents. apply wlp_bind.
  eapply wlp_mono; [apply wlp_tournament|].
  intros p1 w1 (Hafter1 & Hms1 & Hp1). apply wlp_bind.
  eapply wlp_mono; [apply wlp_tournament|].
  intros p2 w2 (Hafter2 & Hms2 & Hp2). apply wlp_ret.
  split_and!; [by etrans|congruence|].
  intros ms Hms. split; [by apply Hp1|]. apply Hp2. congruence.
Qed.

Lemma selectParents_eq self ms w :
  members self w = Some ms → ms ≠ [] →
  ∃ p1 p2,
    __tournamentSelection self w = Done p1 (tournament_world ms w) ∧
    __tournamentSelection self (tournament_world ms w)
    = Done p2 (tournament_world ms (tournament_world ms w)) ∧
    __selectParents self w
    = Done (p1, p2) (tournament_world ms (tournament_world ms w)).
Proof.
  intros Hms Hne.
  destruct (tournament_eq self ms w Hms Hne)
    as (a0 & a1 & a2 & a3 & _ & _ & _ & _ & Ha).
  pose proof (members_tournament_world _ _ _ Hms) as Hms'.
  destruct (tournament_eq self ms _ Hms' Hne)
    as (b0 & b1 & b2 & b3 & _ & _ & _ & _ & Hb).
  eexists _, _. split_and!; [exact Ha|exact Hb|].
  unfold __selectParents.
  rewrite (bind_Done _ _ _ _ _ Ha). by rewrite (bind_Done _ _ _ _ _ Hb).
Qed.

(** * One generation *)

Lemma wlp_append_child self c buf w :
  wlp (append_child self c buf) w (λ buf' w',
    after w w' ∧ members self w' = members self w ∧
    ∃ m, buf' = buf ++ [m] ∧ (wf_chromosome c → wf_chromosome m)).
Proof.
  unfold append_child. apply wlp_bind, wp_wlp.
  eapply wp_mono; [apply wp_random|]. intros r w1 (_ & ->).
  destruct (Qle_bool r (_mutation self)).
  - apply wlp_bind. eapply wlp_mono; [apply wlp_mutate|].
    intros m w2 (-> & Hok & Hlen). apply wlp_ret.
    split_and!; [by rewrite advance_advance|done|].
    exists m. split; [done|]. intros [Hc _]. split; [congruence|done].
  - apply wlp_ret. split_and!; [done|done|]. by exists c.
Qed.

Lemma wf_members_snoc buf c :
  wf_members buf → wf_chromosome c → wf_members (buf ++ [c]).
Proof. intros. apply Forall_app. split; [done|by constructor]. Qed.

Lemma wf_members_elem_of ms c : wf_members ms → c ∈ ms → wf_chromosome c.
Proof. intros Hms Hc. by eapply Forall_forall in Hms. Qed.

Lemma len_snoc {A} (l : list A) x : len (l ++ [x]) = len l + 1.
Proof. unfold len. rewrite length_app. simpl. lia. Qed.

(** The loop body preserves the invariant, on both paths. *)
Lemma wlp_evolve_body self w0 ms idx0 st w :
  evolve_inv self w0 ms idx0 st w →
  wlp (evolve_body self st) w (evolve_inv self w0 ms idx0).
Proof.
  destruct st as [idx buf]. intros (Hafter & Hms & Hpre & Hidx & Hwf).
  simpl in *. unfold evolve_body.
  apply wlp_bind, wp_wlp. eapply wp_mono; [apply wp_random|].
  intros r w1 (_ & ->).
  destruct (Qle_bool r (_crossover self)).
  - apply wlp_bind. eapply wlp_mono; [apply wlp_selectParents|].
    intros [p1 p2] w2 (Hafter2 & Hms2 & Hps). simpl in Hps.
    destruct (Hps ms Hms) as [Hp1 Hp2].
    apply wlp_bind. eapply wlp_mono; [apply wlp_mate|].
    intros [c1 c2] w3 (-> & Hok1 & Hok2 & Hlen). simpl in *.
    apply wlp_bind. apply wlp_bind.
    eapply wlp_mono; [apply wlp_append_child|].
    intros buf1 w4 (Hafter4 & Hms4 & m1 & -> & Hm1).
    apply wlp_bind. eapply wlp_mono; [apply wlp_append_child|].
    intros buf2 w5 (Hafter5 & Hms5 & m2 & -> & Hm2).
    do 2 apply wlp_ret. unfold evolve_inv. simpl. split_and!.
    + etrans; [exact Hafter|]. etrans; [apply (after_advance 1)|].
      etrans; [exact Hafter2|]. etrans; [apply (after_advance 1)|].
      by etrans.
    + rewrite Hms5, Hms4. unfold members in *. simpl in *. congruence.
    + by do 2 apply prefix_app_r.
    + rewrite !len_snoc. lia.
    + intros Hwfms. specialize (Hwf Hwfms).
      destruct (wf_members_elem_of _ _ Hwfms Hp1) as [Hl1 _].
      destruct (wf_members_elem_of _ _ Hwfms Hp2) as [Hl2 _].
      destruct Hlen as [Hlen1 Hlen2]; [congruence|].
      apply wf_members_snoc; [apply wf_members_snoc; [done|]|].
      * apply Hm1. split; [congruence|done].
      * apply Hm2. split; [congruence|done].
  - apply wlp_bind, wp_wlp. eapply wp_mono; [apply wp_random|].
    intros r' w2 (_ & ->).
    assert (after w0 (advance 1 (advance 1 w))) as Hafter2.
    { etrans; [exact Hafter|]. rewrite advance_advance. apply after_advance. }
    destruct (Qle_bool r' (_mutation self)).
    + apply wlp_bind. eapply wlp_mono; [apply wlp_load|].
      intros own w3 (Hown & ->). apply wlp_bind.
      eapply wlp_mono; [apply wlp_getitem|]. intros c w3 (Hc & ->).
      apply wlp_bind. eapply wlp_mono; [apply wlp_mutate|].
      intros m w3 (-> & Hok & Hlen). apply wlp_ret.
      assert (own = ms) as -> by (unfold members in *; simpl in *; congruence).
      unfold evolve_inv. simpl. split_and!.
      * etrans; [exact Hafter2|]. apply after_advance.
      * done.
      * by apply prefix_app_r.
      * rewrite len_snoc. lia.
      * intros Hwfms. apply wf_members_snoc; [by apply Hwf|].
        destruct (wf_members_elem_of _ _ Hwfms Hc) as [Hl _].
        split; [congruence|done].
    + apply wlp_bind. eapply wlp_mono; [apply wlp_load|].
      intros own w3 (Hown & ->). apply wlp_bind.
      eapply wlp_mono; [apply wlp_getitem|]. intros c w3 (Hc & ->).
      apply wlp_ret.
      assert (own = ms) as -> by (unfold members in *; simpl in *; congruence).
      unfold evolve_inv. simpl. split_and!.
      * done.
      * done.
      * by apply prefix_app_r.
      * rewrite len_snoc. lia.
      * intros Hwfms. apply wf_members_snoc; [by apply Hwf|].
        by eapply wf_members_elem_of.
Qed.

Lemma len_slice {A} (l : list A) k :
  len (slice l 0 k)
  = if k <? 0 then Z.max 0 (len l + k) else Z.min k (len l).
Proof.
  destruct (k <? 0) eqn:E.
  - rewrite slice_take_neg by lia. unfold len. rewrite length_take. lia.
  - rewrite slice_take by lia. unfold len. rewrite length_take. lia.
Qed.

Lemma wf_members_prefix buf ms :
  buf `prefix_of` ms → wf_members ms → wf_members buf.
Proof. intros [tl ->] Hms. by apply Forall_app in Hms as [? _]. Qed.

(** What a call of [evolve] that returns leaves behind: the rates are
    kept, and the new member list is the sorted first [size] items of a
    buffer that starts with the elite slice of the old list. *)
Lemma wlp_evolve fuel self w :
  wlp (evolve fuel self) w (λ self' w',
    after w w' ∧
    _elitism self' = _elitism self ∧ _mutation self' = _mutation self ∧
    _crossover self' = _crossover self ∧
    ∃ ms k buf,
      members self w = Some ms ∧
      elite_count (len ms) (_elitism self) = Some k ∧
      slice ms 0 k `prefix_of` buf ∧
      (length ms ≤ length buf)%nat ∧
      (wf_members ms → wf_members buf) ∧
      members self' w' = Some (sorted _fitness (take (length ms) buf))).
Proof.
  unfold evolve. apply wlp_bind. eapply wlp_mono; [apply wlp_load|].
  intros own w1 (Hown & ->).
  destruct (elite_count (len own) (_elitism self)) as [idx0|] eqn:Hk;
    [|apply wlp_bind, wlp_raise].
  apply wlp_bind, wlp_ret. apply wlp_bind.
  eapply wlp_mono.
  { apply (wlp_while (evolve_inv self w own idx0)).
    - unfold evolve_inv. simpl. split_and!; [done|done|done|lia|].
      apply wf_members_prefix, slice_prefix.
    - intros st w' Hinv _. by apply wlp_evolve_body. }
  intros [idx buf] w2 [(Hafter & Hms & Hpre & Hidx & Hwf) Hexit].
  simpl in *. apply Z.ltb_ge in Hexit.
  apply wlp_bind, wp_wlp. eapply wp_mono; [apply wp_alloc|].
  intros r w3 (Hr & Hh & Hrng). apply wlp_ret.
  destruct (alloc_after _ _ _ _ Hr Hh Hrng) as [Hafter' Hl].
  split_and!; [by etrans|done..|].
  exists own, idx0, buf. split_and!; [done|done|done| |done|].
  - apply prefix_length in Hpre. rewrite len_slice in Hidx.
    unfold len in *.
    assert (Z.of_nat (length (slice own 0 idx0))
            = if idx0 <? 0 then Z.max 0 (Z.of_nat (length own) + idx0)
              else Z.min idx0 (Z.of_nat (length own))) as Hl0
      by apply (len_slice own idx0).
    destruct (idx0 <? 0) eqn:E; lia.
  - unfold members. simpl. rewrite Hl. do 2 f_equal.
    rewrite slice_take by (unfold len; lia). unfold len. by rewrite Nat2Z.id.
Qed.

(** * Candidates: fitness, mutation, crossover *)

(** C3: the fitness a candidate stores at construction is the sum, over the
    positions the gene shares with the target, of the absolute differences
    of the character codes; for a gene as long as the target it is 0
    exactly when the gene is the target. *)
Theorem fitness_is_distance_to_target (gene : list ascii) :
  _fitness (Chromosome_init gene) = absdiff_sum gene __target_gene ∧
  (length gene = length __target_gene →
   _fitness (Chromosome_init gene) = 0 ↔ gene = __target_gene).
Proof.
  split.
  - apply _updateFitness_absdiff_sum.
  - apply _updateFitness_zero.
Qed.

Lemma fitness_is_distance_to_target_witness :
  _fitness (Chromosome_init (gene_of "Hello, world!")) = 0 ∧
  _fitness (Chromosome_init (gene_of "Hello, worle!")) ≠ 0.
Proof.
  split.
  - apply (proj2 (fitness_is_distance_to_target (gene_of "Hello, world!"))
             eq_refl).
    reflexivity.
  - intros H0.
    apply (proj2 (fitness_is_distance_to_target (gene_of "Hello, worle!"))
             eq_refl) in H0.
    discriminate H0.
Defined.

Lemma diff_count_cons a b g1 g2 :
  diff_count (a :: g1) (b :: g2)
  = ((if decide (a = b) then 0 else 1) + diff_count g1 g2)%nat.
Proof.
  unfold diff_count. simpl. rewrite filter_cons. simpl.
  by destruct (decide (a ≠ b)), (decide (a = b)).
Qed.

Lemma diff_count_refl g : diff_count g g = 0%nat.
Proof.
  induction g as [|a g IH]; [done|].
  rewrite diff_count_cons, IH. by destruct (decide (a = a)).
Qed.

Lemma diff_count_insert g i x : (diff_count g (<[i := x]> g) ≤ 1)%nat.
Proof.
  revert i. induction g as [|a g IH]; intros i; [cbv; lia|].
  destruct i as [|i]; simpl; rewrite diff_count_cons.
  - rewrite diff_count_refl. destruct (decide (a = x)); lia.
  - specialize (IH i). destruct (decide (a = a)); [lia|done].
Qed.

(** C7: on a non-empty gene [mutate] returns a new candidate whose gene is
    the old one with the character at one drawn index [idx] replaced by the
    character of code [(ord old + delta) mod 122], [delta] drawn from
    [32, 121]; the two genes differ in at most one position; and every index
    and every [delta] of these ranges is drawn from some source. *)
Theorem mutate_changes_one_position (self : Chromosome) :
  _gene self ≠ [] →
  (∀ w, ∃ (idx : nat) (delta : Z) (old new : ascii) (c' : Chromosome),
     mutate self w = Done c' (advance 2 w) ∧
     delta = randint_of 0 89 (peek 0 w) + 32 ∧ 32 ≤ delta ≤ 121 ∧
     idx = Z.to_nat (randint_of 0 (len (_gene self) - 1) (peek 1 w)) ∧
     (idx < length (_gene self))%nat ∧
     _gene self !! idx = Some old ∧
     ord new = (ord old + delta) `mod` 122 ∧
     _gene c' = <[idx := new]> (_gene self) ∧
     _fitness c' = _updateFitness (_gene c') ∧
     length (_gene c') = length (_gene self) ∧
     (∀ j, j ≠ idx → _gene c' !! j = _gene self !! j) ∧
     (diff_count (_gene self) (_gene c') ≤ 1)%nat) ∧
  (∀ (idx : nat) (delta : Z),
     (idx < length (_gene self))%nat → 32 ≤ delta ≤ 121 →
     ∃ w, randint_of 0 89 (peek 0 w) + 32 = delta ∧
          Z.to_nat (randint_of 0 (len (_gene self) - 1) (peek 1 w)) = idx).
Proof.
  intros Hne. split.
  - intros w. destruct (mutate_eq self w Hne) as (old & Hold & Hrun).
    pose proof (length_gene_len _ Hne) as Hlen.
    pose proof (randint_of_range 0 89 (peek 0 w) ltac:(lia)) as Hd.
    pose proof (randint_of_range 0 _ (peek 1 w) Hlen) as Hi.
    pose proof (Z.mod_pos_bound
                  (ord old + (randint_of 0 89 (peek 0 w) + 32)) 122
                  ltac:(lia)) as Hm.
    eexists _, _, old, _, _. split; [exact Hrun|]. simpl.
    split_and!; try done; try lia.
    + by eapply lookup_lt_Some.
    + apply ord_ascii_of. lia.
    + by rewrite length_insert.
    + intros j Hj. by rewrite list_lookup_insert_ne.
    + apply diff_count_insert.
  - intros idx delta Hidx Hdelta.
    exists (draws_world [Z.to_N (delta - 32); N.of_nat idx]).
    unfold peek, draws_world, tape_of, randint_of, len. simpl. split.
    + rewrite Z2N.id by lia. rewrite Z.mod_small by lia. lia.
    + rewrite nat_N_Z. rewrite Z.mod_small by lia. lia.
Qed.

Lemma mutate_changes_one_position_witness :
  ∃ c', mutate (Chromosome_init (gene_of "Hello, world!"))
          (draws_world [5%N; 0%N]) = Done c' (advance 2 (draws_world [5%N; 0%N]))
        ∧ _gene c' = gene_of "mello, world!".
Proof.
  destruct (proj1 (mutate_changes_one_position
                     (Chromosome_init (gene_of "Hello, world!"))
                     ltac:(discriminate))
              (draws_world [5%N; 0%N]))
    as (idx & delta & old & new & c' & Hrun & Hdelta & _ & Hidx & _ & Hold
        & Hnew & Hgene & _).
  exists c'. split; [exact Hrun|].
  vm_compute in Hdelta, Hidx. subst idx delta.
  vm_compute in Hold. injection Hold as <-.
  assert (new = "m"%char) as ->
    by (apply ord_inj; rewrite Hnew; reflexivity).
  rewrite Hgene. reflexivity.
Defined.

(** C2, as the code has it: for two candidates with genes of one length
    [L >= 2], [mate] draws its pivot from the indices [0 .. L-1], the last
    one included, and returns the two children
    [self.gene[0:pivot] + other.gene[pivot:]] and
    [other.gene[0:pivot] + self.gene[pivot:]], each of length [L]; every
    pivot of [0 .. L-1] is drawn from some source.  At pivot 0 the children
    are the two parents' genes, swapped. *)
Theorem mate_single_point_crossover (self other : Chromosome) :
  length (_gene self) = length (_gene other) →
  (2 ≤ length (_gene self))%nat →
  (∀ w, ∃ (pivot : nat) (c1 c2 : Chromosome),
     mate self other w = Done (c1, c2) (advance 1 w) ∧
     pivot = Z.to_nat (randint_of 0 (len (_gene self) - 1) (peek 0 w)) ∧
     (pivot ≤ length (_gene self) - 1)%nat ∧
     _gene c1 = take pivot (_gene self) ++ drop pivot (_gene other) ∧
     _gene c2 = take pivot (_gene other) ++ drop pivot (_gene self) ∧
     length (_gene c1) = length (_gene self) ∧
     length (_gene c2) = length (_gene self) ∧
     _fitness c1 = _updateFitness (_gene c1) ∧
     _fitness c2 = _updateFitness (_gene c2)) ∧
  (∀ pivot : nat, (pivot ≤ length (_gene self) - 1)%nat →
     ∃ w, Z.to_nat (randint_of 0 (len (_gene self) - 1) (peek 0 w)) = pivot) ∧
  (∀ w, randint_of 0 (len (_gene self) - 1) (peek 0 w) = 0 →
     ∃ c1 c2, mate self other w = Done (c1, c2) (advance 1 w) ∧
              _gene c1 = _gene other ∧ _gene c2 = _gene self).
Proof.
  intros Hlen HL.
  assert (_gene self ≠ []) as Hne by (destruct (_gene self); [simpl in HL; lia|done]).
  pose proof (length_gene_len _ Hne) as Hlen'.
  split_and!.
  - intros w. pose proof (randint_of_range 0 _ (peek 0 w) Hlen') as Hp.
    eexists _, _, _. split; [by apply mate_eq|].
    change (_gene (Chromosome_init ?g)) with g.
    split_and!; try done.
    + unfold len in *. lia.
    + by apply length_crossover_at.
    + rewrite length_crossover_at; done.
  - intros pivot Hpivot. exists (draws_world [N.of_nat pivot]).
    unfold peek, draws_world, tape_of, randint_of, len. simpl.
    rewrite nat_N_Z. rewrite Z.mod_small by lia. lia.
  - intros w Hzero. eexists _, _. split; [by apply mate_eq|].
    rewrite Hzero. simpl. unfold crossover_at. by rewrite !take_0, !drop_0.
Qed.

Lemma mate_single_point_crossover_witness :
  ∃ c1 c2, mate (Chromosome_init (gene_of "abc")) (Chromosome_init (gene_of "xyz"))
             (draws_world [1%N])
           = Done (c1, c2) (advance 1 (draws_world [1%N])) ∧
           _gene c1 = gene_of "ayz" ∧ _gene c2 = gene_of "xbc".
Proof.
  destruct (proj1 (mate_single_point_crossover
                     (Chromosome_init (gene_of "abc"))
                     (Chromosome_init (gene_of "xyz"))
                     eq_refl ltac:(simpl; lia))
              (draws_world [1%N]))
    as (pivot & c1 & c2 & Hrun & Hpivot & _ & Hc1 & Hc2 & _).
  exists c1, c2. split; [exact Hrun|].
  vm_compute in Hpivot. subst pivot. by rewrite Hc1, Hc2.
Defined.

(** C2 fails as stated: the pivot is not kept inside [[1, L-1]], nor below
    the last index.  With genes "abc" and "xyz" ([L = 3]) a source whose
    next draw is 0 gives pivot 0 and the children "xyz" and "abc": no
    character of [self] reaches the first child, which is no crossover at a
    pivot of [[1, L-1]]; and a source whose next draw is 2 gives pivot
    [2 = L-1], the last index, and the children "abz" and "xyc", which no
    pivot below the last index produces. *)
Lemma mate_pivot_reaches_both_ends :
  let self := Chromosome_init (gene_of "abc") in
  let other := Chromosome_init (gene_of "xyz") in
  (mate self other (draws_world [0%N])
   = Done (Chromosome_init (gene_of "xyz"), Chromosome_init (gene_of "abc"))
          (advance 1 (draws_world [0%N])) ∧
   ∀ pivot, (1 ≤ pivot ≤ 2)%nat →
     crossover_at pivot (_gene self) (_gene other) ≠ gene_of "xyz") ∧
  (mate self other (draws_world [2%N])
   = Done (Chromosome_init (gene_of "abz"), Chromosome_init (gene_of "xyc"))
          (advance 1 (draws_world [2%N])) ∧
   randint_of 0 (len (_gene self) - 1) (peek 0 (draws_world [2%N])) = 2 ∧
   ∀ pivot, (pivot < 2)%nat →
     crossover_at pivot (_gene self) (_gene other) ≠ gene_of "abz").
Proof.
  split_and!; try reflexivity.
  - intros pivot Hp.
    destruct pivot as [|[|[|?]]]; try lia; discriminate.
  - intros pivot Hp.
    destruct pivot as [|[|?]]; try lia; discriminate.
Qed.

(** * Selection *)

(** C8: on a non-empty population the tournament reads four members, at
    the indices its next four draws stand for (so with replacement): the
    first is the running best, each of the three others replaces it when
    strictly fitter, and the survivor is returned, of minimal fitness among
    the four; parent selection is two tournaments run one after the other
    on the following draws, and nothing keeps the two parents apart. *)
Theorem tournament_selection_spec (self : Population)
  (ms : list Chromosome) (w : World) :
  members self w = Some ms → ms ≠ [] →
  (∃ c0 c1 c2 c3 best,
     ms !! draw_index ms 0 w = Some c0 ∧ ms !! draw_index ms 1 w = Some c1 ∧
     ms !! draw_index ms 2 w = Some c2 ∧ ms !! draw_index ms 3 w = Some c3 ∧
     __tournamentSelection self w = Done best (tournament_world ms w) ∧
     best = pick (pick (pick c0 c1) c2) c3 ∧
     best ∈ [c0; c1; c2; c3] ∧ best ∈ ms ∧
     _fitness best
     = Z.min (Z.min (Z.min (_fitness c0) (_fitness c1)) (_fitness c2))
             (_fitness c3)) ∧
  (∃ p1 p2 w1 w2,
     __tournamentSelection self w = Done p1 w1 ∧
     __tournamentSelection self w1 = Done p2 w2 ∧
     pos (rng w1) = (4 + pos (rng w))%nat ∧
     __selectParents self w = Done (p1, p2) w2) ∧
  (∀ i, (i < length ms)%nat →
     ∃ w0 p w0', members self w0 = Some ms ∧ ms !! i = Some p ∧
                 __selectParents self w0 = Done (p, p) w0').
Proof.
  intros Hms Hne. split_and!.
  - destruct (tournament_eq self ms w Hms Hne)
      as (c0 & c1 & c2 & c3 & H0 & H1 & H2 & H3 & Hrun).
    exists c0, c1, c2, c3, (pick (pick (pick c0 c1) c2) c3).
    split_and!; try done.
    + destruct (pick_cases (pick (pick c0 c1) c2) c3) as [-> | ->];
        [|set_solver].
      destruct (pick_cases (pick c0 c1) c2) as [-> | ->]; [|set_solver].
      destruct (pick_cases c0 c1) as [-> | ->]; set_solver.
    + apply list_elem_of_lookup_2 in H0, H1, H2, H3.
      destruct (pick_cases (pick (pick c0 c1) c2) c3) as [-> | ->]; [|done].
      destruct (pick_cases (pick c0 c1) c2) as [-> | ->]; [|done].
      by destruct (pick_cases c0 c1) as [-> | ->].
    + by rewrite !pick_fitness.
  - destruct (selectParents_eq self ms w Hms Hne)
      as (p1 & p2 & Hp1 & Hp2 & Hrun).
    by eexists _, _, _, _.
  - intros i Hi.
    destruct (lookup_lt_is_Some_2 ms i Hi) as [p Hp].
    set (w0 := {| rng := {| tape := λ _, N.of_nat i; pos := 0 |};
                  heap := heap w |}).
    assert (members self w0 = Some ms) as Hms0 by done.
    assert (∀ k w', tape (rng w') = (λ _, N.of_nat i) →
              draw_index ms k w' = i) as Hidx.
    { intros k w' Htape. unfold draw_index, peek, randint_of, len.
      rewrite Htape, nat_N_Z. rewrite Z.mod_small by lia. lia. }
    destruct (selectParents_eq self ms w0 Hms0 Hne)
      as (p1 & p2 & Hp1 & Hp2 & Hrun).
    destruct (tournament_eq self ms w0 Hms0 Hne)
      as (a0 & a1 & a2 & a3 & Ha0 & Ha1 & Ha2 & Ha3 & Ha).
    destruct (tournament_eq self ms _ (members_tournament_world _ _ _ Hms0) Hne)
      as (b0 & b1 & b2 & b3 & Hb0 & Hb1 & Hb2 & Hb3 & Hb).
    rewrite Hidx in Ha0, Ha1, Ha2, Ha3, Hb0, Hb1, Hb2, Hb3 by done.
    assert (∀ c, pick c c = c) as Hpick
      by (intros c; by destruct (pick_cases c c)).
    simplify_eq. rewrite !Hpick in *.
    eexists w0, p, _. split_and!; [done|done|].
    rewrite Hrun. repeat f_equal; congruence.
Qed.

Lemma tournament_selection_spec_witness :
  ∃ p, __selectParents sample_population (sample_world (tape_of [3; 1; 2; 1]%N))
       = Done (Chromosome_init (gene_of "Hello, worle!"), p)
              (tournament_world sample_members
                 (tournament_world sample_members
                    (sample_world (tape_of [3; 1; 2; 1]%N)))).
Proof.
  destruct (tournament_selection_spec sample_population sample_members
              (sample_world (tape_of [3; 1; 2; 1]%N)) eq_refl
              ltac:(discriminate))
    as [_ [(p1 & p2 & w1 & w2 & Hp1 & Hp2 & _ & Hrun) _]].
  exists p2. rewrite Hrun.
  vm_compute in Hp1. injection Hp1 as <- <-.
  vm_compute in Hp2. injection Hp2 as <- <-.
  reflexivity.
Defined.

(** * The accessor hands out copies *)

Lemma apply_op_world op l w l' w' :
  apply_op op l w = Done l' w' → w' = w.
Proof.
  destruct op; simpl; unfold setitem, raise, mret, M_ret;
    repeat case_match; congruence.
Qed.

(** An in-place operation on one list object leaves the others, and the
    random source, as they are. *)
Lemma list_mutate_frame r op w w' r0 :
  list_mutate r op w = Done () w' → r0 ≠ r →
  heap w' !! r0 = heap w !! r0 ∧ rng w' = rng w.
Proof.
  unfold list_mutate, mbind, M_bind, load, store. intros Hrun Hne.
  destruct (heap w !! r) as [l|] eqn:Hl; [|done].
  destruct (apply_op op l w) as [l' w1| |] eqn:Hop; [|done..].
  apply apply_op_world in Hop as ->. rewrite Hl in Hrun.
  injection Hrun as <-. simpl. by rewrite lookup_insert_ne.
Qed.

Lemma list_mutates_frame r ops w w' r0 :
  list_mutates r ops w = Done () w' → r0 ≠ r →
  heap w' !! r0 = heap w !! r0 ∧ rng w' = rng w.
Proof.
  unfold list_mutates. revert w.
  induction ops as [|op ops IH]; intros w Hrun Hne; simpl in Hrun.
  - by injection Hrun as <-.
  - unfold mbind, M_bind in Hrun.
    destruct (list_mutate r op w) as [[] w1| |] eqn:Hop; [|done..].
    destruct (list_mutate_frame _ _ _ _ r0 Hop Hne) as [<- <-].
    by apply IH.
Qed.

(** C9: the accessor returns a new list object holding the members in
    order; whatever in-place operations a caller runs on it, the
    population's own list keeps its items, and reading the accessor again
    returns them. *)
Theorem population_is_a_defensive_copy (self : Population)
  (ms : list Chromosome) (w : World) :
  members self w = Some ms →
  ∃ r1 w1,
    population self w = Done r1 w1 ∧
    r1 ≠ _population self ∧ heap w1 !! r1 = Some ms ∧
    members self w1 = Some ms ∧
    ∀ ops w2, list_mutates r1 ops w1 = Done () w2 →
      members self w2 = Some ms ∧
      ∃ r2 w3, population self w2 = Done r2 w3 ∧
               heap w3 !! r2 = Some ms ∧ members self w3 = Some ms.
Proof.
  intros Hms.
  pose proof (wlp_population self w) as Hpop. unfold wlp in Hpop.
  rewrite (population_eq _ _ _ Hms) in Hpop.
  destruct Hpop as (_ & _ & Hne & Hcopy & Hms1). rewrite Hms in Hcopy, Hms1.
  eexists _, _. split; [by apply population_eq|].
  split_and!; [done..|].
  intros ops w2 Hops.
  destruct (list_mutates_frame _ _ _ _ (_population self) Hops)
    as [Hkeep _]; [done|].
  assert (members self w2 = Some ms) as Hms2
    by (unfold members in *; congruence).
  split; [done|].
  pose proof (wlp_population self w2) as Hpop2. unfold wlp in Hpop2.
  rewrite (population_eq _ _ _ Hms2) in Hpop2.
  destruct Hpop2 as (_ & _ & _ & Hcopy2 & Hms3).
  rewrite Hms2 in Hcopy2, Hms3.
  eexists _, _. split; [by apply population_eq|]. done.
Qed.

Lemma population_is_a_defensive_copy_witness :
  ∃ r1 w1 w2,
    population sample_population (sample_world low_tape) = Done r1 w1 ∧
    list_mutates r1
      [SetItem 0 (Chromosome_init (gene_of "zzzzzzzzzzzzz")); Pop; Reverse; Clear;
       Append (Chromosome_init (gene_of "zzzzzzzzzzzzz"))] w1
    = Done () w2 ∧
    heap w2 !! r1 = Some [Chromosome_init (gene_of "zzzzzzzzzzzzz")] ∧
    members sample_population w2 = Some sample_members.
Proof.
  destruct (population_is_a_defensive_copy sample_population sample_members
              (sample_world low_tape) eq_refl)
    as (r1 & w1 & Hrun & _ & _ & _ & Hframe).
  rewrite (population_eq _ sample_members) in Hrun by reflexivity.
  injection Hrun as <- <-.
  eexists _, _, _.
  split; [apply (population_eq _ sample_members); reflexivity|].
  edestruct (Hframe [SetItem 0 (Chromosome_init (gene_of "zzzzzzzzzzzzz"));
                      Pop; Reverse; Clear;
                      Append (Chromosome_init (gene_of "zzzzzzzzzzzzz"))])
    as [Hms2 _]; [vm_compute; reflexivity|].
  split_and!; [vm_compute; reflexivity|vm_compute; reflexivity|exact Hms2].
Defined.

(** * Floats and the elite count *)

Section FloatFacts.
Local Open Scope Q_scope.

Lemma pow2_pos e : 0 < 2 ^ e.
Proof. by apply Qpower_0_lt. Qed.

Lemma pow2_plus a b : 2 ^ (a + b) == 2 ^ a * 2 ^ b.
Proof. by apply Qpower_plus. Qed.

Lemma pow2_succ a : 2 ^ (a + 1) == 2 ^ a * 2.
Proof. by rewrite pow2_plus, Qpower_1_r. Qed.

Lemma pow2_le a b : (a <= b)%Z → 2 ^ a <= 2 ^ b.
Proof. intros. by apply Qpower_le_compat_l. Qed.

Lemma pow2_Z n : (0 <= n)%Z → inject_Z (2 ^ n) == 2 ^ n.
Proof. intros. by rewrite Zpower_Qpower. Qed.

Lemma Z_log2_Q n : (0 < n)%Z →
  2 ^ Z.log2 n <= inject_Z n ∧ inject_Z n < 2 ^ (Z.log2 n + 1).
Proof.
  intros Hn. destruct (Z.log2_spec n Hn) as [Hlo Hhi].
  pose proof (Z.log2_nonneg n).
  rewrite <-!pow2_Z by lia. rewrite <-Zle_Qle, <-Zlt_Qlt.
  replace (Z.succ (Z.log2 n)) with (Z.log2 n + 1)%Z in Hhi by lia. done.
Qed.

(** [floor_log2] is the integer logarithm to base 2. *)
Lemma floor_log2_spec q :
  0 < q → 2 ^ floor_log2 q <= q ∧ q < 2 ^ (floor_log2 q + 1).
Proof.
  intros Hq. destruct q as [n d]. unfold floor_log2. cbn [Qnum Qden].
  assert (0 < n)%Z as Hn by (unfold Qlt in Hq; simpl in Hq; lia).
  destruct (Z_log2_Q n Hn) as [Hn1 Hn2].
  destruct (Z_log2_Q (Z.pos d) eq_refl) as [Hd1 Hd2].
  set (a := Z.log2 n) in *. set (b := Z.log2 (Z.pos d)) in *.
  assert (n # d == inject_Z n / inject_Z (Z.pos d)) as Hnd
    by (rewrite Qmake_Qdiv; reflexivity).
  assert (0 < inject_Z (Z.pos d)) as Hdpos by (rewrite <-(Zlt_Qlt 0); lia).
  pose proof (pow2_pos a). pose proof (pow2_pos b).
  pose proof (pow2_pos (a - b)). pose proof (pow2_pos (a - b - 1)).
  assert (2 ^ a == 2 ^ (a - b) * 2 ^ b) as Hab
    by (rewrite <-pow2_plus; f_equiv; lia).
  assert (2 ^ (a - b) == 2 ^ (a - b - 1) * 2) as Hab1
    by (rewrite <-pow2_succ; f_equiv; lia).
  pose proof (pow2_succ b) as Hb1. pose proof (pow2_succ a) as Ha1.
  pose proof (pow2_succ (a - b)) as Hab2.
  set (x := inject_Z n) in *. set (y := inject_Z (Z.pos d)) in *.
  assert (∀ c, c * y <= x → c <= x / y) as Hdiv_le.
  { intros c Hc. apply Qle_shift_div_l; done. }
  assert (∀ c, x < c * y → x / y < c) as Hdiv_lt.
  { intros c Hc. apply Qlt_shift_div_r; done. }
  destruct (Qle_bool (2 ^ (a - b)) (n # d)) eqn:E.
  - apply Qle_bool_iff in E. split; [done|].
    rewrite Hnd. apply Hdiv_lt. rewrite Hab2. nra.
  - assert (¬ 2 ^ (a - b) <= n # d) as E'
      by (rewrite <-Qle_bool_iff; congruence).
    replace (a - b - 1 + 1)%Z with (a - b)%Z by lia. split; [|lra].
    rewrite Hnd. apply Hdiv_le. nra.
Qed.

Lemma round_half_even_lower x A :
  inject_Z A <= x → (A <= round_half_even x)%Z.
Proof.
  intros HA. assert (A <= Qfloor x)%Z as Hf.
  { rewrite <-(Qfloor_Z A). by apply Qfloor_resp_le. }
  unfold round_half_even.
  destruct (_ ?= _); [destruct (Z.even _)|..]; lia.
Qed.

Lemma round_half_even_upper x A :
  x <= inject_Z A → (round_half_even x <= A)%Z.
Proof.
  intros HA. pose proof (Qfloor_le x) as Hf.
  assert (Qfloor x <= A)%Z as Hle by (rewrite Zle_Qle; lra).
  assert (inject_Z (Qfloor x) < x → (Qfloor x + 1 <= A)%Z) as Hlt.
  { intros Hx. assert (Qfloor x < A)%Z by (rewrite Zlt_Qlt; lra). lia. }
  unfold round_half_even.
  destruct (x - inject_Z (Qfloor x) ?= 1 # 2) eqn:E.
  - apply Qeq_alt in E. destruct (Z.even _); [done|]. apply Hlt. lra.
  - done.
  - apply Qgt_alt in E. apply Hlt. lra.
Qed.

(** The nearest integer is within a half. *)
Lemma round_half_even_error x :
  inject_Z (round_half_even x) - x <= 1 # 2 ∧
  x - inject_Z (round_half_even x) <= 1 # 2.
Proof.
  pose proof (Qfloor_le x) as Hlo. pose proof (Qlt_floor x) as Hhi.
  rewrite inject_Z_plus in Hhi. change (inject_Z 1) with 1 in Hhi.
  unfold round_half_even.
  destruct (x - inject_Z (Qfloor x) ?= 1 # 2) eqn:E.
  - apply Qeq_alt in E. destruct (Z.even _);
      rewrite ?inject_Z_plus; change (inject_Z 1) with 1; lra.
  - apply Qlt_alt in E. lra.
  - apply Qgt_alt in E. rewrite inject_Z_plus. change (inject_Z 1) with 1.
    lra.
Qed.

Lemma nearest_small_exp q (a : Z) :
  0 < q → (ulp_exp q <= 0)%Z →
  (inject_Z a <= q → inject_Z a <= nearest q) ∧
  (q <= inject_Z a → nearest q <= inject_Z a).
Proof.
  intros Hq He. unfold nearest. set (e := ulp_exp q) in *.
  pose proof (pow2_pos e) as Hp. pose proof (pow2_pos (- e)) as Hpi.
  assert (2 ^ e * 2 ^ (- e) == 1) as Hinv.
  { rewrite <-pow2_plus. by replace (e + - e)%Z with 0%Z by lia. }
  assert (inject_Z (a * 2 ^ (- e)) == inject_Z a * 2 ^ (- e)) as HA.
  { rewrite inject_Z_mult, pow2_Z by lia. reflexivity. }
  assert (q / 2 ^ e == q * 2 ^ (- e)) as Hx.
  { rewrite Qpower_opp. reflexivity. }
  set (m := round_half_even (q / 2 ^ e)).
  set (p := 2 ^ e) in *. set (pi := 2 ^ (- e)) in *.
  split; intros Ha.
  - assert (a * 2 ^ (- e) <= m)%Z as Hm.
    { apply round_half_even_lower. rewrite HA, Hx. nra. }
    rewrite Zle_Qle in Hm. rewrite HA in Hm. fold pi in Hm.
    assert (inject_Z a * (p * pi) <= inject_Z m * p) by nra.
    rewrite Hinv in *. lra.
  - assert (m <= a * 2 ^ (- e))%Z as Hm.
    { apply round_half_even_upper. rewrite HA, Hx. nra. }
    rewrite Zle_Qle in Hm. rewrite HA in Hm. fold pi in Hm.
    assert (inject_Z m * p <= inject_Z a * (p * pi)) by nra.
    rewrite Hinv in *. lra.
Qed.

Lemma nearest_large_exp q :
  0 < q → (0 < ulp_exp q)%Z →
  2 ^ 53 <= q ∧ 2 ^ 53 <= nearest q ∧ (q <= 2 ^ 53 → nearest q <= 2 ^ 53).
Proof.
  intros Hq He. unfold nearest.
  assert (ulp_exp q = floor_log2 q - 52)%Z as Hexp
    by (unfold ulp_exp in *; lia).
  set (e := ulp_exp q) in *.
  destruct (floor_log2_spec q Hq) as [Hlo _].
  replace (floor_log2 q) with (e + 52)%Z in Hlo by lia.
  rewrite pow2_plus in Hlo.
  pose proof (pow2_pos e) as Hp. pose proof (pow2_le 1 e ltac:(lia)) as Hp2.
  rewrite Qpower_1_r in Hp2.
  assert (2 ^ 53 == 2 ^ 52 * 2) as H53 by reflexivity.
  assert (0 < 2 ^ 52) as H52 by reflexivity.
  assert (inject_Z (2 ^ 52) == 2 ^ 52) as HZ52 by (by apply pow2_Z).
  assert (2 ^ 52 <= q / 2 ^ e) as Hx.
  { apply Qle_shift_div_l; [done|]. lra. }
  set (m := round_half_even (q / 2 ^ e)).
  assert (2 ^ 52 <= m)%Z as Hm
    by (apply round_half_even_lower; by rewrite HZ52).
  rewrite Zle_Qle in Hm. rewrite HZ52 in Hm.
  set (p := 2 ^ e) in *. set (c := 2 ^ 52) in *.
  split_and!; [nra|nra|]. intros Hq53.
  assert (p == 2) as Hpe by nra.
  assert (q / p <= inject_Z (2 ^ 52)) as Hx'.
  { rewrite HZ52. apply Qle_shift_div_r; [done|]. fold c. rewrite Hpe. lra. }
  apply round_half_even_upper in Hx'. rewrite Zle_Qle in Hx'.
  rewrite HZ52 in Hx'. fold m c in Hx'. rewrite Hpe. lra.
Qed.

Lemma inject_Z_le_2_53 a : (a <= 2 ^ 53)%Z → inject_Z a <= 2 ^ 53.
Proof. intros Ha. rewrite <-(pow2_Z 53), <-Zle_Qle by done. done. Qed.

(** Rounding a positive number to a multiple of the last place keeps it
    on its side of every integer of up to 53 bits. *)
Lemma nearest_bounds q (a : Z) :
  0 < q → (0 <= a <= 2 ^ 53)%Z →
  (inject_Z a <= q → inject_Z a <= nearest q) ∧
  (q <= inject_Z a → nearest q <= inject_Z a).
Proof.
  intros Hq Ha. destruct (Z.le_gt_cases (ulp_exp q) 0) as [He|He].
  - by apply nearest_small_exp.
  - destruct (nearest_large_exp q Hq ltac:(lia)) as (Hq53 & Hn & Hup).
    pose proof (inject_Z_le_2_53 a ltac:(lia)) as Ha'.
    split; intros Hqa; [lra|]. specialize (Hup ltac:(lra)). lra.
Qed.

Lemma nearest_nonneg q : 0 < q → 0 <= nearest q.
Proof.
  intros Hq. destruct (nearest_bounds q 0 Hq ltac:(lia)) as [H _].
  apply H. by apply Qlt_le_weak.
Qed.

(** The error of rounding: half a unit of the last place, which is the
    relative error [2^-53] of a float operation, or [2^-1075] on the
    smallest floats. *)
Lemma nearest_error q :
  0 < q →
  nearest q - q <= q * 2 ^ (-53) + 2 ^ (-1075) ∧
  q - nearest q <= q * 2 ^ (-53) + 2 ^ (-1075).
Proof.
  intros Hq. unfold nearest. set (e := ulp_exp q).
  pose proof (pow2_pos e) as Hp.
  destruct (round_half_even_error (q / 2 ^ e)) as [Hhi Hlo].
  set (m := inject_Z (round_half_even (q / 2 ^ e))) in *.
  assert (q / 2 ^ e * 2 ^ e == q) as Hx.
  { unfold Qdiv. rewrite <-Qmult_assoc, (Qmult_comm (/ _)), Qmult_inv_r.
    - by rewrite Qmult_1_r.
    - lra. }
  assert (2 ^ e * (1 # 2) <= q * 2 ^ (-53) + 2 ^ (-1075)) as Hulp.
  { pose proof (pow2_pos (-1075)) as H1075.
    assert (0 < 2 ^ (-53)) as H53 by apply pow2_pos.
    destruct (Z.max_spec (-1074) (floor_log2 q - 52)) as [[_ Hmax]|[_ Hmax]];
      fold (ulp_exp q) in Hmax; fold e in Hmax.
    - destruct (floor_log2_spec q Hq) as [Hl _].
      replace (floor_log2 q) with (e + 53 + -1)%Z in Hl by lia.
      rewrite !pow2_plus in Hl.
      assert (2 ^ 53 * 2 ^ (-53) == 1) as Hinv by reflexivity.
      assert (2 ^ (-1) == 1 # 2) as Hhalf by reflexivity.
      rewrite Hhalf in Hl. set (p := 2 ^ e) in *.
      assert (p * (1 # 2) * (2 ^ 53 * 2 ^ (-53)) <= q * 2 ^ (-53)) by nra.
      rewrite Hinv in *. lra.
    - rewrite Hmax.
      assert (2 ^ (-1074) * (1 # 2) == 2 ^ (-1075)) as -> by (by vm_compute).
      assert (0 <= q * 2 ^ (-53)) by nra. lra. }
  set (x := q / 2 ^ e) in *. set (p := 2 ^ e) in *.
  rewrite <-Hx at 2 4. split; nra.
Qed.

Lemma float_round_comp q q' : q == q' → float_round q = float_round q'.
Proof.
  intros Heq. unfold float_round. by rewrite (Qred_complete _ _ Heq).
Qed.

Lemma float_round_pos_Some q r :
  float_round_pos q = Some r → r == nearest q ∧ r < 2 ^ 1024.
Proof.
  unfold float_round_pos. destruct (Qle_bool _ _) eqn:E; [done|].
  intros [= <-]. rewrite Qred_correct. split; [reflexivity|].
  apply Qnot_le_lt. rewrite <-Qle_bool_iff. congruence.
Qed.

(** A float is on the same side of an integer of up to 53 bits as the
    number it was rounded from. *)
Lemma float_round_lower q r (a : Z) :
  float_round q = Some r → (0 <= a <= 2 ^ 53)%Z →
  inject_Z a <= q → inject_Z a <= r.
Proof.
  intros Hr Ha Hq. unfold float_round in Hr.
  pose proof (Qred_correct q) as Hred.
  assert (0 <= inject_Z a) by (rewrite <-(Zle_Qle 0); lia).
  destruct (Qred q) as [[|n|n] d]; cbn [Qnum] in Hr.
  - injection Hr as <-. assert (0 # d == 0) as H0 by reflexivity. lra.
  - apply float_round_pos_Some in Hr as [-> _].
    apply nearest_bounds; [reflexivity|done|by rewrite Hred].
  - assert (Z.neg n # d < 0) as Hneg by reflexivity. lra.
Qed.

(** Below [2^53] there is no overflow. *)
Lemma float_round_upper q (a : Z) :
  (0 <= a <= 2 ^ 53)%Z → 0 <= q → q <= inject_Z a →
  ∃ r, float_round q = Some r ∧ 0 <= r ∧ r <= inject_Z a.
Proof.
  intros Ha Hq0 Hq. unfold float_round.
  pose proof (Qred_correct q) as Hred.
  destruct (Qred q) as [[|n|n] d]; cbn [Qnum].
  - exists 0. split; [done|]. split; [lra|].
    rewrite <-(Zle_Qle 0). lia.
  - assert (0 < Z.pos n # d) as Hpos by reflexivity.
    unfold float_round_pos.
    destruct (nearest_bounds _ a Hpos Ha) as [_ Hup].
    specialize (Hup ltac:(by rewrite Hred)).
    pose proof (nearest_nonneg _ Hpos).
    pose proof (inject_Z_le_2_53 a ltac:(lia)) as Ha'.
    assert (2 ^ 53 < 2 ^ 1024) as Hbig by (by apply Qpower_lt_compat_l).
    destruct (Qle_bool _ _) eqn:E.
    + apply Qle_bool_iff in E. lra.
    + eexists. split; [done|]. by rewrite Qred_correct.
  - assert (Z.neg n # d < 0) as Hneg by reflexivity. lra.
Qed.

Lemma float_round_nonneg q r : float_round q = Some r → 0 <= q → 0 <= r.
Proof.
  intros Hr Hq. apply (float_round_lower q r 0 Hr); [lia|done].
Qed.

(** The float nearest to a number from 0 on, and how far it is. *)
Lemma float_round_error q r :
  float_round q = Some r → 0 <= q →
  r - q <= q * 2 ^ (-53) + 2 ^ (-1075) ∧
  q - r <= q * 2 ^ (-53) + 2 ^ (-1075).
Proof.
  intros Hr Hq. unfold float_round in Hr.
  pose proof (Qred_correct q) as Hred.
  destruct (Qred q) as [[|n|n] d]; cbn [Qnum] in Hr.
  - assert (0 # d == 0) as H0 by reflexivity. injection Hr as <-.
    pose proof (pow2_pos (-1075)). pose proof (pow2_pos (-53)).
    assert (q == 0) as -> by lra. lra.
  - apply float_round_pos_Some in Hr as [Hr _].
    assert (0 < Z.pos n # d) as Hpos by reflexivity.
    pose proof (nearest_error _ Hpos) as Herr.
    rewrite <-Hr, Hred in Herr. done.
  - assert (Z.neg n # d < 0) as Hneg by reflexivity. lra.
Qed.

(** An [int] of up to 53 bits is a float. *)
Lemma float_of_int_exact n :
  (0 <= n <= 2 ^ 53)%Z → ∃ x, float_of_int n = Some x ∧ x == inject_Z n.
Proof.
  intros Hn. unfold float_of_int.
  assert (0 <= inject_Z n) as H0 by (rewrite <-(Zle_Qle 0); lia).
  destruct (float_round_upper (inject_Z n) n Hn H0 ltac:(lra))
    as (x & Hx & _ & Hup).
  exists x. split; [done|].
  pose proof (float_round_lower _ _ n Hx Hn ltac:(lra)). lra.
Qed.


Lemma int_round_nonneg x :
  0 <= x →
  (0 <= int_round x)%Z ∧
  inject_Z (int_round x) - (1 # 2) <= x ∧
  x < inject_Z (int_round x) + (1 # 2).
Proof.
  intros Hx. unfold int_round.
  destruct (Qle_bool 0 x) eqn:E; [|by apply Qle_bool_iff in Hx; congruence].
  pose proof (Qfloor_le (x + (1 # 2))) as Hlo.
  pose proof (Qlt_floor (x + (1 # 2))) as Hhi.
  rewrite inject_Z_plus in Hhi.
  split_and!; [|lra|change (inject_Z 1) with 1%Q in Hhi; lra].
  change 0%Z with (Qfloor 0). apply Qfloor_resp_le. lra.
Qed.

Lemma int_round_between x (a b : Z) :
  (0 <= a)%Z → inject_Z a <= x → x <= inject_Z b →
  (a <= int_round x <= b)%Z.
Proof.
  intros Ha Hlo Hhi.
  assert (0 <= inject_Z a) by (rewrite <-(Zle_Qle 0); lia).
  destruct (int_round_nonneg x) as (_ & Hk1 & Hk2); [lra|].
  assert (inject_Z a < inject_Z (int_round x + 1)) as H1.
  { rewrite inject_Z_plus. change (inject_Z 1) with 1. lra. }
  assert (inject_Z (int_round x) < inject_Z (b + 1)) as H2.
  { rewrite inject_Z_plus. change (inject_Z 1) with 1. lra. }
  rewrite <-Zlt_Qlt in H1, H2. lia.
Qed.

(** The elite count of a size of up to 53 bits: the size is a float. *)
Lemma elite_count_eq size e :
  (0 <= size <= 2 ^ 53)%Z →
  elite_count size e = int_round <$> float_round (inject_Z size * e).
Proof.
  intros Hsize. unfold elite_count.
  destruct (float_of_int_exact size Hsize) as (x & -> & Hx). simpl.
  unfold float_mul. rewrite (float_round_comp (x * e) (inject_Z size * e))
    by (by rewrite Hx).
  by destruct (float_round _).
Qed.

Lemma elite_count_0 e : elite_count 0 e = Some 0%Z.
Proof.
  rewrite elite_count_eq by done.
  by rewrite (float_round_comp _ 0) by ring.
Qed.

Lemma elite_count_of_nonneg size e k :
  (0 <= size)%Z → 0 <= e → elite_count size e = Some k → (0 <= k)%Z.
Proof.
  intros Hsize He Hk. unfold elite_count in Hk.
  destruct (float_of_int size) as [x|] eqn:Hx; [|done]. simpl in Hk.
  destruct (float_mul x e) as [p|] eqn:Hp; [|done]. injection Hk as <-.
  apply float_round_nonneg in Hx; [|rewrite <-(Zle_Qle 0); lia].
  apply float_round_nonneg in Hp; [|by apply Qmult_le_0_compat].
  by apply int_round_nonneg.
Qed.

(** For an elitism rate inside (0, 1) the elite count is the float product
    rounded to the nearest integer, and a number of members; the float
    product is the nearest float to the exact one. *)
Lemma elite_count_range size e :
  (0 <= size <= 2 ^ 53)%Z → 0 <= e → e <= 1 →
  ∃ k p,
    elite_count size e = Some k ∧
    float_round (inject_Z size * e) = Some p ∧
    p - inject_Z size * e <= inject_Z size * e * 2 ^ (-53) + 2 ^ (-1075) ∧
    inject_Z size * e - p <= inject_Z size * e * 2 ^ (-53) + 2 ^ (-1075) ∧
    inject_Z k - (1 # 2) <= p ∧ p < inject_Z k + (1 # 2) ∧
    (0 <= k <= size)%Z.
Proof.
  intros Hsize He0 He1. rewrite elite_count_eq by done.
  assert (0 <= inject_Z size) as Hs by (rewrite <-(Zle_Qle 0); lia).
  assert (0 <= inject_Z size * e) as Hq0 by (by apply Qmult_le_0_compat).
  assert (inject_Z size * e <= inject_Z size) as Hq1 by nra.
  destruct (float_round_upper _ size Hsize Hq0 Hq1) as (p & Hp & Hp0 & Hp1).
  rewrite Hp. exists (int_round p), p.
  destruct (float_round_error _ _ Hp Hq0) as [Herr1 Herr2].
  destruct (int_round_nonneg p Hp0) as (_ & Hk1 & Hk2).
  split_and!; try done.
  all: apply (int_round_between p 0 size); [done|done|done].
Qed.

Lemma elite_count_full size e k :
  (0 <= size <= 2 ^ 53)%Z → 1 <= e → elite_count size e = Some k →
  (size <= k)%Z.
Proof.
  intros Hsize He. rewrite elite_count_eq by done.
  destruct (float_round _) as [p|] eqn:Hp; [|done]. intros [= <-].
  assert (0 <= inject_Z size) as Hs by (rewrite <-(Zle_Qle 0); lia).
  pose proof (float_round_lower _ _ size Hp Hsize ltac:(nra)) as Hlo.
  destruct (int_round_nonneg p ltac:(lra)) as (_ & _ & Hk2).
  assert (inject_Z size < inject_Z (int_round p + 1)) as H1.
  { rewrite inject_Z_plus. change (inject_Z 1) with 1. lra. }
  rewrite <-Zlt_Qlt in H1. lia.
Qed.

End FloatFacts.

(** * Generations *)

(** [evolve] once the elite count is known, and when there is none. *)
Lemma evolve_unfold fuel self w ms k :
  members self w = Some ms →
  elite_count (len ms) (_elitism self) = Some k →
  evolve fuel self w
  = (st ← while fuel (λ st, fst st <? len ms) (evolve_body self)
            (k, slice ms 0 k);
     r ← alloc (sorted _fitness (slice (snd st) 0 (len ms)));
     mret {| _elitism := _elitism self; _mutation := _mutation self;
             _crossover := _crossover self; _population := r |}) w.
Proof.
  intros Hms Hk. unfold evolve.
  rewrite (bind_Done _ _ _ _ _ (load_eq _ _ _ Hms)). by rewrite Hk.
Qed.

Lemma evolve_overflow fuel self w ms :
  members self w = Some ms →
  elite_count (len ms) (_elitism self) = None →
  evolve fuel self w = Raise OverflowError.
Proof.
  intros Hms Hk. unfold evolve.
  rewrite (bind_Done _ _ _ _ _ (load_eq _ _ _ Hms)). by rewrite Hk.
Qed.

Lemma evolve_Done fuel self w self' w' :
  evolve fuel self w = Done self' w' →
  after w w' ∧
  _elitism self' = _elitism self ∧ _mutation self' = _mutation self ∧
  _crossover self' = _crossover self ∧
  ∃ ms k buf,
    members self w = Some ms ∧
    elite_count (len ms) (_elitism self) = Some k ∧
    slice ms 0 k `prefix_of` buf ∧
    (length ms ≤ length buf)%nat ∧
    (wf_members ms → wf_members buf) ∧
    members self' w' = Some (sorted _fitness (take (length ms) buf)).
Proof.
  intros Hrun. pose proof (wlp_evolve fuel self w) as Hwlp.
  unfold wlp in Hwlp. by rewrite Hrun in Hwlp.
Qed.

(** Populations keep their members well formed: every candidate has a gene
    of the length of the target and stores the fitness of its gene. *)
Lemma evolve_wf fuel self w ms self' w' :
  members self w = Some ms → wf_members ms →
  evolve fuel self w = Done self' w' →
  ∃ ms', members self' w' = Some ms' ∧ wf_members ms'.
Proof.
  intros Hms Hwf Hrun.
  destruct (evolve_Done _ _ _ _ _ Hrun)
    as (_ & _ & _ & _ & ms0 & _ & buf & Hms0 & _ & _ & _ & Hbuf & Hms').
  assert (ms0 = ms) as -> by congruence.
  eexists. split; [done|]. unfold wf_members.
  rewrite sorted_Permutation. apply Forall_take. by apply Hbuf.
Qed.

(** * The fill index *)

Lemma wf_chromosome_nonempty c : wf_chromosome c → _gene c ≠ [].
Proof. intros [Hlen _] Hnil. rewrite Hnil in Hlen. discriminate Hlen. Qed.

(** What one iteration does to the fill index and to the buffer: plus 2
    and two more items when the crossover test succeeds, the same index and
    one more item when it fails. *)
Lemma wlp_evolve_body_idx self idx buf w :
  wlp (evolve_body self (idx, buf)) w (λ st w',
    if Qle_bool (random_of (peek 0 w)) (_crossover self)
    then st.1 = idx + 2 ∧ length st.2 = (length buf + 2)%nat
    else st.1 = idx ∧ length st.2 = (length buf + 1)%nat).
Proof.
  unfold evolve_body. apply wlp_bind, wp_wlp.
  eapply wp_eq; [apply random_eq|].
  destruct (Qle_bool (random_of (peek 0 w)) (_crossover self)).
  - apply wlp_bind. eapply wlp_mono; [apply wlp_selectParents|].
    intros [p1 p2] w2 _. apply wlp_bind.
    eapply wlp_mono; [apply wlp_mate|]. intros [c1 c2] w3 _.
    apply wlp_bind. apply wlp_bind.
    eapply wlp_mono; [apply wlp_append_child|].
    intros buf1 w4 (_ & _ & m1 & -> & _).
    apply wlp_bind. eapply wlp_mono; [apply wlp_append_child|].
    intros buf2 w5 (_ & _ & m2 & -> & _).
    do 2 apply wlp_ret. simpl. rewrite !length_app. simpl. split; [done|lia].
  - apply wlp_bind, wp_wlp. eapply wp_eq; [apply random_eq|].
    destruct (Qle_bool _ (_mutation self)).
    + apply wlp_bind. eapply wlp_mono; [apply wlp_load|]. intros own w3 _.
      apply wlp_bind. eapply wlp_mono; [apply wlp_getitem|]. intros c w4 _.
      apply wlp_bind. eapply wlp_mono; [apply wlp_mutate|]. intros m w5 _.
      apply wlp_ret. simpl. rewrite length_app. simpl. done.
    + apply wlp_bind. eapply wlp_mono; [apply wlp_load|]. intros own w3 _.
      apply wlp_bind. eapply wlp_mono; [apply wlp_getitem|]. intros c w4 _.
      apply wlp_ret. simpl. rewrite length_app. simpl. done.
Qed.

(** When the crossover test fails, on a live population of well-formed
    members and with the index inside the list, the iteration returns. *)
Lemma wp_evolve_body_else self ms idx buf w :
  members self w = Some ms → wf_members ms →
  - len ms ≤ idx < len ms →
  Qle_bool (random_of (peek 0 w)) (_crossover self) = false →
  wp (evolve_body self (idx, buf)) w (λ st w',
    st.1 = idx ∧ tape (rng w') = tape (rng w) ∧ members self w' = Some ms).
Proof.
  intros Hms Hwf Hidx Htest. unfold evolve_body.
  apply wp_bind. eapply wp_eq; [apply random_eq|]. rewrite Htest.
  apply wp_bind. eapply wp_eq; [apply random_eq|].
  destruct (Qle_bool _ (_mutation self)).
  - apply wp_bind. eapply wp_eq; [apply load_eq; exact Hms|].
    apply wp_bind. eapply wp_mono; [by apply wp_getitem|].
    intros c w3 (Hc & ->).
    apply wp_bind. eapply wp_mono.
    { apply wp_mutate. by eapply wf_chromosome_nonempty, wf_members_elem_of. }
    intros m w4 (-> & _). by apply wp_ret.
  - apply wp_bind. eapply wp_eq; [apply load_eq; exact Hms|].
    apply wp_bind. eapply wp_mono; [by apply wp_getitem|].
    intros c w3 (Hc & ->). by apply wp_ret.
Qed.

Lemma crossover_test_fails self w w' :
  crossover_never self w → tape (rng w') = tape (rng w) →
  Qle_bool (random_of (peek 0 w')) (_crossover self) = false.
Proof.
  intros Hnever Htape. unfold peek. rewrite Htape.
  specialize (Hnever (0 + pos (rng w'))%nat).
  destruct (Qle_bool _ _) eqn:E; [|done].
  apply Qle_bool_iff in E. lra.
Qed.

Lemma negative_crossover_never self w :
  (_crossover self < 0)%Q → crossover_never self w.
Proof.
  intros Hneg i. destruct (random_of_range (tape (rng w) i)) as [H0 _]. lra.
Qed.

(** C10, as the code has it: an iteration of the fill loop moves the fill
    index by 2 when the crossover test succeeds and leaves it where it is
    when the test fails; so on a population whose size exceeds the elite
    count [k] the code computes (the float product, rounded), with [k] at
    least [-size] (as for every elitism rate from 0 on), a call of
    [evolve] whose crossover test never succeeds (as for a negative
    crossover rate) neither returns nor raises: whatever the fuel, the
    loop is still running when it is used up. *)
Theorem evolve_diverges_without_crossover :
  (∀ self idx buf w idx' buf' w',
     evolve_body self (idx, buf) w = Done (idx', buf') w' →
     idx' = if Qle_bool (random_of (peek 0 w)) (_crossover self)
            then idx + 2 else idx) ∧
  (∀ self w ms k,
     members self w = Some ms → wf_members ms →
     elite_count (len ms) (_elitism self) = Some k →
     - len ms ≤ k < len ms →
     (_crossover self < 0)%Q ∨ crossover_never self w →
     ∀ fuel, evolve fuel self w = OutOfFuel) ∧
  (∀ size e k,
     0 ≤ size → (0 <= e)%Q → elite_count size e = Some k → 0 ≤ k).
Proof.
  split_and!; [| |apply elite_count_of_nonneg].
  - intros self idx buf w idx' buf' w' Hrun.
    pose proof (wlp_evolve_body_idx self idx buf w) as Hwlp.
    unfold wlp in Hwlp. rewrite Hrun in Hwlp. simpl in Hwlp.
    by destruct (Qle_bool _ _); destruct Hwlp.
  - intros self w ms k Hms Hwf Hcount Hk Hnever fuel.
    assert (crossover_never self w) as Hnever'
      by (destruct Hnever; [by apply negative_crossover_never|done]).
    rewrite (evolve_unfold _ _ _ _ _ Hms Hcount).
    apply bind_OutOfFuel.
    apply (while_diverges (λ st w',
             st.1 = k ∧
             tape (rng w') = tape (rng w) ∧ members self w' = Some ms));
      [|done].
    intros [idx buf] w' (Hidx & Htape & Hms'). simpl in Hidx. subst idx.
    split; [simpl; apply Z.ltb_lt; lia|].
    eapply wp_mono.
    { apply (wp_evolve_body_else self ms); [done..|].
      by eapply crossover_test_fails. }
    intros st w'' (? & Htape' & ?). split_and!; [done|congruence|done].
Qed.

Lemma evolve_diverges_without_crossover_witness :
  evolve 1000 sample_population (sample_world high_tape) = OutOfFuel.
Proof.
  apply (proj1 (proj2 evolve_diverges_without_crossover) sample_population
           (sample_world high_tape) sample_members 2 eq_refl).
  - repeat constructor.
  - vm_compute. reflexivity.
  - split; [vm_compute; discriminate|vm_compute; reflexivity].
  - right. intros i. reflexivity.
Defined.

(** C10 fails as stated when the elite count is below [-size]: on a
    population of one member with elitism rate -2 and crossover rate -1 the
    size, 1, exceeds the elite count, -2, and the crossover test never
    succeeds, yet the first iteration reads [self._population[-2]] and the
    call ends with [IndexError]. *)
Lemma evolve_raises_below_minus_size :
  members negative_population negative_world
  = Some [Chromosome_init __target_gene] ∧
  elite_count 1 (_elitism negative_population) = Some (-2) ∧
  (_crossover negative_population < 0)%Q ∧
  ∀ fuel, evolve (S fuel) negative_population negative_world
          = Raise IndexError.
Proof.
  split_and!; try reflexivity.
Qed.

(** C1: the fill index after an iteration on the non-crossover path.  On
    the sample population (4 members, elite count 2) with a source whose
    draws are all above the crossover and mutation rates, the iteration
    from [idx = 2] appends the member at position 2, unmutated, and returns
    with [idx] still 2: the statement [++idx] is not an assignment. *)
Theorem noncrossover_path_keeps_idx :
  evolve_body sample_population (2, take 2 sample_members)
    (sample_world high_tape)
  = Done (2, take 2 sample_members
               ++ [Chromosome_init (gene_of "Jello, world!")])
         (advance 2 (sample_world high_tape)).
Proof. reflexivity. Qed.

(** * Returning calls *)

Lemma wp_of_wlp {A} (m : M A) w a w' (Q : A → World → Prop) :
  m w = Done a w' → wlp m w Q → wp m w Q.
Proof. unfold wp, wlp. by intros ->. Qed.

Lemma wp_selectParents self ms w :
  members self w = Some ms → ms ≠ [] →
  wp (__selectParents self) w (λ ps w',
    tape (rng w') = tape (rng w) ∧ members self w' = Some ms ∧
    ps.1 ∈ ms ∧ ps.2 ∈ ms).
Proof.
  intros Hms Hne.
  destruct (selectParents_eq self ms w Hms Hne) as (p1 & p2 & _ & _ & Hrun).
  eapply wp_mono; [eapply wp_of_wlp; [exact Hrun|apply wlp_selectParents]|].
  intros ps w' ([Htape _] & Hms' & Hps). destruct (Hps ms Hms).
  split_and!; [done|congruence|done..].
Qed.

Lemma wp_append_child self c buf w :
  _gene c ≠ [] →
  wp (append_child self c buf) w (λ buf' w',
    tape (rng w') = tape (rng w) ∧ members self w' = members self w).
Proof.
  intros Hne. unfold append_child.
  apply wp_bind. eapply wp_eq; [apply random_eq|].
  destruct (Qle_bool _ (_mutation self)).
  - apply wp_bind. eapply wp_mono; [by apply wp_mutate|].
    intros m w' (-> & _). by apply wp_ret.
  - by apply wp_ret.
Qed.

(** When the crossover test succeeds, on a live, non-empty population of
    well-formed members, the iteration returns. *)
Lemma wp_evolve_body_then self ms idx buf w :
  members self w = Some ms → wf_members ms → ms ≠ [] →
  Qle_bool (random_of (peek 0 w)) (_crossover self) = true →
  wp (evolve_body self (idx, buf)) w (λ st w',
    st.1 = idx + 2 ∧ tape (rng w') = tape (rng w) ∧
    members self w' = Some ms).
Proof.
  intros Hms Hwf Hne Htest. unfold evolve_body.
  apply wp_bind. eapply wp_eq; [apply random_eq|]. rewrite Htest.
  apply wp_bind. eapply wp_mono; [by apply (wp_selectParents self ms)|].
  intros [p1 p2] w2 (Htape2 & Hms2 & Hp1 & Hp2). simpl in Hp1, Hp2.
  destruct (wf_members_elem_of _ _ Hwf Hp1) as [Hl1 _].
  destruct (wf_members_elem_of _ _ Hwf Hp2) as [Hl2 _].
  assert (_gene p1 ≠ []) as Hne1
    by (intros Hnil; rewrite Hnil in Hl1; discriminate Hl1).
  apply wp_bind. eapply wp_eq; [by apply mate_eq|].
  apply wp_bind. simpl. apply wp_bind.
  eapply wp_mono.
  { apply wp_append_child. simpl. intros Hnil.
    apply (f_equal length) in Hnil.
    rewrite length_crossover_at in Hnil by congruence.
    rewrite Hl1 in Hnil. discriminate Hnil. }
  intros buf1 w3 (Htape3 & Hms3). apply wp_bind.
  eapply wp_mono.
  { apply wp_append_child. simpl. intros Hnil.
    apply (f_equal length) in Hnil.
    rewrite length_crossover_at in Hnil by congruence.
    rewrite Hl2 in Hnil. discriminate Hnil. }
  intros buf2 w4 (Htape4 & Hms4). do 2 apply wp_ret.
  split_and!; [done| |].
  - rewrite Htape4, Htape3. simpl. by rewrite Htape2.
  - rewrite Hms4, Hms3. unfold members in *. simpl. done.
Qed.

Lemma crossover_test_succeeds self w w' :
  crossover_always self w → tape (rng w') = tape (rng w) →
  Qle_bool (random_of (peek 0 w')) (_crossover self) = true.
Proof.
  intros Halways Htape. unfold peek. rewrite Htape.
  apply Qle_bool_iff, Halways.
Qed.

Lemma certain_crossover_always self w :
  (1 <= _crossover self)%Q → crossover_always self w.
Proof.
  intros Hone i. destruct (random_of_range (tape (rng w) i)) as [_ H1]. lra.
Qed.

(** [evolve] is not partial for want of fuel alone: on a live population
    of well-formed members, when the crossover test succeeds on every draw
    (as for a crossover rate from 1 on), the call returns within
    [size - k] iterations, [k] the elite count. *)
Lemma evolve_returns_with_crossover fuel self w ms k :
  members self w = Some ms → wf_members ms →
  elite_count (len ms) (_elitism self) = Some k →
  (1 <= _crossover self)%Q ∨ crossover_always self w →
  (Z.to_nat (len ms - k) ≤ fuel)%nat →
  ∃ self' w', evolve fuel self w = Done self' w'.
Proof.
  intros Hms Hwf Hcount Halways Hfuel.
  assert (crossover_always self w) as Halways'
    by (destruct Halways; [by apply certain_crossover_always|done]).
  cut (wp (evolve fuel self) w (λ _ _, True)).
  { intros (self' & w' & Hrun & _)%wp_Done. eauto. }
  unfold wp. rewrite (evolve_unfold _ _ _ _ _ Hms Hcount).
  fold (wp (A:=Population)). apply wp_bind.
  eapply wp_mono.
  { apply (wp_while_variant
             (λ st w', k ≤ st.1 ∧ tape (rng w') = tape (rng w) ∧
                       members self w' = Some ms)
             (λ st, Z.to_nat (len ms - st.1))); [|done|simpl; lia].
    intros [idx buf] w' (Hidx & Htape & Hms') Hcond. simpl in *.
    apply Z.ltb_lt in Hcond.
    assert (ms ≠ []) as Hne.
    { intros ->. rewrite elite_count_0 in Hcount.
      unfold len in Hcond. simpl in Hcond. simplify_eq. lia. }
    eapply wp_mono.
    { apply (wp_evolve_body_then self ms); [done..|].
      by eapply crossover_test_succeeds. }
    intros [idx' buf'] w'' (Hidx' & Htape' & Hms''). simpl in *.
    split_and!; [lia|congruence|done|lia]. }
  intros st w' _. apply wp_bind.
  eapply wp_mono; [apply wp_alloc|]. intros r w'' _. by apply wp_ret.
Qed.

(** * The generation invariants *)

(** C4: the member list a population is constructed with, and the one a
    call of [evolve] that returns leaves, is non-decreasing in fitness, so
    its first member is one of minimal fitness; the constructor always
    returns, and [evolve] does when there is an elite count (the float
    product is finite) and the crossover test succeeds on every draw.  When
    the float product is an infinity the call raises [OverflowError]. *)
Theorem members_sorted_by_fitness :
  (∀ size c e m w, ∃ self w' ms,
     Population_init size c e m w = Done self w' ∧
     members self w' = Some ms ∧ nondecreasing ms ∧
     ∀ best other, ms !! 0%nat = Some best → other ∈ ms →
                   _fitness best ≤ _fitness other) ∧
  (∀ fuel self w self' w',
     evolve fuel self w = Done self' w' →
     ∃ ms', members self' w' = Some ms' ∧ nondecreasing ms' ∧
       ∀ best other, ms' !! 0%nat = Some best → other ∈ ms' →
                     _fitness best ≤ _fitness other) ∧
  (∀ fuel self w ms k,
     members self w = Some ms → wf_members ms →
     elite_count (len ms) (_elitism self) = Some k →
     (1 <= _crossover self)%Q ∨ crossover_always self w →
     (Z.to_nat (len ms - k) ≤ fuel)%nat →
     ∃ self' w' ms', evolve fuel self w = Done self' w' ∧
                     members self' w' = Some ms' ∧ nondecreasing ms') ∧
  (∀ fuel self w ms,
     members self w = Some ms →
     elite_count (len ms) (_elitism self) = None →
     evolve fuel self w = Raise OverflowError).
Proof.
  assert (∀ fuel self w self' w',
     evolve fuel self w = Done self' w' →
     ∃ ms', members self' w' = Some ms' ∧ nondecreasing ms' ∧
       ∀ best other, ms' !! 0%nat = Some best → other ∈ ms' →
                     _fitness best ≤ _fitness other) as Hsorted.
  { intros fuel self w self' w' Hrun.
    destruct (evolve_Done _ _ _ _ _ Hrun)
      as (_ & _ & _ & _ & ms & _ & buf & _ & _ & _ & _ & _ & Hms').
    eexists. split; [exact Hms'|].
    pose proof (sorted_nondecreasing (take (length ms) buf)) as Hnd.
    split; [done|]. intros best other. by apply nondecreasing_head. }
  split_and!; [|done| |apply evolve_overflow].
  - intros size c e m w.
    pose proof (wp_Population_init size c e m w) as Hwp.
    apply wp_Done in Hwp
      as (self & w' & Hrun & _ & _ & _ & _ & ms & Hms & Hnd & _).
    exists self, w', ms. split_and!; try done.
    intros best other. by apply nondecreasing_head.
  - intros fuel self w ms k Hms Hwf Hcount Halways Hfuel.
    destruct (evolve_returns_with_crossover fuel self w ms k)
      as (self' & w' & Hrun); [done..|].
    destruct (Hsorted _ _ _ _ _ Hrun) as (ms' & Hms' & Hnd & _).
    by exists self', w', ms'.
Qed.

Lemma members_sorted_by_fitness_witness :
  ∃ self' w' ms',
    evolve 2 sample_population (sample_world low_tape) = Done self' w' ∧
    members self' w' = Some ms' ∧ nondecreasing ms'.
Proof.
  apply (proj1 (proj2 (proj2 members_sorted_by_fitness)) 2%nat
           sample_population (sample_world low_tape) sample_members 2
           eq_refl).
  - repeat constructor.
  - vm_compute. reflexivity.
  - right. intros i. vm_compute. discriminate.
  - vm_compute. lia.
Defined.

(** C5: a call of [evolve] that returns leaves a member list as long as the
    one it found, whatever that length; when there is an elite count [k]
    (the float product is finite) and the crossover test succeeds on every
    draw the call does return, within [size - k] iterations; and when the
    float product is an infinity the call raises [OverflowError]. *)
Theorem evolve_preserves_size (fuel : nat) (self : Population) (w : World)
  (ms : list Chromosome) :
  members self w = Some ms →
  (∀ self' w', evolve fuel self w = Done self' w' →
     ∃ ms', members self' w' = Some ms' ∧ length ms' = length ms) ∧
  (∀ k, wf_members ms →
   elite_count (len ms) (_elitism self) = Some k →
   (1 <= _crossover self)%Q ∨ crossover_always self w →
   (Z.to_nat (len ms - k) ≤ fuel)%nat →
   ∃ self' w' ms', evolve fuel self w = Done self' w' ∧
                   members self' w' = Some ms' ∧ length ms' = length ms) ∧
  (elite_count (len ms) (_elitism self) = None →
   evolve fuel self w = Raise OverflowError).
Proof.
  intros Hms.
  assert (∀ self' w', evolve fuel self w = Done self' w' →
     ∃ ms', members self' w' = Some ms' ∧ length ms' = length ms) as Hsize.
  { intros self' w' Hrun.
    destruct (evolve_Done _ _ _ _ _ Hrun)
      as (_ & _ & _ & _ & ms0 & _ & buf & Hms0 & _ & _ & Hlen & _ & Hms').
    assert (ms0 = ms) as -> by congruence.
    eexists. split; [exact Hms'|].
    rewrite length_sorted, length_take. lia. }
  split_and!; [done| |by apply evolve_overflow].
  intros k Hwf Hcount Halways Hfuel.
  destruct (evolve_returns_with_crossover fuel self w ms k)
    as (self' & w' & Hrun); [done..|].
  destruct (Hsize _ _ Hrun) as (ms' & Hms' & Hlen). by exists self', w', ms'.
Qed.

Lemma evolve_preserves_size_witness :
  ∃ self' w' ms',
    evolve 2 sample_population (sample_world low_tape) = Done self' w' ∧
    members self' w' = Some ms' ∧ length ms' = 4%nat.
Proof.
  apply (proj1 (proj2 (evolve_preserves_size 2 sample_population
                         (sample_world low_tape) sample_members eq_refl))
           2).
  - repeat constructor.
  - vm_compute. reflexivity.
  - right. intros i. vm_compute. discriminate.
  - vm_compute. lia.
Defined.

(** C6: the elite count is [k = int(round(size * elitismRate))], the
    product being the float one, that is the float nearest to the exact
    product; for a rate inside (0, 1) it is a number of members, and the
    first [k] members, the best of the generation, are in the member list
    a returning call of [evolve] leaves, as they were (gene and fitness);
    the call returns when the crossover test succeeds on every draw. *)
Theorem evolve_keeps_elite (fuel : nat) (self : Population) (w : World)
  (ms : list Chromosome) :
  members self w = Some ms → len ms ≤ 2 ^ 53 →
  (0 < _elitism self)%Q → (_elitism self < 1)%Q →
  ∃ k p,
    elite_count (len ms) (_elitism self) = Some k ∧
    float_mul (inject_Z (len ms)) (_elitism self) = Some p ∧
    (p - inject_Z (len ms) * _elitism self
     <= inject_Z (len ms) * _elitism self * 2 ^ (-53) + 2 ^ (-1075))%Q ∧
    (inject_Z (len ms) * _elitism self - p
     <= inject_Z (len ms) * _elitism self * 2 ^ (-53) + 2 ^ (-1075))%Q ∧
    (inject_Z k - (1 # 2) <= p)%Q ∧ (p < inject_Z k + (1 # 2))%Q ∧
    0 ≤ k ≤ len ms ∧
    (∀ self' w', evolve fuel self w = Done self' w' →
       ∃ ms', members self' w' = Some ms' ∧
         take (Z.to_nat k) ms ⊆+ ms' ∧
         ∀ i c, (i < Z.to_nat k)%nat → ms !! i = Some c → c ∈ ms') ∧
    (wf_members ms →
     (1 <= _crossover self)%Q ∨ crossover_always self w →
     (Z.to_nat (len ms - k) ≤ fuel)%nat →
     ∃ self' w', evolve fuel self w = Done self' w').
Proof.
  intros Hms Hsize He0 He1.
  destruct (elite_count_range (len ms) (_elitism self))
    as (k & p & Hcount & Hp & Herr1 & Herr2 & Hk1 & Hk2 & Hk);
    [unfold len in *; lia|lra|lra|].
  exists k, p. split_and!; [done|exact Hp|done|done|done|done|lia|lia| |].
  - intros self' w' Hrun.
    destruct (evolve_Done _ _ _ _ _ Hrun)
      as (_ & _ & _ & _ & ms0 & k0 & buf & Hms0 & Hk0 & Hpre & Hlen & _
          & Hms').
    assert (ms0 = ms) as -> by congruence.
    assert (k0 = k) as -> by congruence.
    rewrite slice_take in Hpre by lia.
    assert (take (Z.to_nat k) ms ⊆+ sorted _fitness (take (length ms) buf))
      as Hsub.
    { rewrite sorted_Permutation. destruct Hpre as [tl ->].
      rewrite take_app_ge, length_take
        by (rewrite length_take; unfold len in Hk; lia).
      apply submseteq_inserts_r. done. }
    eexists. split; [exact Hms'|]. split; [done|].
    intros i c Hi Hc.
    eapply elem_of_submseteq; [|exact Hsub].
    eapply list_elem_of_lookup_2. by rewrite lookup_take_lt.
  - intros Hwf Halways Hfuel.
    by apply (evolve_returns_with_crossover fuel self w ms k).
Qed.

Lemma evolve_keeps_elite_witness :
  ∃ self' w' ms',
    evolve 3 (five_population float_0_3 (3 # 4)) (five_world low_tape)
    = Done self' w' ∧
    members self' w' = Some ms' ∧
    elite_count (len five_members) float_0_3 = Some 2 ∧
    Chromosome_init (gene_of "Hello, world!") ∈ ms' ∧
    Chromosome_init (gene_of "Hello, worle!") ∈ ms'.
Proof.
  destruct (evolve_keeps_elite 3 (five_population float_0_3 (3 # 4))
              (five_world low_tape) five_members eq_refl
              ltac:(vm_compute; discriminate) eq_refl eq_refl)
    as (k & p & Hk & _ & _ & _ & _ & _ & _ & Helite & Hret).
  assert (k = 2) as ->
    by (vm_compute in Hk; by injection Hk as <-).
  destruct Hret as (self' & w' & Hrun).
  - repeat constructor.
  - right. intros i. vm_compute. discriminate.
  - vm_compute. lia.
  - destruct (Helite self' w' Hrun) as (ms' & Hms' & _ & Hin).
    exists self', w', ms'.
    split_and!; [exact Hrun|exact Hms'|vm_compute; reflexivity|..].
    + apply (Hin 0%nat); [vm_compute; lia|reflexivity].
    + apply (Hin 1%nat); [vm_compute; lia|reflexivity].
Defined.

(** The float product and the exact one: five times [0.3] is the float
    [1.5], which rounds to 2, while the exact product rounds to 1; five
    times [0.8999999999999999] is the float [4.5], which rounds to 5;
    four times [1e308] is an infinity; and the script's 2048 times [0.1]
    gives 205. *)
Lemma elite_count_examples :
  elite_count 5 float_0_3 = Some 2 ∧
  int_round (5 * float_0_3)%Q = 1 ∧
  float_mul 5 float_0_9_pred = Some (9 # 2)%Q ∧
  elite_count 5 float_0_9_pred = Some 5 ∧
  elite_count 4 float_1e308 = None ∧
  elite_count 2048 float_0_1 = Some 205.
Proof. by vm_compute. Qed.

(** At a count rounded up to the size the fill loop is skipped: the call
    returns at once, even if no crossover test can succeed; and at an
    infinite product it raises. *)
Lemma evolve_at_rounding_boundaries fuel :
  (∃ self' w',
     evolve fuel (five_population float_0_9_pred (- 1)) (five_world high_tape)
     = Done self' w' ∧ members self' w' = Some five_members) ∧
  evolve fuel (five_population float_1e308 (3 # 4)) (five_world low_tape)
  = Raise OverflowError.
Proof.
  split.
  - destruct fuel; by vm_compute; eexists _, _.
  - by apply (evolve_overflow _ _ _ five_members).
Qed.

(** * More on candidates *)

Lemma foldl_step_common_prefix g t :
  foldl fitness_step 0 (zip g t) = 0
  ↔ take (length g `min` length t) g = take (length g `min` length t) t.
Proof.
  revert t. induction g as [|a g IH]; intros [|b t]; try done.
  simpl. rewrite foldl_step_acc. unfold fitness_step at 1. simpl.
  pose proof (foldl_step_nonneg (zip g t)). specialize (IH t). split.
  - intros Hsum. assert (ord a = ord b) as ->%ord_inj by lia.
    f_equal. apply IH. lia.
  - intros [= -> Heq]. apply IH in Heq. lia.
Qed.

(** X1: the fitness is 0 exactly when the gene and the target agree on the
    positions they share, whatever the length of the gene: the empty gene,
    every prefix of the target and every extension of it have fitness 0. *)
Theorem fitness_zero_iff_common_prefix (gene : list ascii) :
  (_fitness (Chromosome_init gene) = 0
   ↔ take (length gene `min` length __target_gene) gene
     = take (length gene `min` length __target_gene) __target_gene) ∧
  (∀ n, _fitness (Chromosome_init (take n __target_gene)) = 0) ∧
  _fitness (Chromosome_init (__target_gene ++ gene)) = 0.
Proof.
  assert (∀ g, _fitness (Chromosome_init g) = 0
     ↔ take (length g `min` length __target_gene) g
       = take (length g `min` length __target_gene) __target_gene) as Hiff
    by (intros g; apply foldl_step_common_prefix).
  split_and!; [done|..].
  - intros n. apply Hiff. rewrite length_take.
    rewrite take_take. f_equal. lia.
  - apply Hiff. rewrite length_app.
    rewrite Nat.min_r by lia. by rewrite take_app_length, firstn_all.
Qed.

Lemma foldl_step_bound zs :
  Forall (λ ab, Z.abs (ord ab.1 - ord ab.2) ≤ 255) zs →
  foldl fitness_step 0 zs ≤ 255 * Z.of_nat (length zs).
Proof.
  induction 1 as [|z zs Hz _ IH]; simpl; [done|].
  rewrite foldl_step_acc. unfold fitness_step at 1. lia.
Qed.

(** X2: the fitness reads only the first 13 characters of the gene, and
    lies between 0 and 255 times the number of positions compared. *)
Theorem fitness_bounds_and_truncation (gene : list ascii) :
  _updateFitness gene = _updateFitness (take (length __target_gene) gene) ∧
  0 ≤ _updateFitness gene
    ≤ 255 * Z.of_nat (length gene `min` length __target_gene).
Proof.
  split_and!.
  - unfold _updateFitness. by rewrite zip_with_take_l.
  - apply _updateFitness_nonneg.
  - unfold _updateFitness. rewrite <-(length_zip gene __target_gene).
    apply foldl_step_bound, Forall_forall. intros [a b] _. simpl.
    pose proof (ord_range a). pose proof (ord_range b). lia.
Qed.

Lemma diff_count_insert_ne g i old x :
  g !! i = Some old → old ≠ x → diff_count g (<[i := x]> g) = 1%nat.
Proof.
  revert i. induction g as [|a g IH]; intros i Hold Hne; [done|].
  destruct i as [|i]; simpl in *; rewrite diff_count_cons.
  - injection Hold as ->. rewrite diff_count_refl.
    by destruct (decide (old = x)).
  - rewrite (IH i) by done. by destruct (decide (a = a)).
Qed.

Lemma mutated_code_differs old delta :
  0 ≤ old → 32 ≤ delta ≤ 121 → (old + delta) `mod` 122 ≠ old.
Proof.
  intros Hold Hdelta Heq.
  pose proof (Z.mod_pos_bound (old + delta) 122 ltac:(lia)) as Hm.
  pose proof (Z.div_mod (old + delta) 122 ltac:(lia)) as Hdm.
  rewrite Heq in Hdm, Hm.
  assert ((old + delta) `div` 122 = 0 ∨ 1 ≤ (old + delta) `div` 122
          ∨ (old + delta) `div` 122 < 0) as [H0|[H0|H0]] by lia; nia.
Qed.

(** X3: [mutate] never returns the gene it was given: on a non-empty gene
    the new character differs from the one it replaces, so the genes
    differ at exactly one position, and the new character has a code
    below 122. *)
Theorem mutate_always_changes (self : Chromosome) (w : World) :
  _gene self ≠ [] →
  ∃ c' idx old new,
    mutate self w = Done c' (advance 2 w) ∧
    _gene self !! idx = Some old ∧ _gene c' !! idx = Some new ∧
    new ≠ old ∧ 0 ≤ ord new < 122 ∧
    _gene c' ≠ _gene self ∧
    diff_count (_gene self) (_gene c') = 1%nat.
Proof.
  intros Hne. destruct (mutate_eq self w Hne) as (old & Hold & Hrun).
  set (delta := randint_of 0 89 (peek 0 w) + 32) in *.
  set (idx := Z.to_nat (randint_of 0 (len (_gene self) - 1) (peek 1 w))) in *.
  pose proof (randint_of_range 0 89 (peek 0 w) ltac:(lia)) as Hd.
  pose proof (Z.mod_pos_bound (ord old + delta) 122 ltac:(lia)) as Hm.
  pose proof (ord_range old) as Hold_range.
  set (new := ascii_of_N (Z.to_N ((ord old + delta) `mod` 122))) in *.
  assert (ord new = (ord old + delta) `mod` 122) as Hnew
    by (apply ord_ascii_of; lia).
  assert (new ≠ old) as Hdiff.
  { intros Heq. rewrite Heq in Hnew.
    symmetry in Hnew. revert Hnew. apply mutated_code_differs; lia. }
  eexists _, idx, old, new. split; [exact Hrun|]. simpl.
  apply lookup_lt_Some in Hold as Hlt.
  split_and!; try done.
  - by rewrite list_lookup_insert_eq.
  - lia.
  - lia.
  - intros Heq. apply (f_equal (λ l, l !! idx)) in Heq.
    rewrite list_lookup_insert_eq, Hold in Heq by done. congruence.
  - by eapply diff_count_insert_ne.
Qed.

Lemma mutate_always_changes_witness :
  ∃ c', mutate (Chromosome_init (gene_of "zz")) (draws_world [90%N; 1%N])
        = Done c' (advance 2 (draws_world [90%N; 1%N])) ∧
        _gene c' ≠ gene_of "zz".
Proof.
  destruct (mutate_always_changes (Chromosome_init (gene_of "zz"))
              (draws_world [90%N; 1%N]) ltac:(discriminate))
    as (c' & idx & old & new & Hrun & _ & _ & _ & _ & Hne & _).
  exists c'. split; [exact Hrun|exact Hne].
Defined.

(** X4: the only way [mate] and [mutate] fail is [ValueError], raised
    exactly when the gene of [self] is empty; the gene of the partner of
    [mate] may be empty. *)
Theorem variation_fails_on_empty_gene_only (self other : Chromosome)
  (w : World) :
  (mate self other w = Raise ValueError ↔ _gene self = []) ∧
  (_gene self ≠ [] → ∃ cs, mate self other w = Done cs (advance 1 w)) ∧
  (mutate self w = Raise ValueError ↔ _gene self = []) ∧
  (_gene self ≠ [] → ∃ c, mutate self w = Done c (advance 2 w)).
Proof.
  split_and!.
  - split; [|apply mate_empty].
    intros Hrun. destruct (decide (_gene self = [])) as [|Hne]; [done|].
    rewrite mate_eq in Hrun by done. discriminate Hrun.
  - intros Hne. eexists. by apply mate_eq.
  - split; [|apply mutate_empty].
    intros Hrun. destruct (decide (_gene self = [])) as [|Hne]; [done|].
    destruct (mutate_eq self w Hne) as (old & _ & Heq).
    rewrite Heq in Hrun. discriminate Hrun.
  - intros Hne. destruct (mutate_eq self w Hne) as (old & _ & Heq). eauto.
Qed.

Lemma variation_fails_on_empty_gene_only_witness :
  mate (Chromosome_init []) (Chromosome_init (gene_of "abc"))
    (draws_world []) = Raise ValueError ∧
  ∃ cs, mate (Chromosome_init (gene_of "abc")) (Chromosome_init [])
          (draws_world [2%N]) = Done cs (advance 1 (draws_world [2%N])).
Proof.
  split.
  - apply (proj1 (variation_fails_on_empty_gene_only (Chromosome_init [])
                    (Chromosome_init (gene_of "abc")) (draws_world []))).
    reflexivity.
  - apply (proj1 (proj2 (variation_fails_on_empty_gene_only
                           (Chromosome_init (gene_of "abc"))
                           (Chromosome_init []) (draws_world [2%N])))).
    discriminate.
Defined.

Lemma crossover_at_Permutation pivot g1 g2 :
  crossover_at pivot g1 g2 ++ crossover_at pivot g2 g1 ≡ₚ g1 ++ g2.
Proof.
  unfold crossover_at.
  trans ((take pivot g1 ++ drop pivot g1) ++ (take pivot g2 ++ drop pivot g2));
    [|by rewrite !take_drop].
  rewrite <-!app_assoc. apply Permutation_app_head.
  etrans; [apply Permutation_app_comm|]. rewrite <-app_assoc.
  apply Permutation_app_swap_app.
Qed.

(** X5: crossover moves characters, it neither makes nor loses any: the
    characters of the two children are those of the two parents, counted
    with repetitions, whatever the lengths; and for parents of one length,
    at each position the two children hold the two parents' characters of
    that position, in one order or the other. *)
Theorem mate_conserves_characters (self other : Chromosome) (w : World)
  (c1 c2 : Chromosome) (w' : World) :
  mate self other w = Done (c1, c2) w' →
  _gene c1 ++ _gene c2 ≡ₚ _gene self ++ _gene other ∧
  (length (_gene c1) + length (_gene c2)
   = length (_gene self) + length (_gene other))%nat ∧
  (length (_gene self) = length (_gene other) →
   ∀ i, (_gene c1 !! i = _gene self !! i ∧ _gene c2 !! i = _gene other !! i) ∨
        (_gene c1 !! i = _gene other !! i ∧ _gene c2 !! i = _gene self !! i)).
Proof.
  intros Hrun. destruct (decide (_gene self = [])) as [Hnil|Hne].
  { by rewrite mate_empty in Hrun. }
  rewrite mate_eq in Hrun by done.
  set (pivot := Z.to_nat (randint_of 0 (len (_gene self) - 1) (peek 0 w)))
    in *.
  injection Hrun as <- <- <-. change (_gene (Chromosome_init ?g)) with g.
  assert (pivot ≤ length (_gene self))%nat as Hpivot.
  { pose proof (randint_of_range 0 _ (peek 0 w) (length_gene_len _ Hne)).
    unfold pivot, len in *. lia. }
  split_and!.
  - apply crossover_at_Permutation.
  - pose proof (crossover_at_Permutation pivot (_gene self) (_gene other))
      as Hperm.
    apply Permutation_length in Hperm. rewrite !length_app in Hperm. lia.
  - intros Hlen i. unfold crossover_at.
    destruct (decide (i < pivot)%nat) as [Hi|Hi].
    + left. rewrite !lookup_app_l by (rewrite length_take; lia).
      by rewrite !lookup_take_lt.
    + right. rewrite !lookup_app_r by (rewrite length_take; lia).
      rewrite !length_take, !lookup_drop. split; f_equal; lia.
Qed.

Lemma mate_conserves_characters_witness :
  ∃ c1 c2 w',
    mate (Chromosome_init (gene_of "abcdef")) (Chromosome_init (gene_of "x"))
      (draws_world [3%N]) = Done (c1, c2) w' ∧
    _gene c1 ++ _gene c2 ≡ₚ gene_of "abcdef" ++ gene_of "x".
Proof.
  destruct (mate (Chromosome_init (gene_of "abcdef"))
              (Chromosome_init (gene_of "x")) (draws_world [3%N]))
    as [[c1 c2] w'|e|] eqn:Hrun;
    [|exfalso; vm_compute in Hrun; discriminate Hrun..].
  exists c1, c2, w'. split; [reflexivity|].
  exact (proj1 (mate_conserves_characters _ _ _ _ _ _ Hrun)).
Defined.

(** * Random candidates and the first generation *)

Lemma genRandom_loop_eq n gene w :
  for_range n
    (λ gene, r ← randint 0 89; c ← chr (r + 32); mret (gene ++ [c])) gene w
  = Done (gene ++ ((λ i, random_char (peek i w)) <$> seq 0 n)) (advance n w).
Proof.
  revert gene w. induction n as [|n IH]; intros gene w.
  - simpl. by rewrite app_nil_r, advance_0.
  - cbn [for_range].
    pose proof (randint_of_range 0 89 (peek 0 w) ltac:(lia)) as Hr.
    erewrite bind_Done.
    2:{ rewrite (bind_Done _ _ _ _ _ (randint_eq 0 89 w ltac:(lia))).
        erewrite bind_Done by (apply chr_eq; lia). done. }
    rewrite IH. rewrite advance_advance, <-app_assoc.
    replace (n + 1)%nat with (S n) by lia. f_equal. f_equal.
    cbn [seq fmap list_fmap]. f_equal.
    rewrite <-fmap_S_seq, <-list_fmap_compose.
    apply list_fmap_ext. intros i j _. simpl.
    by rewrite peek_advance, Nat.add_1_r.
Qed.

Lemma genRandom_eq w :
  genRandom w
  = Done (Chromosome_init
            ((λ i, random_char (peek i w)) <$> seq 0 (length __target_gene)))
         (advance (length __target_gene) w).
Proof.
  unfold genRandom. by rewrite (bind_Done _ _ _ _ _ (genRandom_loop_eq _ _ _)).
Qed.

Lemma random_char_range raw : 32 ≤ ord (random_char raw) ≤ 121.
Proof.
  unfold random_char.
  pose proof (randint_of_range 0 89 raw ltac:(lia)).
  rewrite ord_ascii_of; lia.
Qed.

(** X6: [genRandom] always returns, after 13 draws, a candidate whose
    gene has the length of the target, its [i]-th character made of the
    [i]-th draw, with a code from 32 to 121; and every gene of that length
    and alphabet, the target included, is returned for some source. *)
Theorem genRandom_spec (w : World) :
  (∃ c, genRandom w = Done c (advance 13 w) ∧
        length (_gene c) = 13%nat ∧
        (∀ i, (i < 13)%nat →
              _gene c !! i = Some (random_char (peek i w))) ∧
        Forall (λ a, 32 ≤ ord a ≤ 121) (_gene c) ∧
        _fitness c = _updateFitness (_gene c)) ∧
  (∀ gene, length gene = 13%nat → Forall (λ a, 32 ≤ ord a ≤ 121) gene →
     ∃ w0, genRandom w0 = Done (Chromosome_init gene) (advance 13 w0)).
Proof.
  split.
  - exists (Chromosome_init ((λ i, random_char (peek i w)) <$> seq 0 13)).
    split; [apply genRandom_eq|]. cbn [_gene _fitness Chromosome_init].
    split_and!.
    + by rewrite length_fmap, length_seq.
    + intros i Hi. by rewrite list_lookup_fmap, lookup_seq_lt.
    + apply Forall_fmap, Forall_forall. intros i _. apply random_char_range.
    + done.
  - intros gene Hlen Hcodes.
    exists (draws_world ((λ a, Z.to_N (ord a - 32)) <$> gene)).
    rewrite genRandom_eq. do 2 f_equal.
    apply list_eq. intros i.
    rewrite list_lookup_fmap.
    destruct (decide (i < 13)%nat) as [Hi|Hi].
    + rewrite lookup_seq_lt by done. simpl.
      destruct (lookup_lt_is_Some_2 gene i) as [a Ha]; [lia|].
      rewrite Ha. f_equal.
      unfold random_char, peek, draws_world, tape_of. simpl.
      rewrite Nat.add_0_r, list_lookup_fmap, Ha. simpl.
      eapply Forall_lookup_1 in Hcodes; [|exact Ha]. simpl in Hcodes.
      unfold randint_of. rewrite Z2N.id by lia.
      rewrite Z.mod_small by lia. apply ord_inj.
      pose proof (ord_range a). rewrite ord_ascii_of; lia.
    + rewrite lookup_seq_ge by (simpl; lia). simpl.
      symmetry. apply lookup_ge_None_2. lia.
Qed.

Lemma genRandom_spec_witness :
  ∃ w0, genRandom w0 = Done (Chromosome_init __target_gene) (advance 13 w0) ∧
        _fitness (Chromosome_init __target_gene) = 0.
Proof.
  destruct (proj2 (genRandom_spec (draws_world [])) __target_gene eq_refl)
    as [w0 Hrun].
  - repeat constructor; vm_compute; discriminate.
  - exists w0. split; [exact Hrun|reflexivity].
Defined.

Lemma wp_Population_init_candidates size c e m w :
  wp (Population_init size c e m) w (λ self w',
    after w w' ∧
    pos (rng w') = (13 * Z.to_nat size + pos (rng w))%nat ∧
    _crossover self = c ∧ _elitism self = e ∧ _mutation self = m ∧
    ∃ ms, members self w' = Some ms ∧ nondecreasing ms ∧
          length ms = Z.to_nat size ∧
          Forall (λ x, wf_chromosome x ∧
                       Forall (λ a, 32 ≤ ord a ≤ 121) (_gene x)) ms).
Proof.
  unfold Population_init. apply wp_bind.
  cut (∀ n buf w0,
    wp (for_range n (λ buf, c ← genRandom; mret (buf ++ [c])) buf) w0
       (λ buf' w', ∃ new, buf' = buf ++ new ∧ length new = n ∧
          Forall (λ x, wf_chromosome x ∧
                       Forall (λ a, 32 ≤ ord a ≤ 121) (_gene x)) new ∧
          w' = advance (13 * n) w0)).
  { intros Hloop. eapply wp_mono; [apply Hloop|].
    intros buf w1 (new & -> & Hlen & Hall & ->).
    apply wp_bind. eapply wp_mono; [apply wp_alloc|].
    intros r w2 (Hr & Hh & Hrng). apply wp_ret.
    destruct (alloc_after _ _ _ _ Hr Hh Hrng) as [Hafter' Hl].
    split_and!; [| |done..|].
    - etrans; [apply after_advance|done].
    - by rewrite Hrng.
    - eexists. split; [exact Hl|]. split_and!.
      + apply sorted_nondecreasing.
      + by rewrite length_sorted.
      + by rewrite sorted_Permutation. }
  induction n as [|n IH]; intros buf w0.
  - apply wp_ret. exists []. rewrite app_nil_r, advance_0.
    split_and!; [done|done|constructor|done].
  - cbn [for_range]. do 2 apply wp_bind.
    eapply wp_mono; [apply wp_genRandom|].
    intros c0 w1 (Hc & Hcodes & ->). apply wp_ret.
    eapply wp_mono; [apply IH|].
    intros buf' w' (new & -> & Hlen & Hall & ->).
    exists (c0 :: new). rewrite <-app_assoc.
    split_and!; [done|by simpl; rewrite Hlen|by constructor|].
    rewrite advance_advance. change (length __target_gene) with 13%nat.
    f_equal. lia.
Qed.

(** X7: the constructor always returns, after 13 draws per member, a
    population that stores the rates it was given and holds
    [max(size, 0)] members, sorted, each with a gene of the length of the
    target made of characters of codes 32 to 121 and with the fitness of
    its gene; a size of 0 or below gives the empty population. *)
Theorem Population_init_spec (size : Z) (c e m : Q) (w : World) :
  ∃ self w' ms,
    Population_init size c e m w = Done self w' ∧
    members self w' = Some ms ∧
    _crossover self = c ∧ _elitism self = e ∧ _mutation self = m ∧
    len ms = Z.max size 0 ∧
    (size ≤ 0 → ms = []) ∧
    nondecreasing ms ∧
    Forall (λ x, wf_chromosome x ∧
                 Forall (λ a, 32 ≤ ord a ≤ 121) (_gene x)) ms ∧
    pos (rng w') = (13 * length ms + pos (rng w))%nat ∧
    heap w ⊆ heap w'.
Proof.
  pose proof (wp_Population_init_candidates size c e m w) as Hwp.
  apply wp_Done in Hwp
    as (self & w' & Hrun & [_ Hheap] & Hpos & Hc & He & Hm & ms & Hms & Hnd
        & Hlen & Hall).
  exists self, w', ms. split_and!; try done.
  - unfold len. lia.
  - intros Hsize. apply length_zero_iff_nil. lia.
  - by rewrite Hlen.
Qed.

(** * What generations keep *)

Lemma wlp_append_child_kept (P : Chromosome → Prop) self c buf w :
  kept_by_variation P → P c →
  wlp (append_child self c buf) w (λ buf' w',
    members self w' = members self w ∧ ∃ m, buf' = buf ++ [m] ∧ P m).
Proof.
  intros [_ Hmutate] Hc. unfold append_child.
  apply wlp_bind, wp_wlp. eapply wp_eq; [apply random_eq|].
  destruct (Qle_bool _ (_mutation self)).
  - apply wlp_bind, wlp_Done. intros m w2 Hrun. apply wlp_ret.
    pose proof (wlp_mutate c (advance 1 w)) as Hw. unfold wlp in Hw.
    rewrite Hrun in Hw. destruct Hw as (-> & _).
    split; [done|]. exists m. split; [done|]. by eapply Hmutate.
  - apply wlp_ret. split; [done|]. by exists c.
Qed.

Lemma wlp_evolve_body_kept (P : Chromosome → Prop) self ms st w :
  kept_by_variation P →
  members self w = Some ms → Forall P ms → Forall P st.2 →
  wlp (evolve_body self st) w (λ st' w',
    members self w' = Some ms ∧ Forall P st'.2).
Proof.
  intros Hkept Hms HPms HPbuf. destruct st as [idx buf]. simpl in HPbuf.
  unfold evolve_body.
  apply wlp_bind, wp_wlp. eapply wp_eq; [apply random_eq|].
  destruct (Qle_bool _ (_crossover self)).
  - apply wlp_bind. eapply wlp_mono; [apply wlp_selectParents|].
    intros [p1 p2] w2 (_ & Hms2 & Hps).
    destruct (Hps ms Hms) as [Hp1 Hp2]. simpl in Hp1, Hp2.
    apply wlp_bind, wlp_Done. intros [c1 c2] w3 Hmate.
    pose proof (wlp_mate p1 p2 w2) as Hw. unfold wlp in Hw.
    rewrite Hmate in Hw. destruct Hw as (-> & _).
    assert (P c1 ∧ P c2) as [Hc1 Hc2].
    { eapply (proj1 Hkept p1 p2); [..|exact Hmate].
      - by eapply Forall_forall in HPms.
      - by eapply Forall_forall in HPms. }
    apply wlp_bind. cbn [for_each]. apply wlp_bind.
    eapply wlp_mono; [by apply (wlp_append_child_kept P)|].
    intros buf1 w4 (Hms4 & m1 & -> & Hm1). apply wlp_bind.
    eapply wlp_mono; [by apply (wlp_append_child_kept P)|].
    intros buf2 w5 (Hms5 & m2 & -> & Hm2). do 2 apply wlp_ret.
    split.
    + rewrite Hms5, Hms4. unfold members in *. simpl in *. congruence.
    + simpl. rewrite !Forall_app. by repeat split; try constructor.
  - apply wlp_bind, wp_wlp. eapply wp_eq; [apply random_eq|].
    destruct (Qle_bool _ (_mutation self)).
    + apply wlp_bind. eapply wlp_mono; [apply wlp_load|].
      intros own w3 (Hown & ->). apply wlp_bind.
      eapply wlp_mono; [apply wlp_getitem|]. intros c w3 (Hc & ->).
      assert (own = ms) as -> by (unfold members in *; simpl in *; congruence).
      apply wlp_bind, wlp_Done. intros m w4 Hrun. apply wlp_ret.
      pose proof (wlp_mutate c (advance 1 (advance 1 w))) as Hw.
      unfold wlp in Hw. rewrite Hrun in Hw. destruct Hw as (-> & _).
      split; [done|]. simpl. rewrite Forall_app. split; [done|].
      constructor; [|done]. eapply (proj2 Hkept); [|exact Hrun].
      by eapply Forall_forall in HPms.
    + apply wlp_bind. eapply wlp_mono; [apply wlp_load|].
      intros own w3 (Hown & ->). apply wlp_bind.
      eapply wlp_mono; [apply wlp_getitem|]. intros c w3 (Hc & ->).
      assert (own = ms) as -> by (unfold members in *; simpl in *; congruence).
      apply wlp_ret. split; [done|]. simpl. rewrite Forall_app.
      split; [done|]. constructor; [|done]. by eapply Forall_forall in HPms.
Qed.

(** A property of candidates that crossover and mutation keep holds of
    every member of the next generation when it holds of every member of
    this one. *)
Lemma evolve_keeps_property (P : Chromosome → Prop) fuel self w ms self' w' :
  kept_by_variation P →
  members self w = Some ms → Forall P ms →
  evolve fuel self w = Done self' w' →
  ∃ ms', members self' w' = Some ms' ∧ Forall P ms'.
Proof.
  intros Hkept Hms HP Hrun.
  cut (wlp (evolve fuel self) w (λ self' w',
         ∃ ms', members self' w' = Some ms' ∧ Forall P ms')).
  { intros Hwlp. unfold wlp in Hwlp. by rewrite Hrun in Hwlp. }
  unfold evolve. apply wlp_bind. eapply wlp_mono; [apply wlp_load|].
  intros own w1 (Hown & ->).
  assert (own = ms) as -> by (unfold members in *; congruence).
  destruct (elite_count (len ms) (_elitism self)) as [k|];
    [|apply wlp_bind, wlp_raise].
  apply wlp_bind, wlp_ret.
  apply wlp_bind. eapply wlp_mono.
  { apply (wlp_while (λ st w', members self w' = Some ms ∧ Forall P st.2)).
    - split; [done|]. simpl.
      destruct (slice_prefix ms k) as [tl Htl].
      rewrite Htl in HP. by apply Forall_app in HP as [? _].
    - intros st w2 [Hms2 HPst] _. by apply wlp_evolve_body_kept. }
  intros [idx buf] w2 [[Hms2 HPbuf] _]. simpl in HPbuf.
  apply wlp_bind, wp_wlp. eapply wp_mono; [apply wp_alloc|].
  intros r w3 (Hr & Hh & Hrng). apply wlp_ret.
  destruct (alloc_after _ _ _ _ Hr Hh Hrng) as [_ Hl].
  eexists. split; [exact Hl|].
  rewrite sorted_Permutation.
  destruct (slice_prefix buf (len ms)) as [tl Htl].
  rewrite Htl in HPbuf. by apply Forall_app in HPbuf as [? _].
Qed.

Lemma candidate_ok_kept : kept_by_variation candidate_ok.
Proof.
  split.
  - intros a b w c1 c2 w' [[Hla _] Hca] [[Hlb _] Hcb] Hrun.
    assert (_gene a ≠ []) as Hne
      by (intros Hnil; rewrite Hnil in Hla; discriminate Hla).
    rewrite mate_eq in Hrun by done. injection Hrun as <- <- <-.
    unfold candidate_ok, wf_chromosome.
    cbn [_gene _fitness Chromosome_init].
    split; (split_and!; [|done|]).
    + rewrite length_crossover_at; congruence.
    + apply Forall_app. split; [by apply Forall_take|by apply Forall_drop].
    + rewrite length_crossover_at; congruence.
    + apply Forall_app. split; [by apply Forall_take|by apply Forall_drop].
  - intros a w c w' [[Hla _] Hca] Hrun.
    assert (_gene a ≠ []) as Hne
      by (intros Hnil; rewrite Hnil in Hla; discriminate Hla).
    destruct (mutate_eq a w Hne) as (old & Hold & Heq).
    rewrite Heq in Hrun. injection Hrun as <- <-.
    unfold candidate_ok, wf_chromosome.
    cbn [_gene _fitness Chromosome_init].
    split_and!; [by rewrite length_insert|done|].
    apply Forall_insert; [done|]. cbv beta.
    match goal with
    | |- ord (ascii_of_N (Z.to_N (?x `mod` 122))) ≤ 121 =>
        pose proof (Z.mod_pos_bound x 122 ltac:(lia))
    end.
    rewrite ord_ascii_of; lia.
Qed.

Lemma reachable_members_ok (self : Population) (w : World) :
  reachable self w →
  ∃ ms, members self w = Some ms ∧ nondecreasing ms ∧
        Forall candidate_ok ms.
Proof.
  induction 1 as [size c e m w self w' Hrun
                 |fuel self w self' w' _ (ms & Hms & Hnd & Hok) Hrun
                 |self w w' _ (ms & Hms & Hnd & Hok) Hframe].
  - pose proof (wp_Population_init_candidates size c e m w) as Hwp.
    unfold wp in Hwp. rewrite Hrun in Hwp.
    destruct Hwp as (_ & _ & _ & _ & _ & ms & Hms & Hnd & _ & Hall).
    exists ms. split_and!; [done..|].
    eapply Forall_impl; [exact Hall|].
    intros x [Hwf Hcodes]. split; [done|].
    eapply Forall_impl; [exact Hcodes|]. simpl. lia.
  - destruct (evolve_keeps_property candidate_ok _ _ _ _ _ _
                candidate_ok_kept Hms Hok Hrun) as (ms' & Hms' & Hok').
    destruct (evolve_Done _ _ _ _ _ Hrun)
      as (_ & _ & _ & _ & ms0 & _ & buf & _ & _ & _ & _ & _ & Hsorted).
    exists ms'. split_and!; [done| |done].
    rewrite Hms' in Hsorted. injection Hsorted as ->.
    apply sorted_nondecreasing.
  - exists ms. split_and!; [congruence|done..].
Qed.

(** X8: whatever a program does with a population (construct it, evolve it
    any number of times, draw numbers, allocate and change other lists),
    the population holds a live list of members, sorted by fitness, and each
    member has a gene of the length of the target, of characters of codes
    up to 121, and stores the fitness of its gene. *)
Theorem reachable_population_invariant (self : Population) (w : World) :
  reachable self w →
  ∃ ms, members self w = Some ms ∧ nondecreasing ms ∧
        Forall candidate_ok ms.
Proof. apply reachable_members_ok. Qed.

Lemma reachable_population_invariant_witness :
  ∃ self w ms,
    Population_init 2 (3 # 4) (1 # 2) (1 # 4) (draws_world []) = Done self w ∧
    members self w = Some ms ∧ Forall candidate_ok ms.
Proof.
  destruct (Population_init 2 (3 # 4) (1 # 2) (1 # 4) (draws_world []))
    as [self w|e|] eqn:Hrun;
    [|exfalso; vm_compute in Hrun; discriminate Hrun..].
  destruct (reachable_population_invariant self w
              (reachable_init _ _ _ _ _ _ _ Hrun)) as (ms & Hms & _ & Hok).
  exists self, w, ms. split_and!; [reflexivity|assumption..].
Defined.

(** * Calls that do not raise *)

Lemma no_raise_bind {A B} (m : M A) (f : A → M B) w :
  no_raise (m w) → (∀ a w', m w = Done a w' → no_raise (f a w')) →
  no_raise ((m ≫= f) w).
Proof.
  unfold mbind, M_bind. destruct (m w) as [a w'|e|]; [|done..].
  intros _ Hf. by apply Hf.
Qed.

Lemma while_no_raise {S} (I : S → World → Prop) cond (body : S → M S) :
  (∀ s w, I s w → cond s = true → wp (body s) w I) →
  ∀ fuel s w, I s w → no_raise (while fuel cond body s w).
Proof.
  intros Hbody fuel. induction fuel as [|fuel IH]; intros s w Hs; simpl;
    destruct (cond s) eqn:Hc; try done.
  apply no_raise_bind.
  - specialize (Hbody s w Hs Hc). unfold wp in Hbody.
    by destruct (body s w).
  - intros s' w' Hrun. apply IH.
    specialize (Hbody s w Hs Hc). unfold wp in Hbody.
    by rewrite Hrun in Hbody.
Qed.

(** On a live population of well-formed members whose elite count is at
    least [-size], no iteration of the fill loop raises. *)
Lemma evolve_no_raise fuel self w ms k :
  members self w = Some ms → wf_members ms →
  elite_count (len ms) (_elitism self) = Some k →
  - len ms ≤ k →
  no_raise (evolve fuel self w).
Proof.
  intros Hms Hwf Hcount Hk.
  rewrite (evolve_unfold _ _ _ _ _ Hms Hcount).
  apply no_raise_bind; [|done].
  apply (while_no_raise
           (λ st w', k ≤ st.1 ∧ members self w' = Some ms)); [|done].
  intros [idx buf] w' [Hidx Hms'] Hcond. simpl in *.
  apply Z.ltb_lt in Hcond.
  destruct (Qle_bool (random_of (peek 0 w')) (_crossover self)) eqn:Htest.
  - assert (ms ≠ []) as Hne.
    { intros ->. rewrite elite_count_0 in Hcount.
      unfold len in Hcond. simpl in Hcond. simplify_eq. lia. }
    eapply wp_mono; [by apply (wp_evolve_body_then self ms)|].
    intros st w'' (Hst & _ & ?). split; [lia|done].
  - eapply wp_mono; [apply (wp_evolve_body_else self ms); [done..|lia|done]|].
    intros st w'' (Hst & _ & ?). split; [lia|done].
Qed.

(** X9: a population built by the constructor with an elitism rate of 0
    or more, however often it was evolved and whatever the source draws,
    raises in [evolve] nothing but [OverflowError], and that exactly when
    the float product of its size and its elitism rate is an infinity;
    otherwise the call returns or keeps running.  It never raises for a
    rate of up to 1 (and a size of up to [2^53]). *)
Theorem evolve_raises_on_overflow_only (fuel : nat) (self : Population)
  (w : World) (ms : list Chromosome) :
  reachable self w → members self w = Some ms → (0 <= _elitism self)%Q →
  (elite_count (len ms) (_elitism self) = None →
   evolve fuel self w = Raise OverflowError) ∧
  (elite_count (len ms) (_elitism self) ≠ None →
   no_raise (evolve fuel self w)) ∧
  ((_elitism self <= 1)%Q → len ms ≤ 2 ^ 53 →
   no_raise (evolve fuel self w)).
Proof.
  intros Hreach Hms He.
  destruct (reachable_members_ok self w Hreach) as (ms0 & Hms0 & _ & Hok).
  assert (ms0 = ms) as -> by congruence.
  assert (wf_members ms) as Hwf
    by (eapply Forall_impl; [exact Hok|]; by intros c [Hwf _]).
  assert (∀ k, elite_count (len ms) (_elitism self) = Some k →
               no_raise (evolve fuel self w)) as Hsome.
  { intros k Hcount. apply (evolve_no_raise fuel self w ms k); [done..|].
    pose proof (elite_count_of_nonneg (len ms) (_elitism self) k
                  ltac:(unfold len; lia) He Hcount). unfold len in *. lia. }
  split_and!.
  - by apply evolve_overflow.
  - destruct (elite_count _ _) as [k|] eqn:Hcount; [|done].
    intros _. by apply (Hsome k).
  - intros He1 Hsize.
    destruct (elite_count_range (len ms) (_elitism self))
      as (k & _ & Hcount & _); [unfold len in *; lia|done..|].
    by apply (Hsome k).
Qed.

Lemma evolve_raises_on_overflow_only_witness :
  ∃ self w,
    Population_init 2 (3 # 4) (1 # 2) (1 # 4) (draws_world []) = Done self w ∧
    no_raise (evolve 5 self w).
Proof.
  destruct (Population_init 2 (3 # 4) (1 # 2) (1 # 4) (draws_world []))
    as [self w|e|] eqn:Hrun;
    [|exfalso; vm_compute in Hrun; discriminate Hrun..].
  exists self, w. split; [reflexivity|].
  pose proof (wp_Population_init_candidates 2 (3 # 4) (1 # 2) (1 # 4)
                (draws_world [])) as Hwp.
  unfold wp in Hwp. rewrite Hrun in Hwp.
  destruct Hwp as (_ & _ & _ & He & _ & ms & Hms & _ & Hlen & _).
  apply (evolve_raises_on_overflow_only 5 self w ms
           (reachable_init _ _ _ _ _ _ _ Hrun) Hms).
  - rewrite He. discriminate.
  - rewrite He. discriminate.
  - unfold len. rewrite Hlen. vm_compute. discriminate.
Defined.

(** * Generations that only copy *)

Lemma nondecreasing_tail c ms : nondecreasing (c :: ms) → nondecreasing ms.
Proof. intros Hnd i j a b Hij Ha Hb. apply (Hnd (S i) (S j)); [lia|done..]. Qed.

Lemma sorted_of_nondecreasing ms : nondecreasing ms → sorted _fitness ms = ms.
Proof.
  induction ms as [|c ms IH]; intros Hnd; [done|].
  simpl. rewrite IH by (by eapply nondecreasing_tail).
  destruct ms as [|c' ms]; [done|]. simpl.
  pose proof (Hnd 0%nat 1%nat c c' ltac:(lia) eq_refl eq_refl) as Hle.
  by destruct (_fitness c <=? _fitness c') eqn:E; [|lia].
Qed.

Lemma sample_members_nondecreasing : nondecreasing sample_members.
Proof.
  replace sample_members with (sorted _fitness sample_members)
    by (vm_compute; reflexivity).
  apply sorted_nondecreasing.
Qed.

Lemma evolve_full_elite_eq fuel self w ms k :
  members self w = Some ms →
  elite_count (len ms) (_elitism self) = Some k →
  len ms ≤ k →
  evolve fuel self w
  = Done {| _elitism := _elitism self; _mutation := _mutation self;
            _crossover := _crossover self;
            _population := fresh (dom (heap w)) |}
         {| rng := rng w;
            heap := <[fresh (dom (heap w)) := sorted _fitness ms]> (heap w) |}.
Proof.
  intros Hms Hcount Hk. rewrite (evolve_unfold _ _ _ _ _ Hms Hcount).
  assert (slice ms 0 k = ms) as ->.
  { rewrite slice_take by (unfold len in *; lia).
    apply take_ge. unfold len in *. lia. }
  assert (while fuel (λ st : Z * list Chromosome, st.1 <? len ms)
            (evolve_body self) (k, ms) w = Done (k, ms) w) as Hloop.
  { destruct fuel; simpl; by destruct (k <? len ms) eqn:E; [lia|]. }
  rewrite (bind_Done _ _ _ _ _ Hloop). simpl.
  assert (slice ms 0 (len ms) = ms) as ->.
  { rewrite slice_take by (unfold len; lia).
    apply take_ge. unfold len. lia. }
  done.
Qed.

(** X10: when every member is elite, that is when the elite count is at
    least the size (as for an empty population, and for an elitism rate of
    1 or more whose float product with the size, of up to [2^53], is
    finite), [evolve] returns with any fuel, without a draw, and the new
    member list is a new list with the old members in the old order. *)
Theorem evolve_with_full_elite_copies (fuel : nat) (self : Population)
  (w : World) (ms : list Chromosome) (k : Z) :
  members self w = Some ms → nondecreasing ms →
  elite_count (len ms) (_elitism self) = Some k →
  len ms ≤ k ∨ (1 <= _elitism self)%Q ∧ len ms ≤ 2 ^ 53 ∨ ms = [] →
  ∃ self' w',
    evolve fuel self w = Done self' w' ∧
    members self' w' = Some ms ∧ rng w' = rng w ∧
    _population self' ≠ _population self.
Proof.
  intros Hms Hnd Hcount Hfull.
  assert (len ms ≤ k) as Hk.
  { destruct Hfull as [Hk|[[He Hsize]| ->]]; [done| |].
    - apply (elite_count_full (len ms) (_elitism self)); [|done..].
      unfold len in *. lia.
    - rewrite elite_count_0 in Hcount. by injection Hcount as <-. }
  eexists _, _. split; [by apply (evolve_full_elite_eq fuel self w ms k)|].
  unfold members. simpl. split_and!.
  - by rewrite lookup_insert_eq, sorted_of_nondecreasing.
  - done.
  - by eapply fresh_ne.
Qed.

Lemma evolve_with_full_elite_copies_witness :
  ∃ self' w',
    evolve 0 {| _elitism := 1; _mutation := 1 # 4; _crossover := 3 # 4;
                _population := 1%positive |} (sample_world high_tape)
    = Done self' w' ∧
    members self' w' = Some sample_members.
Proof.
  destruct (evolve_with_full_elite_copies 0
              {| _elitism := 1; _mutation := 1 # 4; _crossover := 3 # 4;
                 _population := 1%positive |}
              (sample_world high_tape) sample_members 4 eq_refl)
    as (self' & w' & Hrun & Hms & _).
  - apply sample_members_nondecreasing.
  - vm_compute. reflexivity.
  - right. left. split; [discriminate|vm_compute; discriminate].
  - exists self', w'. split; [exact Hrun|exact Hms].
Defined.

(** * The best member *)

(** X11: with an elite count of 1 or more the best member survives a
    generation: after a call of [evolve] that returns, the old first member
    is still a member and the new first member is at least as fit; a
    population of well-formed members whose first member has fitness 0
    keeps a first member of fitness 0. *)
Theorem evolve_never_worsens_best (fuel : nat) (self : Population)
  (w : World) (ms : list Chromosome) (best : Chromosome)
  (self' : Population) (w' : World) :
  members self w = Some ms → ms !! 0%nat = Some best →
  (∀ k, elite_count (len ms) (_elitism self) = Some k → 1 ≤ k) →
  evolve fuel self w = Done self' w' →
  ∃ ms' best',
    members self' w' = Some ms' ∧ ms' !! 0%nat = Some best' ∧
    best ∈ ms' ∧ _fitness best' ≤ _fitness best ∧
    (wf_members ms → _fitness best = 0 → _fitness best' = 0).
Proof.
  intros Hms Hbest Hk Hrun.
  destruct (evolve_Done _ _ _ _ _ Hrun)
    as (_ & _ & _ & _ & ms0 & k & buf & Hms0 & Hcount & Hpre & Hlen
        & Hwfbuf & Hms').
  assert (ms0 = ms) as -> by congruence.
  specialize (Hk k Hcount).
  rewrite slice_take in Hpre by lia.
  assert (buf !! 0%nat = Some best) as Hbuf0.
  { destruct Hpre as [tl ->]. rewrite lookup_app_l.
    - rewrite lookup_take_lt by lia. done.
    - rewrite length_take. apply lookup_lt_Some in Hbest. lia. }
  apply lookup_lt_Some in Hbest as Hlt.
  assert (best ∈ sorted _fitness (take (length ms) buf)) as Hin.
  { rewrite sorted_Permutation.
    eapply list_elem_of_lookup_2. by rewrite lookup_take_lt. }
  destruct (lookup_lt_is_Some_2 (sorted _fitness (take (length ms) buf))
              0%nat) as [best' Hbest'].
  { rewrite length_sorted, length_take. lia. }
  pose proof (nondecreasing_head _ best' best (sorted_nondecreasing _)
                Hbest' Hin) as Hle.
  eexists _, best'. split_and!; [exact Hms'|done..|].
  intros Hwf Hzero.
  assert (fitness_ok best') as Hok.
  { assert (wf_members (sorted _fitness (take (length ms) buf))) as Hwf'.
    { unfold wf_members. rewrite sorted_Permutation.
      apply Forall_take. by apply Hwfbuf. }
    eapply wf_members_elem_of in Hwf' as [_ ?]; [done|].
    by eapply list_elem_of_lookup_2. }
  rewrite Hok in *. pose proof (_updateFitness_nonneg (_gene best')). lia.
Qed.

Lemma evolve_never_worsens_best_witness :
  ∃ self' w' ms' best',
    evolve 2 sample_population (sample_world low_tape) = Done self' w' ∧
    members self' w' = Some ms' ∧ ms' !! 0%nat = Some best' ∧
    _fitness best' = 0.
Proof.
  destruct (evolve 2 sample_population (sample_world low_tape))
    as [self' w'|e|] eqn:Hrun;
    [|exfalso; vm_compute in Hrun; discriminate Hrun..].
  destruct (evolve_never_worsens_best 2 sample_population
              (sample_world low_tape) sample_members
              (Chromosome_init (gene_of "Hello, world!")) self' w'
              eq_refl eq_refl
              ltac:(intros k Hk; vm_compute in Hk; injection Hk as <-;
                    discriminate) Hrun)
    as (ms' & best' & Hms' & Hbest' & _ & _ & Hzero).
  exists self', w', ms', best'.
  split_and!; [reflexivity|assumption|assumption|].
  apply Hzero; [repeat constructor|reflexivity].
Defined.

(** * Generations and the store *)

Lemma wlp_evolve_store fuel self w :
  wlp (evolve fuel self) w (λ self' w',
    after w w' ∧ heap w !! _population self' = None).
Proof.
  unfold evolve. apply wlp_bind. eapply wlp_mono; [apply wlp_load|].
  intros own w1 (Hown & ->).
  destruct (elite_count (len own) (_elitism self)) as [k|];
    [|apply wlp_bind, wlp_raise].
  apply wlp_bind, wlp_ret. apply wlp_bind.
  eapply wlp_mono.
  { apply (wlp_while (evolve_inv self w own k)).
    - unfold evolve_inv. simpl. split_and!; [done|done|done|lia|].
      apply wf_members_prefix, slice_prefix.
    - intros st w' Hinv _. by apply wlp_evolve_body. }
  intros [idx buf] w2 [(Hafter & _) _].
  apply wlp_bind, wp_wlp. eapply wp_mono; [apply wp_alloc|].
  intros r w3 (Hr & Hh & Hrng). apply wlp_ret.
  destruct (alloc_after _ _ _ _ Hr Hh Hrng) as [Hafter' _].
  split; [by etrans|]. simpl.
  destruct Hafter as [_ Hsub].
  destruct (heap w !! r) as [l|] eqn:Hl; [|done].
  eapply lookup_weaken in Hl; [|exact Hsub]. congruence.
Qed.

(** X12: [evolve] changes no list in place: after a call that returns,
    every list object of the world before, the old member list and the
    copies handed out earlier included, holds the items it held; the new
    member list is a new object; and the three rates and the random
    source's tape are as before. *)
Theorem evolve_allocates_a_new_list (fuel : nat) (self : Population)
  (w : World) (self' : Population) (w' : World) :
  evolve fuel self w = Done self' w' →
  (∀ r l, heap w !! r = Some l → heap w' !! r = Some l) ∧
  heap w !! _population self' = None ∧
  _population self' ≠ _population self ∧
  members self w' = members self w ∧
  _elitism self' = _elitism self ∧ _mutation self' = _mutation self ∧
  _crossover self' = _crossover self ∧
  tape (rng w') = tape (rng w).
Proof.
  intros Hrun.
  pose proof (wlp_evolve_store fuel self w) as Hstore.
  unfold wlp in Hstore. rewrite Hrun in Hstore.
  destruct Hstore as [Hafter Hfresh].
  destruct (evolve_Done _ _ _ _ _ Hrun)
    as (_ & He & Hm & Hc & ms & _ & _ & Hms & _).
  split_and!; try done.
  - intros r l. by apply after_lookup.
  - intros Heq. rewrite Heq in Hfresh. unfold members in Hms. congruence.
  - unfold members in *. rewrite Hms. by eapply after_lookup.
  - by destruct Hafter.
Qed.

Lemma evolve_allocates_a_new_list_witness :
  ∃ self' w',
    evolve 2 sample_population (sample_world low_tape) = Done self' w' ∧
    members sample_population w' = Some sample_members ∧
    _population self' ≠ 1%positive.
Proof.
  destruct (evolve 2 sample_population (sample_world low_tape))
    as [self' w'|e|] eqn:Hrun;
    [|exfalso; vm_compute in Hrun; discriminate Hrun..].
  destruct (evolve_allocates_a_new_list 2 sample_population
              (sample_world low_tape) self' w' Hrun)
    as (_ & _ & Hne & Hms & _).
  exists self', w'. split_and!; [reflexivity|exact Hms|exact Hne].
Defined.

(** * Selection on an empty population *)

Lemma selectParents_empty self w :
  members self w = Some [] → __selectParents self w = Raise ValueError.
Proof.
  intros Hms. unfold __selectParents.
  by apply bind_Raise, tournament_empty.
Qed.

(** X13: an empty population has no tournament: [__tournamentSelection]
    and [__selectParents] raise [ValueError] on it, from [randint] on the
    empty range [0 .. -1]; on a population of one member both return that
    member. *)
Theorem selection_on_small_populations (self : Population) (w : World) :
  (members self w = Some [] →
   __tournamentSelection self w = Raise ValueError ∧
   __selectParents self w = Raise ValueError) ∧
  (∀ c, members self w = Some [c] →
   ∃ w1 w2, __tournamentSelection self w = Done c w1 ∧
            __selectParents self w = Done (c, c) w2).
Proof.
  split.
  - intros Hms. split; [by apply tournament_empty|by apply selectParents_empty].
  - intros c Hms.
    assert (∀ w0, members self w0 = Some [c] →
              __tournamentSelection self w0
              = Done c (tournament_world [c] w0)) as Hone.
    { intros w0 Hms0.
      destruct (tournament_eq self [c] w0 Hms0 ltac:(done))
        as (c0 & c1 & c2 & c3 & H0 & H1 & H2 & H3 & Hrun).
      assert (∀ k x, [c] !! draw_index [c] k w0 = Some x → x = c) as Hc.
      { intros k x Hx. destruct (draw_index [c] k w0); [by injection Hx|].
        simpl in Hx. by rewrite lookup_nil in Hx. }
      apply Hc in H0, H1, H2, H3. subst.
      rewrite Hrun. f_equal.
      assert (pick c c = c) as Hpick by (by destruct (pick_cases c c)).
      by rewrite !Hpick. }
    eexists _, _. split; [by apply Hone|].
    unfold __selectParents.
    rewrite (bind_Done _ _ _ _ _ (Hone w Hms)).
    rewrite (bind_Done _ _ _ _ _
               (Hone _ (members_tournament_world _ _ _ Hms))).
    done.
Qed.

Lemma selection_on_small_populations_witness :
  __selectParents sample_population
    {| rng := {| tape := low_tape; pos := 0 |};
       heap := {[ 1%positive := [] ]} |}
  = Raise ValueError.
Proof.
  apply (proj1 (selection_on_small_populations sample_population
                  {| rng := {| tape := low_tape; pos := 0 |};
                     heap := {[ 1%positive := [] ]} |})).
  reflexivity.
Defined.

(** * The script *)

Lemma getitem_0_Done {A} (l : list A) w c w' :
  getitem l 0 w = Done c w' → l !! 0%nat = Some c ∧ w' = w.
Proof.
  unfold getitem. simpl. change (Z.to_nat 0) with 0%nat.
  destruct (l !! 0%nat) as [x|]; [|done]. by intros [= -> ->].
Qed.

Lemma wlp_best_member pop ms w :
  members pop w = Some ms →
  wlp (best_member pop) w (λ c w',
    ms !! 0%nat = Some c ∧ members pop w' = Some ms ∧ rng w' = rng w ∧
    after w w').
Proof.
  intros Hms. unfold best_member. apply wlp_bind.
  eapply wlp_mono; [apply wlp_population|].
  intros r w1 (Hafter & Hrng & _ & Hcopy & Hms1). apply wlp_bind.
  eapply wlp_mono; [apply wlp_load|]. intros l w2 (Hl & ->).
  assert (l = ms) as -> by congruence.
  apply wlp_Done. intros c w2 Hget.
  apply getitem_0_Done in Hget as [Hc ->].
  split_and!; [done|congruence|done|done].
Qed.

Lemma wp_best_member pop ms w :
  members pop w = Some ms → ms ≠ [] →
  wp (best_member pop) w (λ c w',
    ms !! 0%nat = Some c ∧ members pop w' = Some ms ∧ rng w' = rng w ∧
    after w w').
Proof.
  intros Hms Hne. destruct ms as [|c ms]; [done|].
  eapply wp_of_wlp; [|by apply wlp_best_member].
  unfold best_member. rewrite (bind_Done _ _ _ _ _ (population_eq _ _ _ Hms)).
  erewrite bind_Done by (apply load_eq; simpl; apply lookup_insert_eq).
  by apply getitem_nonneg.
Qed.

Lemma best_member_empty pop w :
  members pop w = Some [] → best_member pop w = Raise IndexError.
Proof.
  intros Hms. unfold best_member.
  rewrite (bind_Done _ _ _ _ _ (population_eq _ _ _ Hms)).
  erewrite bind_Done by (apply load_eq; simpl; apply lookup_insert_eq).
  done.
Qed.

Lemma wf_fitness_zero c :
  wf_chromosome c → _fitness c = 0 ↔ _gene c = __target_gene.
Proof. intros [Hlen ->]. by apply _updateFitness_zero. Qed.

(** What the loop of the script prints when it returns: one line per
    generation, with the gene of the best member at that time, up to and
    including the first generation whose best gene is the target; and the
    closing line when no generation's best gene was the target. *)
Lemma main_loop_output fuel gens pop out w ms pop' out' w' :
  members pop w = Some ms → wf_members ms →
  main_loop fuel gens pop out w = Done (pop', out') w' →
  ∃ genes,
    Forall (λ g, g ≠ __target_gene) genes ∧
    (length genes ≤ length gens)%nat ∧
    ((length genes < length gens)%nat ∧
     out' = out ++ zip_with generation_line gens (genes ++ [__target_gene])
     ∨ length genes = length gens ∧
       out' = out ++ zip_with generation_line gens genes ++ [failure_line]).
Proof.
  revert pop out w ms. induction gens as [|i gens IH];
    intros pop out w ms Hms Hwf Hrun.
  - injection Hrun as <- <- <-. exists []. split_and!; [done..|].
    right. done.
  - cbn [main_loop] in Hrun.
    pose proof (wlp_best_member pop ms w Hms) as Hb1. unfold wlp in Hb1.
    unfold mbind at 1, M_bind at 1 in Hrun.
    destruct (best_member pop w) as [c w1| |]; [|done..].
    destruct Hb1 as (Hc & Hms1 & _).
    pose proof (wlp_best_member pop ms w1 Hms1) as Hb2. unfold wlp in Hb2.
    unfold mbind at 1, M_bind at 1 in Hrun.
    destruct (best_member pop w1) as [c' w2| |]; [|done..].
    destruct Hb2 as (Hc' & Hms2 & _).
    assert (c' = c) as -> by congruence.
    assert (wf_chromosome c) as Hwfc
      by (eapply wf_members_elem_of; [done|by eapply list_elem_of_lookup_2]).
    destruct (_fitness c =? 0) eqn:Hfit.
    + injection Hrun as <- <- <-. apply Z.eqb_eq in Hfit.
      apply wf_fitness_zero in Hfit; [|done].
      exists []. split_and!; [done|simpl; lia|]. left.
      split; [simpl; lia|]. simpl. rewrite Hfit.
      by destruct gens.
    + apply Z.eqb_neq in Hfit.
      unfold mbind at 1, M_bind at 1 in Hrun.
      destruct (evolve fuel pop w2) as [pop1 w3| |] eqn:Hev; [|done..].
      destruct (evolve_wf _ _ _ _ _ _ Hms2 Hwf Hev) as (ms1 & Hms3 & Hwf1).
      destruct (IH _ _ _ _ Hms3 Hwf1 Hrun)
        as (genes & Hne & Hlen & Hout).
      exists (_gene c :: genes). split_and!.
      * constructor; [|done]. intros Heq.
        apply wf_fitness_zero in Heq; done.
      * simpl. lia.
      * destruct Hout as [[Hlt ->]|[Heq ->]]; [left|right];
          (split; [simpl; lia|]); by rewrite <-app_assoc.
Qed.

(** X14: the generation loop of the script, when it returns, has printed
    one line ["Generation i: gene"] per generation, with the numbers in
    order and the gene of the best member of the population at that time,
    each population being the one [evolve] made of the one before, up to
    and including the first generation whose best member has the target
    as its gene, where it stops; it prints the closing line ["Maximum
    generations reached without success."] exactly when it ran through
    every generation without meeting the target. *)
Theorem script_loop_output (fuel : nat) (gens : list Z) (pop : Population)
  (out : list string) (w : World) (ms : list Chromosome)
  (pop' : Population) (out' : list string) (w' : World) :
  members pop w = Some ms → wf_members ms →
  main_loop fuel gens pop out w = Done (pop', out') w' →
  ∃ genes w0,
    generations fuel pop w genes pop' w0 ∧
    Forall (λ g, g ≠ __target_gene) genes ∧
    ((length genes < length gens)%nat ∧
     (∃ best ms', members pop' w0 = Some (best :: ms') ∧
                  _gene best = __target_gene) ∧
     out' = out ++ zip_with generation_line gens (genes ++ [__target_gene])
     ∨ length genes = length gens ∧ w' = w0 ∧
       out' = out ++ zip_with generation_line gens genes ++ [failure_line]).
Proof.
  revert pop out w ms. induction gens as [|i gens IH];
    intros pop out w ms Hms Hwf Hrun.
  - injection Hrun as <- <- <-. exists [], w.
    split_and!; [constructor|done|]. right. done.
  - cbn [main_loop] in Hrun.
    pose proof (wlp_best_member pop ms w Hms) as Hb1. unfold wlp in Hb1.
    unfold mbind at 1, M_bind at 1 in Hrun.
    destruct (best_member pop w) as [c w1| |]; [|done..].
    destruct Hb1 as (Hc & Hms1 & Hrng1 & Hafter1).
    pose proof (wlp_best_member pop ms w1 Hms1) as Hb2. unfold wlp in Hb2.
    unfold mbind at 1, M_bind at 1 in Hrun.
    destruct (best_member pop w1) as [c' w2| |]; [|done..].
    destruct Hb2 as (Hc' & Hms2 & Hrng2 & Hafter2).
    assert (c' = c) as -> by congruence.
    assert (wf_chromosome c) as Hwfc
      by (eapply wf_members_elem_of; [done|by eapply list_elem_of_lookup_2]).
    destruct ms as [|c0 ms]; [done|]. injection Hc as ->.
    destruct (_fitness c =? 0) eqn:Hfit.
    + injection Hrun as <- <- <-. apply Z.eqb_eq in Hfit.
      apply wf_fitness_zero in Hfit; [|done].
      exists [], w. split_and!; [constructor|done|]. left.
      split_and!; [simpl; lia|by eauto|]. simpl. rewrite Hfit.
      by destruct gens.
    + apply Z.eqb_neq in Hfit.
      unfold mbind at 1, M_bind at 1 in Hrun.
      destruct (evolve fuel pop w2) as [pop1 w3| |] eqn:Hev; [|done..].
      destruct (evolve_wf _ _ _ _ _ _ Hms2 Hwf Hev) as (ms1 & Hms3 & Hwf1).
      destruct (IH _ _ _ _ Hms3 Hwf1 Hrun)
        as (genes & w0 & Hgens & Hne & Hout).
      exists (_gene c :: genes), w0. split_and!.
      * eapply generations_cons; [exact Hms|by etrans|congruence|done..].
      * constructor; [|done]. intros Heq.
        apply wf_fitness_zero in Heq; done.
      * destruct Hout as [(Hlt & Hbest & ->)|(Heq & -> & ->)]; [left|right];
          (split_and!; [simpl; lia|done|]); by rewrite <-app_assoc.
Qed.

Lemma script_loop_output_witness :
  ∃ pop' out' w',
    main_loop 2 [1; 2; 3] sample_population [] (sample_world low_tape)
    = Done (pop', out') w' ∧
    out' = ["Generation 1: Hello, world!"%string].
Proof.
  destruct (main_loop 2 [1; 2; 3] sample_population []
              (sample_world low_tape)) as [[pop' out'] w'|e|] eqn:Hrun;
    [|exfalso; vm_compute in Hrun; discriminate Hrun..].
  destruct (script_loop_output 2 [1; 2; 3] sample_population []
              (sample_world low_tape) sample_members pop' out' w'
              eq_refl ltac:(repeat constructor) Hrun)
    as (genes & w0 & _ & _ & _).
  exists pop', out', w'. split; [reflexivity|].
  vm_compute in Hrun. by injection Hrun as _ <- _.
Defined.

Lemma main_loop_no_raise fuel gens pop out w ms n k :
  members pop w = Some ms → wf_members ms → length ms = S n →
  elite_count (Z.of_nat (S n)) (_elitism pop) = Some k → 0 ≤ k →
  no_raise (main_loop fuel gens pop out w).
Proof.
  revert pop out w ms. induction gens as [|i gens IH];
    intros pop out w ms Hms Hwf Hlen Hcount Hk; [done|].
  assert (ms ≠ []) as Hne by (intros ->; discriminate Hlen).
  cbn [main_loop].
  pose proof (wp_best_member pop ms w Hms Hne) as Hb1.
  apply wp_Done in Hb1 as (c & w1 & Hrun1 & Hc & Hms1 & _).
  rewrite (bind_Done _ _ _ _ _ Hrun1).
  pose proof (wp_best_member pop ms w1 Hms1 Hne) as Hb2.
  apply wp_Done in Hb2 as (c' & w2 & Hrun2 & Hc' & Hms2 & _).
  rewrite (bind_Done _ _ _ _ _ Hrun2).
  destruct (_fitness c' =? 0); [done|].
  apply no_raise_bind.
  - apply (evolve_no_raise fuel pop w2 ms k); [done..| |].
    + unfold len. by rewrite Hlen.
    + unfold len. lia.
  - intros pop1 w3 Hev.
    destruct (evolve_Done _ _ _ _ _ Hev)
      as (_ & He1 & _ & _ & ms0 & _ & buf & Hms0 & _ & _ & Hlen' & Hwfbuf
          & Hms3).
    assert (ms0 = ms) as -> by congruence.
    eapply IH; [exact Hms3| | |by rewrite He1|done].
    + unfold wf_members. rewrite sorted_Permutation.
      apply Forall_take. by apply Hwfbuf.
    + rewrite length_sorted, length_take. lia.
Qed.

(** X15: the script itself (2048 members, rates 0.8, 0.1 and 0.3, at most
    16384 generations) never raises, whatever the source draws; when it
    returns it has printed between 1 and 16384 generation lines, numbered
    from 1, the last one with the target as its gene, or all 16384 of them
    without the target followed by the closing line. *)
Theorem script_never_raises (fuel : nat) (w : World) :
  no_raise (main fuel w) ∧
  ∀ pop out w', main fuel w = Done (pop, out) w' →
    ∃ genes,
      Forall (λ g, g ≠ __target_gene) genes ∧
      (len genes < maxGenerations ∧
       out = zip_with generation_line (seqZ 1 maxGenerations)
               (genes ++ [__target_gene])
       ∨ len genes = maxGenerations ∧
         out = zip_with generation_line (seqZ 1 maxGenerations) genes
               ++ [failure_line]).
Proof.
  pose proof (wp_Population_init_candidates 2048 float_0_8 float_0_1
                float_0_3 w) as Hinit.
  apply wp_Done in Hinit
    as (pop0 & w0 & Hrun0 & _ & _ & _ & He & _ & ms & Hms & _ & Hlen & Hall).
  assert (wf_members ms) as Hwf
    by (eapply Forall_impl; [exact Hall|]; by intros c [? _]).
  unfold main. rewrite (bind_Done _ _ _ _ _ Hrun0).
  assert (0 ≤ maxGenerations) as Hmax by discriminate.
  revert Hmax. generalize maxGenerations. intros m Hmax. split.
  - apply (main_loop_no_raise _ _ _ _ _ ms 2047 205); [done..| | |done].
    + by rewrite Hlen.
    + rewrite He. by vm_compute.
  - intros pop out w' Hrun.
    destruct (main_loop_output _ _ _ _ _ _ _ _ _ Hms Hwf Hrun)
      as (genes & Hne & Hle & Hout).
    rewrite length_seqZ in Hle, Hout. exists genes. split; [exact Hne|].
    unfold len.
    destruct Hout as [[Hlt Hout]|[Heq Hout]]; [left|right];
      (split; [lia|exact Hout]).
Qed.

(** * Fitness under crossover and mutation *)

Lemma distance_cons a g b t :
  distance (a :: g) (b :: t) = Z.abs (ord a - ord b) + distance g t.
Proof.
  unfold distance. simpl. rewrite foldl_step_acc.
  unfold fitness_step at 1. simpl. lia.
Qed.

Lemma distance_nil_r g : distance g [] = 0.
Proof. unfold distance. by destruct g. Qed.

Lemma distance_app g1 g2 t :
  distance (g1 ++ g2) t
  = distance g1 (take (length g1) t) + distance g2 (drop (length g1) t).
Proof.
  revert t. induction g1 as [|a g1 IH]; intros t; [done|].
  destruct t as [|b t]; simpl.
  - by rewrite !distance_nil_r.
  - rewrite !distance_cons, IH. lia.
Qed.

Lemma distance_crossover_at pivot g1 g2 t :
  length g1 = length g2 →
  distance (crossover_at pivot g1 g2) t
  = distance (take pivot g1) (take (pivot `min` length g1) t)
    + distance (drop pivot g2) (drop (pivot `min` length g1) t).
Proof.
  intros Hlen. unfold crossover_at. by rewrite distance_app, length_take.
Qed.

Lemma distance_take_drop pivot g t :
  distance g t
  = distance (take pivot g) (take (pivot `min` length g) t)
    + distance (drop pivot g) (drop (pivot `min` length g) t).
Proof.
  rewrite <-(take_drop pivot g) at 1. by rewrite distance_app, length_take.
Qed.

(** X16: crossover conserves the total fitness: for parents of one
    length, the fitnesses of the two children add up to the fitnesses of
    the two parents, so the fitter child is never worse than the mean of
    the parents and never better than their sum allows. *)
Theorem mate_conserves_total_fitness (self other : Chromosome) (w : World)
  (c1 c2 : Chromosome) (w' : World) :
  length (_gene self) = length (_gene other) →
  fitness_ok self → fitness_ok other →
  mate self other w = Done (c1, c2) w' →
  _fitness c1 + _fitness c2 = _fitness self + _fitness other ∧
  2 * Z.min (_fitness c1) (_fitness c2) ≤ _fitness self + _fitness other.
Proof.
  intros Hlen Hs Ho Hrun.
  destruct (decide (_gene self = [])) as [Hnil|Hne].
  { by rewrite mate_empty in Hrun. }
  rewrite mate_eq in Hrun by done.
  set (pivot := Z.to_nat (randint_of 0 (len (_gene self) - 1) (peek 0 w)))
    in *.
  injection Hrun as <- <- <-. rewrite Hs, Ho.
  cbn [_fitness Chromosome_init].
  change (_updateFitness ?g) with (distance g __target_gene).
  rewrite (distance_crossover_at pivot (_gene self)) by done.
  rewrite (distance_crossover_at pivot (_gene other)) by done.
  rewrite (distance_take_drop pivot (_gene self)).
  rewrite (distance_take_drop pivot (_gene other)).
  rewrite Hlen. lia.
Qed.

Lemma mate_conserves_total_fitness_witness :
  ∃ c1 c2 w',
    mate (Chromosome_init (gene_of "Hello, xxxxx!"))
         (Chromosome_init (gene_of "yyyyy, world!"))
         (draws_world [5%N]) = Done (c1, c2) w' ∧
    _fitness c1 + _fitness c2
    = _fitness (Chromosome_init (gene_of "Hello, xxxxx!"))
      + _fitness (Chromosome_init (gene_of "yyyyy, world!")).
Proof.
  destruct (mate (Chromosome_init (gene_of "Hello, xxxxx!"))
              (Chromosome_init (gene_of "yyyyy, world!"))
              (draws_world [5%N])) as [[c1 c2] w'|e|] eqn:Hrun;
    [|exfalso; vm_compute in Hrun; discriminate Hrun..].
  exists c1, c2, w'. split; [reflexivity|].
  exact (proj1 (mate_conserves_total_fitness
                  (Chromosome_init (gene_of "Hello, xxxxx!"))
                  (Chromosome_init (gene_of "yyyyy, world!"))
                  (draws_world [5%N]) c1 c2 w' eq_refl
                  (Chromosome_init_fitness_ok _)
                  (Chromosome_init_fitness_ok _) Hrun)).
Defined.

Lemma distance_insert g t i old new b :
  g !! i = Some old → t !! i = Some b →
  distance (<[i := new]> g) t - distance g t
  = Z.abs (ord new - ord b) - Z.abs (ord old - ord b).
Proof.
  revert t i. induction g as [|a g IH]; intros [|b' t] i Hold Hb; try done.
  destruct i as [|i]; simpl in *.
  - injection Hold as ->. injection Hb as ->. rewrite !distance_cons. lia.
  - rewrite !distance_cons. specialize (IH t i Hold Hb). lia.
Qed.

(** X17: a mutation moves the fitness by what it does to one term of the
    sum: for a candidate of the target's length, the new fitness is the old
    one minus the distance of the old character to the target's character
    at the mutated position plus the distance of the new one, so the
    fitness changes by at most the change of the character code. *)
Theorem mutate_fitness_change (self : Chromosome) (w : World) :
  wf_chromosome self →
  ∃ c' idx old new b,
    mutate self w = Done c' (advance 2 w) ∧
    _gene self !! idx = Some old ∧ _gene c' !! idx = Some new ∧
    __target_gene !! idx = Some b ∧
    _fitness c' - _fitness self
    = Z.abs (ord new - ord b) - Z.abs (ord old - ord b) ∧
    Z.abs (_fitness c' - _fitness self) ≤ Z.abs (ord new - ord old).
Proof.
  intros [Hlen Hok].
  assert (_gene self ≠ []) as Hne
    by (intros Hnil; rewrite Hnil in Hlen; discriminate Hlen).
  destruct (mutate_eq self w Hne) as (old & Hold & Hrun).
  set (idx := Z.to_nat (randint_of 0 (len (_gene self) - 1) (peek 1 w))) in *.
  set (new := ascii_of_N _) in *.
  apply lookup_lt_Some in Hold as Hlt.
  destruct (lookup_lt_is_Some_2 __target_gene idx) as [b Hb]; [lia|].
  eexists _, idx, old, new, b. split; [exact Hrun|].
  cbn [_gene _fitness Chromosome_init]. rewrite Hok.
  change (_updateFitness ?g) with (distance g __target_gene).
  pose proof (distance_insert _ _ _ _ new _ Hold Hb) as Hd.
  split_and!; [done|by rewrite list_lookup_insert_eq|done|done|lia].
Qed.

Lemma mutate_fitness_change_witness :
  ∃ c', mutate (Chromosome_init (gene_of "Hello, world?"))
          (draws_world [0%N; 12%N])
        = Done c' (advance 2 (draws_world [0%N; 12%N])) ∧
        Z.abs (_fitness c'
               - _fitness (Chromosome_init (gene_of "Hello, world?"))) ≤ 255.
Proof.
  destruct (mutate_fitness_change (Chromosome_init (gene_of "Hello, world?"))
              (draws_world [0%N; 12%N])
              (conj eq_refl (Chromosome_init_fitness_ok _)))
    as (c' & idx & old & new & b & Hrun & _ & _ & _ & _ & Hle).
  exists c'. split; [exact Hrun|].
  pose proof (ord_range new). pose proof (ord_range old). lia.
Defined.

(** * What the unmoved index costs *)

Lemma Qle_bool_false r c : (c < r)%Q → Qle_bool r c = false.
Proof.
  intros Hlt. destruct (Qle_bool r c) eqn:E; [|done].
  apply Qle_bool_iff in E. lra.
Qed.

Lemma evolve_body_copy self ms idx buf c w :
  members self w = Some ms →
  0 ≤ idx → ms !! Z.to_nat idx = Some c →
  (_crossover self < random_of (peek 0 w))%Q →
  (_mutation self < random_of (peek 1 w))%Q →
  evolve_body self (idx, buf) w = Done (idx, buf ++ [c]) (advance 2 w).
Proof.
  intros Hms Hidx Hc Hcross Hmut. unfold evolve_body.
  rewrite (bind_Done _ _ _ _ _ (random_eq w)).
  rewrite (Qle_bool_false _ _ Hcross).
  rewrite (bind_Done _ _ _ _ _ (random_eq (advance 1 w))).
  change (peek 0 (advance 1 w)) with (peek 1 w).
  rewrite (Qle_bool_false _ _ Hmut).
  erewrite bind_Done by (apply load_eq; exact Hms).
  erewrite bind_Done by (by apply getitem_nonneg).
  by rewrite advance_advance.
Qed.

Lemma while_copies self ms idx c n :
  0 ≤ idx < len ms → ms !! Z.to_nat idx = Some c →
  ∀ fuel buf w st w',
    members self w = Some ms → copies_only self w n →
    while fuel (λ st : Z * list Chromosome, st.1 <? len ms)
      (evolve_body self) (idx, buf) w = Done st w' →
    ∃ fuel',
      while fuel' (λ st : Z * list Chromosome, st.1 <? len ms)
        (evolve_body self) (idx, buf ++ replicate n c) (advance (2 * n) w)
      = Done st w'.
Proof.
  intros Hidx Hc. induction n as [|n IH]; intros fuel buf w st w' Hms Hn Hrun.
  - exists fuel. by rewrite app_nil_r, advance_0.
  - assert ((idx <? len ms) = true) as Hcond by (apply Z.ltb_lt; lia).
    destruct fuel as [|fuel]; simpl in Hrun; rewrite Hcond in Hrun; [done|].
    destruct (Hn 0%nat ltac:(lia)) as [Hcross Hmut].
    rewrite (bind_Done _ _ _ _ _
               (evolve_body_copy self ms idx buf c w Hms ltac:(lia) Hc
                  Hcross Hmut)) in Hrun.
    destruct (IH fuel (buf ++ [c]) (advance 2 w) st w') as [fuel' Hrun'];
      [done| |done|].
    + intros i Hi. destruct (Hn (S i) ltac:(lia)) as [Hc1 Hm1].
      rewrite !peek_advance.
      replace (2 * i + 2)%nat with (2 * S i)%nat by lia.
      replace (2 * i + 1 + 2)%nat with (2 * S i + 1)%nat by lia. done.
    + exists fuel'. rewrite advance_advance in Hrun'.
      replace (2 * S n)%nat with (2 * n + 2)%nat by lia.
      by rewrite <-app_assoc in Hrun'.
Qed.

(** An iteration of the fill loop only appends to the buffer. *)
Lemma wlp_evolve_body_grows self idx buf w :
  wlp (evolve_body self (idx, buf)) w (λ st w', buf `prefix_of` st.2).
Proof.
  unfold evolve_body. apply wlp_bind, wp_wlp.
  eapply wp_eq; [apply random_eq|].
  destruct (Qle_bool _ (_crossover self)).
  - apply wlp_bind. eapply wlp_mono; [apply wlp_selectParents|].
    intros [p1 p2] w2 _. apply wlp_bind.
    eapply wlp_mono; [apply wlp_mate|]. intros [c1 c2] w3 _.
    apply wlp_bind. apply wlp_bind.
    eapply wlp_mono; [apply wlp_append_child|].
    intros buf1 w4 (_ & _ & m1 & -> & _).
    apply wlp_bind. eapply wlp_mono; [apply wlp_append_child|].
    intros buf2 w5 (_ & _ & m2 & -> & _).
    do 2 apply wlp_ret. simpl. by do 2 apply prefix_app_r.
  - apply wlp_bind, wp_wlp. eapply wp_eq; [apply random_eq|].
    destruct (Qle_bool _ (_mutation self)).
    + apply wlp_bind. eapply wlp_mono; [apply wlp_load|]. intros own w3 _.
      apply wlp_bind. eapply wlp_mono; [apply wlp_getitem|]. intros c w4 _.
      apply wlp_bind. eapply wlp_mono; [apply wlp_mutate|]. intros m w5 _.
      apply wlp_ret. simpl. by apply prefix_app_r.
    + apply wlp_bind. eapply wlp_mono; [apply wlp_load|]. intros own w3 _.
      apply wlp_bind. eapply wlp_mono; [apply wlp_getitem|]. intros c w4 _.
      apply wlp_ret. simpl. by apply prefix_app_r.
Qed.

Lemma while_grows fuel self size idx buf w st w' :
  while fuel (λ st : Z * list Chromosome, st.1 <? size)
    (evolve_body self) (idx, buf) w = Done st w' →
  buf `prefix_of` st.2.
Proof.
  intros Hrun.
  assert (wlp (while fuel (λ st : Z * list Chromosome, st.1 <? size)
                 (evolve_body self) (idx, buf)) w
            (λ st _, (λ (st : Z * list Chromosome) (_ : World),
                        buf `prefix_of` st.2) st w
                     ∧ (st.1 <? size) = false)) as Hwlp.
  { apply (wlp_while (λ (st : Z * list Chromosome) (_ : World),
                        buf `prefix_of` st.2)); [done|].
    intros [idx1 buf1] w1 Hpre _. simpl in Hpre.
    eapply wlp_mono; [apply wlp_evolve_body_grows|].
    intros st2 w2 [t2 Ht2]. destruct Hpre as [t1 ->].
    exists (t1 ++ t2). by rewrite Ht2, app_assoc. }
  unfold wlp in Hwlp. rewrite Hrun in Hwlp. by destruct Hwlp.
Qed.

Lemma nondecreasing_elite_and_copies ms k c n :
  nondecreasing ms → ms !! k = Some c →
  nondecreasing (take k ms ++ replicate n c).
Proof.
  intros Hnd Hc i j a b Hij Ha Hb.
  apply lookup_lt_Some in Hc as Hk.
  assert (length (take k ms) = k) as Hlen by (rewrite length_take; lia).
  destruct (decide (j < k)%nat) as [Hj|Hj].
  - rewrite lookup_app_l, lookup_take_lt in Ha, Hb by lia.
    by apply (Hnd i j a b).
  - rewrite lookup_app_r in Hb by lia.
    apply lookup_replicate in Hb as [-> _].
    destruct (decide (i < k)%nat) as [Hi|Hi].
    + rewrite lookup_app_l, lookup_take_lt in Ha by lia.
      eapply (Hnd i k); [lia|done..].
    + rewrite lookup_app_r in Ha by lia.
      by apply lookup_replicate in Ha as [-> _].
Qed.

(** X18: since the non-crossover path leaves the fill index where it is,
    it copies the same member again and again: when the first [size - k]
    iterations of a generation take that path without mutation ([k] the
    elite count, [0 <= k < size]), a call of [evolve] that returns leaves
    the [k] elite members followed by [size - k] copies of the member at
    position [k], whatever is produced afterwards being cut off. *)
Theorem evolve_refills_with_one_member (fuel : nat) (self : Population)
  (w : World) (ms : list Chromosome) (k : Z) (c : Chromosome)
  (self' : Population) (w' : World) :
  members self w = Some ms → nondecreasing ms →
  elite_count (len ms) (_elitism self) = Some k →
  0 ≤ k < len ms →
  ms !! Z.to_nat k = Some c →
  copies_only self w (Z.to_nat (len ms - k)) →
  evolve fuel self w = Done self' w' →
  members self' w'
  = Some (take (Z.to_nat k) ms ++ replicate (Z.to_nat (len ms - k)) c).
Proof.
  intros Hms Hnd Hcount Hk Hc Hcopies Hrun.
  set (n := Z.to_nat (len ms - k)) in *.
  rewrite (evolve_unfold _ _ _ _ _ Hms Hcount) in Hrun.
  unfold mbind at 1, M_bind at 1 in Hrun.
  destruct (while fuel _ _ _ w) as [[idx buf] w2| |] eqn:Hloop; [|done..].
  rewrite slice_take in Hloop by lia.
  destruct (while_copies self ms k c n Hk Hc _ _ _ _ _ Hms Hcopies Hloop)
    as [fuel' Hloop'].
  apply while_grows in Hloop' as [tl Hbuf]. simpl in Hbuf.
  rewrite (bind_Done _ _ _ _ _ (alloc_eq _ _)) in Hrun.
  injection Hrun as <- <-. unfold members. simpl.
  rewrite lookup_insert_eq. f_equal.
  assert (length (take (Z.to_nat k) ms ++ replicate n c) = length ms) as Hlen.
  { rewrite length_app, length_take, length_replicate.
    unfold n, len in *. lia. }
  rewrite slice_take by (unfold len; lia).
  unfold len. rewrite Nat2Z.id, Hbuf, <-Hlen, take_app_length.
  apply sorted_of_nondecreasing. by apply nondecreasing_elite_and_copies.
Qed.

Lemma evolve_refills_with_one_member_witness :
  ∃ self' w',
    evolve 3 sample_population
      (sample_world (λ i, if (i <? 4)%nat then high_tape i else 0%N))
    = Done self' w' ∧
    members self' w'
    = Some [Chromosome_init (gene_of "Hello, world!");
            Chromosome_init (gene_of "Hello, worle!");
            Chromosome_init (gene_of "Jello, world!");
            Chromosome_init (gene_of "Jello, world!")].
Proof.
  destruct (evolve 3 sample_population
              (sample_world (λ i, if (i <? 4)%nat then high_tape i else 0%N)))
    as [self' w'|e|] eqn:Hrun;
    [|exfalso; vm_compute in Hrun; discriminate Hrun..].
  exists self', w'. split; [reflexivity|].
  apply (evolve_refills_with_one_member 3 sample_population
           (sample_world (λ i, if (i <? 4)%nat then high_tape i else 0%N))
           sample_members 2 (Chromosome_init (gene_of "Jello, world!"))
           self' w' eq_refl).
  - apply sample_members_nondecreasing.
  - vm_compute. reflexivity.
  - split; [vm_compute; discriminate|vm_compute; reflexivity].
  - reflexivity.
  - intros i Hi. change (Z.to_nat _) with 2%nat in Hi.
    destruct i as [|[|?]]; [split; vm_compute; reflexivity..|lia].
  - exact Hrun.
Defined.
